(** * Scenario normalisation pipeline of [src/services/ai.ts]

    A shallow embedding of the post-processing block of [generateScenario]
    (blank re-ordering, step re-mapping and "At Blank N" re-numbering),
    together with the JavaScript string and regular-expression primitives it
    relies on.

    Modelling conventions.
    - A JavaScript string is a list of UTF-16 code units ([list N]).
    - A JavaScript number that holds a blank index is a [nat]; these are
      exact in the source for every value below 2^53, which covers every
      index that can address an element of [scenario.steps].
    - [Map<number, number>] is a [gmap nat nat].
    - [new Array(n)] is a list of [option]s, [None] being an empty slot.
    - A regular expression is a function that matches at the start of a
      string; the [g] flag is the [exec] loop around it.
    - The fields that [LogicStep] and [LogicScenario] type as strings hold
      strings.

    The development then follows the scenario to the code around the
    pipeline: the code view of [FillInBlanks] that splits the template
    again, the cleaning of the replies of the model, [validateAnswer] and
    [sendMessageToAI], and the submission loop of [FillInBlanks].
    - A value that comes out of [JSON.parse] or [response.json()] is a
      [jsval]; [JSON.parse] itself is a parameter.
    - A function that calls the completion service is a computation [io]
      whose only effects are a request and a [throw]; an environment
      answers the requests. [console.error] is not modelled. *)

From Stdlib Require Import NArith Decimal DecimalNat Ascii String.
From Stdlib Require Import ZArith Floats.SpecFloat.
From stdpp Require Import base option list gmap.

Local Open Scope nat_scope.

(** ** JavaScript strings *)

Abbreviation jsstring := (list N).

Definition lit (s : string) : jsstring :=
  N_of_ascii <$> list_ascii_of_string s.

(** [String.prototype.substring(start, end)]: both arguments are clamped to
    the length and swapped when [start > end]. *)
Definition substring (s : jsstring) (a b : nat) : jsstring :=
  take (Nat.max a b - Nat.min a b) (drop (Nat.min a b) s).

(** [String.prototype.substring(start)]. *)
Definition substring_from (s : jsstring) (a : nat) : jsstring := drop a s.

(** *** Character classes of the regular expressions *)

(** [\d] (no [u] flag): the ten ASCII digits. *)
Definition is_digit (c : N) : bool := ((48 <=? c) && (c <=? 57))%N.

(** [\s]: the ECMAScript WhiteSpace and LineTerminator code points. *)
Definition is_space (c : N) : bool :=
  ((9 <=? c) && (c <=? 13) || (c =? 32) || (c =? 160) || (c =? 5760)
   || (8192 <=? c) && (c <=? 8202) || (c =? 8232) || (c =? 8233)
   || (c =? 8239) || (c =? 8287) || (c =? 12288) || (c =? 65279))%N.

(** Canonicalisation under the [i] flag (no [u] flag), restricted to what can
    reach an ASCII letter: a code unit at or above 128 never folds into the
    ASCII range, so only [a-z] are mapped, to [A-Z]. *)
Definition to_upper (c : N) : N :=
  (if (97 <=? c) && (c <=? 122) then c - 32 else c)%N.

Definition ci_eq (p c : N) : bool := (to_upper p =? to_upper c)%N.

(** *** Number conversions *)

Fixpoint uint_units (u : Decimal.uint) : jsstring :=
  match u with
  | Nil => []
  | D0 u => 48%N :: uint_units u
  | D1 u => 49%N :: uint_units u
  | D2 u => 50%N :: uint_units u
  | D3 u => 51%N :: uint_units u
  | D4 u => 52%N :: uint_units u
  | D5 u => 53%N :: uint_units u
  | D6 u => 54%N :: uint_units u
  | D7 u => 55%N :: uint_units u
  | D8 u => 56%N :: uint_units u
  | D9 u => 57%N :: uint_units u
  end.

(** Template-literal interpolation [`${n}`] of a non-negative integer. *)
Definition toString (n : nat) : jsstring := uint_units (Nat.to_uint n).

(** [parseInt] on a capture of [\d+]: the decimal value of the digits. *)
Definition parseInt (ds : jsstring) : nat :=
  foldl (fun acc c => 10 * acc + (N.to_nat c - 48)) 0 ds.

(** *** Pattern pieces *)

(** A literal, case-sensitive. *)
Fixpoint strip_prefix (p s : jsstring) : option jsstring :=
  match p, s with
  | [], _ => Some s
  | a :: p', b :: s' => if (a =? b)%N then strip_prefix p' s' else None
  | _ :: _, [] => None
  end.

(** A literal under the [i] flag. *)
Fixpoint strip_prefix_ci (p s : jsstring) : option jsstring :=
  match p, s with
  | [], _ => Some s
  | a :: p', b :: s' => if ci_eq a b then strip_prefix_ci p' s' else None
  | _ :: _, [] => None
  end.

(** The longest run of characters of a class at the head of a string: what a
    greedy [c+] consumes when the next pattern item cannot start with a
    character of the class (true at every use below, so backtracking never
    finds a shorter alternative). *)
Fixpoint run (cls : N -> bool) (s : jsstring) : jsstring :=
  match s with
  | c :: s' => if cls c then c :: run cls s' else []
  | [] => []
  end.

(** A matcher tells whether a pattern matches at the very start of a string,
    and then gives the length of the match and the text of capture group 1. *)
Abbreviation matcher := (jsstring -> option (nat * jsstring)).

Definition BLANK_OPEN : jsstring := Eval vm_compute in lit "___BLANK_".
Definition BLANK_CLOSE : jsstring := Eval vm_compute in lit "___".

(** [regex = /___BLANK_(\d+)___/g] *)
Definition blank_regex : matcher := fun s =>
  match strip_prefix BLANK_OPEN s with
  | None => None
  | Some r1 =>
      let ds := run is_digit r1 in
      match ds with
      | [] => None
      | _ :: _ =>
          match strip_prefix BLANK_CLOSE (drop (length ds) r1) with
          | None => None
          | Some _ => Some (length BLANK_OPEN + length ds + length BLANK_CLOSE, ds)
          end
      end
  end.

Definition AT : jsstring := Eval vm_compute in lit "At".
Definition BLANK : jsstring := Eval vm_compute in lit "Blank".

(** The common head [At\s+Blank\s+] of the two reference patterns, under the
    [i] flag: the length consumed and the rest of the string. *)
Definition at_blank_head (s : jsstring) : option (nat * jsstring) :=
  match strip_prefix_ci AT s with
  | None => None
  | Some r1 =>
      let ws1 := run is_space r1 in
      match ws1 with
      | [] => None
      | _ :: _ =>
          match strip_prefix_ci BLANK (drop (length ws1) r1) with
          | None => None
          | Some r2 =>
              let ws2 := run is_space r2 in
              match ws2 with
              | [] => None
              | _ :: _ =>
                  Some (length AT + length ws1 + length BLANK + length ws2,
                        drop (length ws2) r2)
              end
          end
      end
  end.

(** [contextRegex = /At\s+Blank\s+(\d+)/gi] *)
Definition contextRegex : matcher := fun s =>
  match at_blank_head s with
  | None => None
  | Some (n, r) =>
      let ds := run is_digit r in
      match ds with
      | [] => None
      | _ :: _ => Some (n + length ds, ds)
      end
  end.

(** [headerRegex = new RegExp(`At\\s+Blank\\s+${originalId}`, 'gi')]: the
    number is a literal of the pattern and there is no capture group. *)
Definition headerRegex (originalId : nat) : matcher := fun s =>
  match at_blank_head s with
  | None => None
  | Some (n, r) =>
      match strip_prefix (toString originalId) r with
      | None => None
      | Some _ => Some (n + length (toString originalId), [])
      end
  end.

(** *** [RegExp.prototype.exec] with the [g] flag *)

Record rmatch := { m_index : nat; m_text : jsstring; m_group : jsstring }.

(** The forward search of one [exec] call: the first position at or after
    [pos] where the pattern matches. [s] is the input from [pos] on. *)
Fixpoint search (mt : matcher) (pos : nat) (s : jsstring) : option rmatch :=
  match mt s with
  | Some (len, g) =>
      Some {| m_index := pos; m_text := take len s; m_group := g |}
  | None =>
      match s with
      | [] => None
      | _ :: s' => search mt (S pos) s'
      end
  end.

Definition regex_exec (mt : matcher) (t : jsstring) (lastIndex : nat) : option rmatch :=
  search mt lastIndex (drop lastIndex t).

(** [while ((match = regex.exec(t)) !== null) { ... }]: each successful call
    leaves [lastIndex] just after the match. The matches found on a string
    never outnumber its characters, which bounds the iterations. *)
Fixpoint exec_loop (mt : matcher) (fuel : nat) (t : jsstring) (lastIndex : nat) : list rmatch :=
  match fuel with
  | 0 => []
  | S fuel' =>
      match regex_exec mt t lastIndex with
      | None => []
      | Some m => m :: exec_loop mt fuel' t (m_index m + length (m_text m))
      end
  end.

Definition exec_all (mt : matcher) (t : jsstring) : list rmatch :=
  exec_loop mt (S (length t)) t 0.

(** [String.prototype.replace(regex, callback)] with the [g] flag: every
    match of the original string is handed to the callback once, and the
    callback results are spliced between the unmatched stretches. *)
Fixpoint splice (t : jsstring) (f : rmatch -> jsstring) (ms : list rmatch)
    (lastIdx : nat) : jsstring :=
  match ms with
  | [] => substring_from t lastIdx
  | m :: ms' =>
      substring t lastIdx (m_index m) ++ f m
        ++ splice t f ms' (m_index m + length (m_text m))
  end.

Definition js_replace (mt : matcher) (f : rmatch -> jsstring) (t : jsstring) : jsstring :=
  splice t f (exec_all mt t) 0.

(** ** The scenario data model ([src/data/scenario.ts]) *)

(** The four fields that [generateScenario] gives to a step. *)
Record LogicStep := {
  step_id : jsstring;
  instruction : jsstring;
  expectedAnswer : jsstring;
  outputSimulation : jsstring
}.

Inductive Difficulty := Junior | Mid | Senior.

Record LogicScenario := {
  id : jsstring;
  title : jsstring;
  description : jsstring;
  difficulty : Difficulty;
  environment : jsstring;
  context : jsstring;
  codeTemplate : jsstring;
  steps : list LogicStep
}.

(** ** Post-processing of [generateScenario] *)

(** An element of [foundBlanks]. *)
Record blank := { originalId : nat; index : nat; marker : jsstring }.

(** The object pushed for a match: [parseInt(match[1])], [match.index] and
    [match[0]]. *)
Definition blank_of_match (m : rmatch) : blank :=
  {| originalId := parseInt (m_group m); index := m_index m; marker := m_text m |}.

(** The [while] loop over [regex.exec(scenario.codeTemplate)]. *)
Definition scanBlanks (t : jsstring) : list blank :=
  blank_of_match <$> exec_all blank_regex t.

(** [foundBlanks.sort((a, b) => a.index - b.index)]; [Array.prototype.sort]
    is stable. *)
Fixpoint insert_by_index (b : blank) (l : list blank) : list blank :=
  match l with
  | [] => [b]
  | x :: l' => if index b <=? index x then b :: l else x :: insert_by_index b l'
  end.

Definition sort_by_index (l : list blank) : list blank :=
  foldr insert_by_index [] l.

Definition foundBlanks (t : jsstring) : list blank :=
  sort_by_index (scanBlanks t).

(** [foundBlanks.forEach((b, i) => idMap.set(b.originalId, i + 1))], started
    at position [i]. *)
Fixpoint set_ids (bs : list blank) (i : nat) (idMap : gmap nat nat) : gmap nat nat :=
  match bs with
  | [] => idMap
  | b :: bs' => set_ids bs' (S i) (<[originalId b := i + 1]> idMap)
  end.

Definition build_idMap (bs : list blank) : gmap nat nat := set_ids bs 0 ∅.

(** [`___BLANK_${n}___`] *)
Definition newMarker (n : nat) : jsstring :=
  BLANK_OPEN ++ toString n ++ BLANK_CLOSE.

(** Step 1, the body of the [forEach] that rebuilds the template; the state
    is the pair of [rebuilt] and [lastIdx]. *)
Fixpoint rebuild_loop (t : jsstring) (bs : list blank) (i : nat)
    (rebuilt : jsstring) (lastIdx : nat) : jsstring * nat :=
  match bs with
  | [] => (rebuilt, lastIdx)
  | b :: bs' =>
      rebuild_loop t bs' (S i)
        ((rebuilt ++ substring t lastIdx (index b)) ++ newMarker (i + 1))
        (index b + length (marker b))
  end.

Definition rewriteTemplate (t : jsstring) (bs : list blank) : jsstring :=
  let '(rebuilt, lastIdx) := rebuild_loop t bs 0 [] 0 in
  rebuilt ++ substring_from t lastIdx.

Definition STEP_ : jsstring := Eval vm_compute in lit "step_".
Definition AT_BLANK_ : jsstring := Eval vm_compute in lit "At Blank ".

(** [`step_${n}`] *)
Definition stepId (n : nat) : jsstring := STEP_ ++ toString n.

(** [`At Blank ${n}`] *)
Definition atBlank (n : nat) : jsstring := AT_BLANK_ ++ toString n.

(** The fallback object of the mismatch branch. *)
Definition missingStep (n : nat) : LogicStep :=
  {| step_id := stepId n;
     instruction := lit "Missing step definition.";
     expectedAnswer := lit "???";
     outputSimulation := [] |}.

(** [steps[originalId - 1]]: [undefined] below index 0 and past the end. *)
Definition oldStep (sts : list LogicStep) (originalId : nat) : option LogicStep :=
  match originalId with
  | 0 => None
  | S oldStepIdx => sts !! oldStepIdx
  end.

(** [step.instruction.replace(headerRegex, `At Blank ${newStepIdx + 1}`)] *)
Definition rewriteInstruction (originalId newId : nat) (ins : jsstring) : jsstring :=
  js_replace (headerRegex originalId) (fun _ => atBlank newId) ins.

(** What the [forEach] of step 2 stores at [newSteps[newStepIdx]]. *)
Definition relocate (sts : list LogicStep) (b : blank) (newStepIdx : nat) : LogicStep :=
  match oldStep sts (originalId b) with
  | Some st =>
      {| step_id := stepId (newStepIdx + 1);
         instruction := rewriteInstruction (originalId b) (newStepIdx + 1) (instruction st);
         expectedAnswer := expectedAnswer st;
         outputSimulation := outputSimulation st |}
  | None => missingStep (newStepIdx + 1)
  end.

Fixpoint fill_steps (sts : list LogicStep) (bs : list blank) (i : nat)
    (newSteps : list (option LogicStep)) : list (option LogicStep) :=
  match bs with
  | [] => newSteps
  | b :: bs' => fill_steps sts bs' (S i) (<[i := Some (relocate sts b i)]> newSteps)
  end.

(** [new Array(foundBlanks.length)], the [forEach], and
    [newSteps.filter(s => !!s)]. *)
Definition remapSteps (sts : list LogicStep) (bs : list blank) : list LogicStep :=
  omap (fun s => s) (fill_steps sts bs 0 (replicate (length bs) None)).

(** The test [newId ? ... : ...] on the result of [idMap.get]: [undefined]
    and 0 are falsy. *)
Definition truthy (x : option nat) : option nat :=
  match x with
  | Some (S k) => Some (S k)
  | Some 0 | None => None
  end.

(** The callback of step 3. *)
Definition contextCallback (idMap : gmap nat nat) (m : rmatch) : jsstring :=
  match truthy (idMap !! parseInt (m_group m)) with
  | Some newId => atBlank newId
  | None => m_text m
  end.

(** Step 3: [if (scenario.context)] and the [replace]. *)
Definition rewriteContext (idMap : gmap nat nat) (ctx : jsstring) : jsstring :=
  match ctx with
  | [] => ctx
  | _ :: _ => js_replace contextRegex (contextCallback idMap) ctx
  end.

(** The whole block, from [if (scenario.codeTemplate)] to [return scenario];
    the inner [match] is [if (foundBlanks.length > 0)]. *)
Definition postProcess (sc : LogicScenario) : LogicScenario :=
  match codeTemplate sc with
  | [] => sc
  | _ :: _ =>
      let bs := foundBlanks (codeTemplate sc) in
      let idMap := build_idMap bs in
      match bs with
      | [] => sc
      | _ :: _ =>
          {| id := id sc;
             title := title sc;
             description := description sc;
             difficulty := difficulty sc;
             environment := environment sc;
             context := rewriteContext idMap (context sc);
             codeTemplate := rewriteTemplate (codeTemplate sc) bs;
             steps := remapSteps (steps sc) bs |}
      end
  end.

(** *** Assembly from the configuration and the parsed model output *)

Record AIScenarioConfig := {
  cfg_id : jsstring;
  cfg_title : jsstring;
  cfg_description : jsstring;
  cfg_difficulty : Difficulty;
  cfg_environment : jsstring
}.

(** A step of the parsed JSON; [id] may be absent. *)
Record GeneratedStep := {
  g_id : option jsstring;
  g_instruction : jsstring;
  g_expectedAnswer : jsstring;
  g_outputSimulation : jsstring
}.

Record Generated := {
  g_context : jsstring;
  g_codeTemplate : option jsstring;
  g_steps : list GeneratedStep
}.

(** [x || fallback] on a possibly absent string: the empty string is falsy. *)
Definition or_default (x : option jsstring) (fallback : jsstring) : jsstring :=
  match x with
  | Some (c :: s) => c :: s
  | _ => fallback
  end.

Definition assembleScenario (config : AIScenarioConfig) (generated : Generated) : LogicScenario :=
  {| id := cfg_id config;
     title := cfg_title config;
     description := cfg_description config;
     difficulty := cfg_difficulty config;
     environment := cfg_environment config;
     context := g_context generated;
     codeTemplate := or_default (g_codeTemplate generated) [];
     steps := imap (fun i s =>
                {| step_id := or_default (g_id s) (stepId (i + 1));
                   instruction := g_instruction s;
                   expectedAnswer := g_expectedAnswer s;
                   outputSimulation := g_outputSimulation s |})
              (g_steps generated) |}.

(** [generateScenario] after [JSON.parse]: the structure check, the assembly
    and the post-processing. [None] stands for the thrown
    "Invalid scenario structure" error. *)
Definition generateScenario (config : AIScenarioConfig) (generated : Generated) : option LogicScenario :=
  match g_context generated, g_steps generated with
  | [], _ | _, [] => None
  | _ :: _, _ :: _ => Some (postProcess (assembleScenario config generated))
  end.

(** ** The code view of [FillInBlanks] ([components/FillInBlanks.tsx]) *)

(** [String.prototype.slice(a, b)] for indices that are not negative. *)
Definition slice (s : jsstring) (a b : nat) : jsstring := take (b - a) (drop a s).

(** An element of [parts]: [{ type: 'text', content }] or
    [{ type: 'blank', content, blankIdx }]. *)
Inductive part :=
| text_part (content : jsstring)
| blank_part (content : jsstring) (blankIdx : Z).

Definition content (p : part) : jsstring :=
  match p with
  | text_part c | blank_part c _ => c
  end.

(** The body of the [while] loop over [regex.exec(template)]; the state is
    the pair of [parts] and [lastIndex]. *)
Fixpoint parts_loop (template : jsstring) (ms : list rmatch) (lastIndex : nat)
    (parts : list part) : list part * nat :=
  match ms with
  | [] => (parts, lastIndex)
  | m :: ms' =>
      let parts1 :=
        if lastIndex <? m_index m
        then parts ++ [text_part (slice template lastIndex (m_index m))]
        else parts in
      parts_loop template ms' (m_index m + length (m_text m))
        (parts1 ++ [blank_part (m_text m) (Z.of_nat (parseInt (m_group m)) - 1)])
  end.

(** The split of [renderUnifiedTemplate], for a template that is not
    empty. *)
Definition templateParts (template : jsstring) : list part :=
  let '(parts, lastIndex) := parts_loop template (exec_all blank_regex template) 0 [] in
  if lastIndex <? length template
  then parts ++ [text_part (drop lastIndex template)]
  else parts.

(** What [renderUnifiedTemplate] shows. Without a template ([!template],
    [template] being [scenario.codeTemplate || '']): one row per step, its
    input editing [answers[idx]] under the label
    [Blank {idx + 1}: {step.instruction}]. With one: the parts of the
    template, each blank part being an input that edits
    [answers[blankIdx]]. *)
Inductive codeView :=
| plain_list (rows : list (nat * jsstring))
| unified (parts : list part).

Definition renderUnifiedTemplate (scenario : LogicScenario) : codeView :=
  match codeTemplate scenario with
  | [] =>
      plain_list
        (imap (fun idx step =>
                 (idx, lit "Blank " ++ toString (idx + 1) ++ lit ": " ++ instruction step))
           (steps scenario))
  | _ :: _ => unified (templateParts (codeTemplate scenario))
  end.

(** ** JavaScript values *)

(** What [JSON.parse] and [response.json()] produce, and [undefined]. A
    number is an IEEE 754 double; an object is the list of its own
    properties, the first entry for a name being the one that is read. *)
#[warnings="-register-all"]
Inductive jsval :=
| VUndefined
| VNull
| VBool (b : bool)
| VNum (x : spec_float)
| VStr (s : jsstring)
| VArr (elems : list jsval)
| VObj (props : list (jsstring * jsval)).

(** ToBoolean. *)
Definition toBoolean (v : jsval) : bool :=
  match v with
  | VUndefined | VNull => false
  | VBool b => b
  | VNum (S754_zero _) | VNum S754_nan => false
  | VNum _ => true
  | VStr [] => false
  | VStr (_ :: _) => true
  | VArr _ | VObj _ => true
  end.

(** [a || b] *)
Definition js_or (a b : jsval) : jsval := if toBoolean a then a else b.

(** [v === 'text'] *)
Definition is_string (text : jsstring) (v : jsval) : bool :=
  match v with
  | VStr s => bool_decide (s = text)
  | _ => false
  end.

(** What a [throw] carries. The handlers below never look at the error they
    catch, so its kind is all that is kept: the [TypeError] of a property
    read on [undefined] or [null] and of a call of what is not a function,
    the [SyntaxError] of text that is not JSON, and the rejection of
    [fetch]. *)
Inductive error :=
| TypeError
| SyntaxError
| FetchError.

Abbreviation result := (sum error).

#[global] Instance result_ret : MRet result := fun _ x => inr x.
#[global] Instance result_bind : MBind result := fun _ _ f m =>
  match m with
  | inl e => inl e
  | inr x => f x
  end.

Fixpoint own_property (name : jsstring) (props : list (jsstring * jsval)) : jsval :=
  match props with
  | [] => VUndefined
  | (k, v) :: props' => if bool_decide (k = name) then v else own_property name props'
  end.

(** [v.name], for a name that no prototype defines (none of the names read
    below is a property of [Object.prototype], [Array.prototype],
    [String.prototype], [Number.prototype] or [Boolean.prototype]): a
    [TypeError] on [undefined] and [null], the own property of an object,
    [undefined] on every other value. *)
Definition get (v : jsval) (name : jsstring) : result jsval :=
  match v with
  | VUndefined | VNull => inl TypeError
  | VObj props => inr (own_property name props)
  | VBool _ | VNum _ | VStr _ | VArr _ => inr VUndefined
  end.

(** [v[0]]: the first element of an array, the first code unit of a string,
    the property named "0" of an object. *)
Definition get_0 (v : jsval) : result jsval :=
  match v with
  | VUndefined | VNull => inl TypeError
  | VArr elems => inr (default VUndefined (elems !! 0))
  | VStr s => inr (match s with c :: _ => VStr [c] | [] => VUndefined end)
  | VObj props => inr (own_property [48%N] props)
  | VBool _ | VNum _ => inr VUndefined
  end.

(** [String.prototype.trim]: the white space stripped is that of [\s]. *)
Fixpoint trimStart (s : jsstring) : jsstring :=
  match s with
  | c :: s' => if is_space c then trimStart s' else s
  | [] => []
  end.

Definition trimEnd (s : jsstring) : jsstring := reverse (trimStart (reverse s)).

Definition trim (s : jsstring) : jsstring := trimEnd (trimStart s).

(** [v.trim()]: only a string has the method. *)
Definition call_trim (v : jsval) : result jsstring :=
  match v with
  | VStr s => inr (trim s)
  | _ => inl TypeError
  end.

(** [s.startsWith(p)] *)
Definition startsWith (p s : jsstring) : bool :=
  match strip_prefix p s with
  | Some _ => true
  | None => false
  end.

(** ** Regular expressions without the [g] flag *)

(** The fragment of the pattern language that the fence patterns use. *)
Inductive regexp :=
| re_lit (l : jsstring)           (* a literal *)
| re_star (cls : N -> bool)       (* [c*], greedy *)
| re_opt (r : regexp)             (* [(?:r)?], greedy *)
| re_seq (r1 r2 : regexp)
| re_bos                          (* [^] *)
| re_eos.                         (* [$] *)

(** Backtracking matchers take the position reached, the input left and the
    continuation of the match; the result is the position where the whole
    match ends. *)
Abbreviation continuation := (nat -> jsstring -> option nat).

(** [c*]: one more character first, the continuation straight away
    second. *)
Fixpoint star (cls : N -> bool) (k : continuation) (pos : nat) (s : jsstring) : option nat :=
  match s with
  | c :: s' =>
      if cls c
      then match star cls k (S pos) s' with
           | Some e => Some e
           | None => k pos s
           end
      else k pos s
  | [] => k pos s
  end.

Fixpoint re_match (r : regexp) (k : continuation) (pos : nat) (s : jsstring) : option nat :=
  match r with
  | re_lit l =>
      match strip_prefix l s with
      | Some s' => k (pos + length l) s'
      | None => None
      end
  | re_star cls => star cls k pos s
  | re_opt r' =>
      match re_match r' k pos s with
      | Some e => Some e
      | None => k pos s
      end
  | re_seq r1 r2 => re_match r1 (re_match r2 k) pos s
  | re_bos => if pos =? 0 then k pos s else None
  | re_eos =>
      match s with
      | [] => k pos s
      | _ :: _ => None
      end
  end.

(** The first position, from [pos] on, where the pattern matches, and the
    end of that match. [s] is the input from [pos] on. *)
Fixpoint re_search (r : regexp) (pos : nat) (s : jsstring) : option (nat * nat) :=
  match re_match r (fun e _ => Some e) pos s with
  | Some e => Some (pos, e)
  | None =>
      match s with
      | [] => None
      | _ :: s' => re_search r (S pos) s'
      end
  end.

(** [s.replace(r, '')] for a pattern without the [g] flag: the first match
    is cut out. *)
Definition replace_first (r : regexp) (s : jsstring) : jsstring :=
  match re_search r 0 s with
  | Some (p, e) => take p s ++ drop e s
  | None => s
  end.

(** ** Markdown fences around the reply of the model *)

Definition FENCE : jsstring := [96; 96; 96]%N.
Definition JSON : jsstring := Eval vm_compute in lit "json".
Definition LF : jsstring := [10]%N.

(** [/^```(?:json)?\s*/] *)
Definition fenceOpen : regexp :=
  re_seq re_bos (re_seq (re_lit FENCE) (re_seq (re_opt (re_lit JSON)) (re_star is_space))).

(** [/\s*```$/] *)
Definition fenceClose : regexp :=
  re_seq (re_star is_space) (re_seq (re_lit FENCE) re_eos).

(** [/^```(?:json)?\s*\n?/] *)
Definition fenceOpenLine : regexp :=
  re_seq re_bos
    (re_seq (re_lit FENCE)
       (re_seq (re_opt (re_lit JSON)) (re_seq (re_star is_space) (re_opt (re_lit LF))))).

(** [/\n?\s*```$/] *)
Definition fenceCloseLine : regexp :=
  re_seq (re_opt (re_lit LF)) (re_seq (re_star is_space) (re_seq (re_lit FENCE) re_eos)).

(** [validateAnswer]: [cleaned], from [raw]. *)
Definition cleanedAnswer (raw : jsstring) : jsstring :=
  if startsWith FENCE raw
  then replace_first fenceClose (replace_first fenceOpen raw)
  else raw.

(** [generateScenario]: [cleaned], from [data.choices[0].message.content]. *)
Definition cleanedScenario (content : jsstring) : jsstring :=
  let raw := trim content in
  let raw :=
    if startsWith FENCE raw
    then replace_first fenceCloseLine (replace_first fenceOpenLine raw)
    else raw in
  trim raw.

(** ** Requests to the completion service *)

Inductive Role := user | assistant | system.

Module ChatMessage.
Record t := { role : Role; content : jsstring }.
End ChatMessage.

(** The arguments of a [fetch] call; the numeric literal of the temperature
    is kept as it is written. *)
Record request := {
  url : jsstring;
  authorization : jsstring;
  referer : jsstring;
  x_title : jsstring;
  model : jsstring;
  messages : list ChatMessage.t;
  temperature : jsstring;
  max_tokens : nat
}.

(** What comes back from [await fetch(...)] followed by
    [await response.json()]: [fetch] rejects, the body is not JSON, or the
    body parsed. The status code is never looked at. *)
Inductive reply :=
| rejected
| not_json
| json_body (data : jsval).

(** A computation that may call the service and may throw. *)
Inductive io (R : Type) : Type :=
| Ret (r : R)
| Throw (e : error)
| Fetch (req : request) (k : reply -> io R).
Arguments Ret {R} r.
Arguments Throw {R} e.
Arguments Fetch {R} req k.

Fixpoint io_bind {A B} (f : A -> io B) (m : io A) : io B :=
  match m with
  | Ret r => f r
  | Throw e => Throw e
  | Fetch req k => Fetch req (fun r => io_bind f (k r))
  end.

#[global] Instance io_ret : MRet io := fun _ x => Ret x.
#[global] Instance io_mbind : MBind io := fun _ _ f m => io_bind f m.

(** [try { p } catch (error) { h }] *)
Fixpoint try_catch {R} (p : io R) (h : error -> io R) : io R :=
  match p with
  | Ret r => Ret r
  | Throw e => h e
  | Fetch req k => Fetch req (fun r => try_catch (k r) h)
  end.

Definition of_result {R} (x : result R) : io R :=
  match x with
  | inl e => Throw e
  | inr r => Ret r
  end.

(** [const data = await response.json()] after the [fetch]. *)
Definition fetch_json (req : request) : io jsval :=
  Fetch req (fun r =>
    match r with
    | rejected => Throw FetchError
    | not_json => Throw SyntaxError
    | json_body data => Ret data
    end).

(** An environment answers each request, knowing the ones sent before. *)
Abbreviation network := (list request -> reply).

(** Running a computation: the requests sent, in order, and the outcome. *)
Fixpoint exec {R} (net : network) (sent : list request) (p : io R)
    : list request * result R :=
  match p with
  | Ret r => (sent, inr r)
  | Throw e => (sent, inl e)
  | Fetch req k => exec net (sent ++ [req]) (k (net (sent ++ [req])))
  end.

Definition dq : jsstring := [34]%N.
Definition nl : jsstring := [10]%N.

Definition ENDPOINT : jsstring :=
  Eval vm_compute in lit "https://openrouter.ai/api/v1/chat/completions".
Definition SITE_URL : jsstring := Eval vm_compute in lit "http://localhost:5173".
Definition MODEL : jsstring := Eval vm_compute in lit "google/gemini-2.0-flash-001".

Module ValidationResult.
Record t := {
  correct : bool;
  status : jsval;
  feedback : jsval;
  correctedCommand : jsval
}.
End ValidationResult.

Section Service.
(** [import.meta.env.VITE_OPENROUTER_API_KEY], a string or [undefined]. *)
Variable API_KEY : option jsstring.
(** [JSON.parse]; [None] is the [SyntaxError] it throws. *)
Variable JSON_parse : jsstring -> option jsval.

(** [!API_KEY] *)
Definition no_key : bool :=
  match API_KEY with
  | Some (_ :: _) => false
  | Some [] | None => true
  end.

(** [`Bearer ${API_KEY}`] *)
Definition bearer : jsstring :=
  lit "Bearer " ++ match API_KEY with
                   | Some k => k
                   | None => lit "undefined"
                   end.

(** *** [sendMessageToAI] *)

(** [{ role: 'assistant', content }] *)
Definition assistantMessage (content : jsstring) : jsval :=
  VObj [(lit "role", VStr (lit "assistant")); (lit "content", VStr content)].

Definition interviewerPrompt (scenario : LogicScenario) : jsstring :=
  nl
  ++ lit "You are a Senior Technical Interviewer for " ++ dq ++ lit "ConAssess" ++ dq ++ lit ", an AI-powered assessment platform." ++ nl
  ++ lit "Current Scenario: " ++ dq ++ title scenario ++ dq ++ nl
  ++ lit "Topic Area: " ++ environment scenario ++ nl
  ++ nl
  ++ lit "Your Role:" ++ nl
  ++ lit "1. You are the " ++ dq ++ lit "Interviewer" ++ dq ++ lit ". The user is the " ++ dq ++ lit "Candidate" ++ dq ++ lit " answering questions." ++ nl
  ++ lit "2. Guide the user through the assessment steps one at a time." ++ nl
  ++ lit "3. Be professional, concise, and encourage best practices." ++ nl
  ++ lit "4. Do NOT give away the answer immediately. If the user is stuck, provide hints." ++ nl
  ++ lit "5. If the user successfully completes a step (indicated by a SYSTEM_EVENT), introduce the NEXT step." ++ nl
  ++ lit "6. Adapt your language to the topic " ++ [8212]%N ++ lit " use domain-appropriate terminology." ++ nl.

Definition systemContent (scenario : LogicScenario) (currentStepIndex : nat) : jsstring :=
  interviewerPrompt scenario
  ++ match steps scenario !! currentStepIndex with
     | Some currentStep =>
         nl ++ lit "CURRENT OBJECTIVE (Hidden from user): " ++ instruction currentStep
     | None =>
         nl ++ lit "CURRENT OBJECTIVE: The assessment is complete. Congratulate the user."
     end.

Definition interviewerRequest (payloadMessages : list ChatMessage.t) : request :=
  {| url := ENDPOINT;
     authorization := bearer;
     referer := SITE_URL;
     x_title := lit "ConAssess LogicBox";
     model := MODEL;
     messages := payloadMessages;
     temperature := lit "0.7";
     max_tokens := 150 |}.

(** The body of the [try] after [await response.json()]. *)
Definition interviewerReply (data : jsval) : result jsval :=
  err ← get data (lit "error");
  if toBoolean err
  then mret (assistantMessage (lit "I'm having trouble connecting to the interview server."))
  else
    choices ← get data (lit "choices");
    choice ← get_0 choices;
    get choice (lit "message").

Definition sendMessageToAI (messages : list ChatMessage.t) (scenario : LogicScenario)
    (currentStepIndex : nat) : io jsval :=
  if no_key
  then Ret (assistantMessage (lit "Error: API Key is missing in .env file."))
  else
    let payloadMessages :=
      {| ChatMessage.role := system;
         ChatMessage.content := systemContent scenario currentStepIndex |}
        :: messages in
    try_catch
      (data ← fetch_json (interviewerRequest payloadMessages);
       of_result (interviewerReply data))
      (fun _ => Ret (assistantMessage (lit "Connection failed."))).

(** *** [validateAnswer] *)

(** [{ correct: false, status: 'incorrect', feedback }] *)
Definition notValidated (feedback : jsstring) : ValidationResult.t :=
  {| ValidationResult.correct := false;
     ValidationResult.status := VStr (lit "incorrect");
     ValidationResult.feedback := VStr feedback;
     ValidationResult.correctedCommand := VUndefined |}.

Definition validatorPrompt (step : LogicStep) (scenario : LogicScenario) : jsstring :=
  lit "You are an answer validator for a technical assessment platform called " ++ dq ++ lit "ConAssess" ++ dq ++ lit "." ++ nl
  ++ lit "Scenario: " ++ dq ++ title scenario ++ dq ++ nl
  ++ lit "Topic: " ++ environment scenario ++ nl
  ++ nl
  ++ lit "CURRENT STEP INSTRUCTION: " ++ instruction step ++ nl
  ++ lit "EXPECTED ANSWER: " ++ expectedAnswer step ++ nl
  ++ nl
  ++ lit "The user will provide their answer. Evaluate it using THREE-TIER grading:" ++ nl
  ++ nl
  ++ lit "1. " ++ dq ++ lit "correct" ++ dq ++ lit " " ++ [8212]%N ++ lit " The answer is functionally correct and demonstrates full understanding" ++ nl
  ++ lit "2. " ++ dq ++ lit "partially_correct" ++ dq ++ lit " " ++ [8212]%N ++ lit " The answer shows the right idea or direction but is incomplete, has minor syntax errors, or is missing key details" ++ nl
  ++ lit "3. " ++ dq ++ lit "incorrect" ++ dq ++ lit " " ++ [8212]%N ++ lit " The answer is fundamentally wrong or unrelated" ++ nl
  ++ nl
  ++ lit "IMPORTANT: The user may be using VOICE INPUT (speech-to-text), so interpret spoken input generously:" ++ nl
  ++ lit "- Spoken dashes, dots, slashes should be interpreted as syntax characters" ++ nl
  ++ lit "- Natural language descriptions should be mapped to proper syntax" ++ nl
  ++ lit "- " ++ dq ++ lit "dash" ++ dq ++ lit " " ++ [8594]%N ++ lit " " ++ dq ++ lit "-" ++ dq ++ lit ", " ++ dq ++ lit "dot" ++ dq ++ lit " " ++ [8594]%N ++ lit " " ++ dq ++ lit "." ++ dq ++ lit ", " ++ dq ++ lit "slash" ++ dq ++ lit " " ++ [8594]%N ++ lit " " ++ dq ++ lit "/" ++ dq ++ lit ", " ++ dq ++ lit "equals" ++ dq ++ lit " " ++ [8594]%N ++ lit " " ++ dq ++ lit "=" ++ dq ++ nl
  ++ nl
  ++ lit "For typed input, also accept equivalent variations:" ++ nl
  ++ lit "- Different but equivalent syntax (e.g. shorthand flags vs long flags)" ++ nl
  ++ lit "- Minor case differences where the language/tool is case-insensitive" ++ nl
  ++ lit "- Equivalent logic expressed differently" ++ nl
  ++ nl
  ++ lit "Respond ONLY with a JSON object (no markdown, no code fences):" ++ nl
  ++ lit "{" ++ dq ++ lit "status" ++ dq ++ lit ": " ++ dq ++ lit "correct" ++ dq ++ lit "|" ++ dq ++ lit "partially_correct" ++ dq ++ lit "|" ++ dq ++ lit "incorrect" ++ dq ++ lit ", " ++ dq ++ lit "feedback" ++ dq ++ lit ": " ++ dq ++ lit "brief explanation" ++ dq ++ lit ", " ++ dq ++ lit "correctedAnswer" ++ dq ++ lit ": " ++ dq ++ lit "properly formatted answer or null" ++ dq ++ lit "}" ++ nl
  ++ nl
  ++ lit "Rules:" ++ nl
  ++ lit "- " ++ dq ++ lit "correct" ++ dq ++ lit ": feedback should be encouraging (1 sentence). Set correctedAnswer to the properly formatted version." ++ nl
  ++ lit "- " ++ dq ++ lit "partially_correct" ++ dq ++ lit ": feedback should acknowledge what was right and briefly note what was missing/wrong. Set correctedAnswer to the proper version." ++ nl
  ++ lit "- " ++ dq ++ lit "incorrect" ++ dq ++ lit ": feedback should explain WHY it's wrong (1-2 sentences). Set correctedAnswer to null." ++ nl
  ++ lit "- This is a TEST " ++ [8212]%N ++ lit " do NOT give hints or reveal the full answer. Just grade and give brief feedback." ++ nl
  ++ lit "- Be LENIENT with formatting/punctuation " ++ [8212]%N ++ lit " focus on whether the user knows the RIGHT CONCEPT.".

Definition validatorRequest (userAnswer : jsstring) (step : LogicStep)
    (scenario : LogicScenario) : request :=
  {| url := ENDPOINT;
     authorization := bearer;
     referer := SITE_URL;
     x_title := lit "ConAssess LogicBox Validator";
     model := MODEL;
     messages :=
       [ {| ChatMessage.role := system;
            ChatMessage.content := validatorPrompt step scenario |};
         {| ChatMessage.role := user; ChatMessage.content := userAnswer |} ];
     temperature := lit "0.1";
     max_tokens := 200 |}.

(** From [const result = JSON.parse(cleaned)] to the [return]. *)
Definition gradeOf (parsed : jsval) : result ValidationResult.t :=
  declared ← get parsed (lit "status");
  status ← (if toBoolean declared
            then mret declared
            else
              flag ← get parsed (lit "correct");
              mret (VStr (if toBoolean flag then lit "correct" else lit "incorrect")));
  feedback ← get parsed (lit "feedback");
  correctedAnswer ← get parsed (lit "correctedAnswer");
  corrected ← (if toBoolean correctedAnswer
               then mret correctedAnswer
               else
                 correctedCommand ← get parsed (lit "correctedCommand");
                 mret (js_or correctedCommand VUndefined));
  mret {| ValidationResult.correct := is_string (lit "correct") status;
          ValidationResult.status := status;
          ValidationResult.feedback := js_or feedback (VStr []);
          ValidationResult.correctedCommand := corrected |}.

(** The body of the [try] after [await response.json()]. *)
Definition validatorReply (data : jsval) : result ValidationResult.t :=
  err ← get data (lit "error");
  if toBoolean err
  then mret (notValidated (lit "Validation service unavailable. Please try again."))
  else
    choices ← get data (lit "choices");
    choice ← get_0 choices;
    message ← get choice (lit "message");
    content ← get message (lit "content");
    raw ← call_trim content;
    match JSON_parse (cleanedAnswer raw) with
    | None => inl SyntaxError
    | Some parsed => gradeOf parsed
    end.

Definition validateAnswer (userAnswer : jsstring) (step : LogicStep)
    (scenario : LogicScenario) : io ValidationResult.t :=
  if no_key
  then Ret (notValidated (lit "Error: API Key is missing."))
  else
    try_catch
      (data ← fetch_json (validatorRequest userAnswer step scenario);
       of_result (validatorReply data))
      (fun _ => Ret (notValidated (lit "Could not validate your answer. Please try again."))).

End Service.

(** ** Submitting the answers ([handleSubmitAll] of [FillInBlanks]) *)

Module StepResult.
Record t := {
  stepIndex : nat;
  instruction : jsstring;
  userAnswer : jsstring;
  expectedAnswer : jsstring;
  correct : bool;
  status : jsval;
  feedback : jsval;
  timeTakenMs : spec_float
}.
End StepResult.

Module BlankFeedback.
Record t := { status : jsval; feedback : jsval }.
End BlankFeedback.

(** [a[idx] = val] on the copy [a = [...prev]] of the state [answers]: an
    element of the list is [None] where the array holds [undefined]. An
    index within the array replaces an element and one past its end extends
    the array. A number that is not an array index, a negative one or one
    from 2^32 - 1 on, only adds a property to the copy: the length and the
    elements stay, and the next copy drops the property. *)
Definition updateAnswer (prev : list (option jsstring)) (idx : Z) (val : jsstring)
    : list (option jsstring) :=
  if ((idx <? 0) || (4294967295 <=? idx))%Z then prev
  else
    let i := Z.to_nat idx in
    if i <? length prev
    then <[i := Some val]> prev
    else prev ++ replicate (i - length prev) None ++ [Some val].

(** [Array(totalBlanks).fill('')], the first state. *)
Definition initialAnswers (scenario : LogicScenario) : list (option jsstring) :=
  replicate (length (steps scenario)) (Some []).

Section Submit.
Variable API_KEY : option jsstring.
Variable JSON_parse : jsstring -> option jsval.
Variable scenario : LogicScenario.
(** The state [answers]. *)
Variable answers : list (option jsstring).
(** [Math.round(elapsed / totalBlanks)], computed from the clock before the
    loop starts. *)
Variable perStep : spec_float.

(** What one turn of the [for] loop pushes on [results] and on [fbs], [ans]
    being [answers[i].trim()]. *)
Definition evaluate (i : nat) (step : LogicStep) (ans : jsstring)
    : io (StepResult.t * BlankFeedback.t) :=
  match ans with
  | [] =>
      Ret ({| StepResult.stepIndex := i;
              StepResult.instruction := instruction step;
              StepResult.userAnswer := lit "(no answer)";
              StepResult.expectedAnswer := expectedAnswer step;
              StepResult.correct := false;
              StepResult.status := VStr (lit "incorrect");
              StepResult.feedback := VStr (lit "No answer provided.");
              StepResult.timeTakenMs := perStep |},
           {| BlankFeedback.status := VStr (lit "incorrect");
              BlankFeedback.feedback := VStr (lit "No answer provided.") |})
  | _ :: _ =>
      try_catch
        (v ← validateAnswer API_KEY JSON_parse ans step scenario;
         Ret ({| StepResult.stepIndex := i;
                 StepResult.instruction := instruction step;
                 StepResult.userAnswer := ans;
                 StepResult.expectedAnswer := expectedAnswer step;
                 StepResult.correct := ValidationResult.correct v;
                 StepResult.status := ValidationResult.status v;
                 StepResult.feedback := ValidationResult.feedback v;
                 StepResult.timeTakenMs := perStep |},
              {| BlankFeedback.status := ValidationResult.status v;
                 BlankFeedback.feedback := ValidationResult.feedback v |}))
        (fun _ =>
           Ret ({| StepResult.stepIndex := i;
                   StepResult.instruction := instruction step;
                   StepResult.userAnswer := ans;
                   StepResult.expectedAnswer := expectedAnswer step;
                   StepResult.correct := false;
                   StepResult.status := VStr (lit "incorrect");
                   StepResult.feedback := VStr (lit "Evaluation failed.");
                   StepResult.timeTakenMs := perStep |},
                {| BlankFeedback.status := VStr (lit "incorrect");
                   BlankFeedback.feedback := VStr (lit "Evaluation failed.") |}))
  end.

(** [for (let i = 0; i < totalBlanks; i++)], with [todo] turns left. Reading
    a property of [undefined] throws: [answers[i].trim()] when the answer is
    missing, [step.instruction] when the step is. *)
Fixpoint submit_loop (todo i : nat) (results : list StepResult.t)
    (fbs : list BlankFeedback.t) : io (list StepResult.t * list BlankFeedback.t) :=
  match todo with
  | 0 => Ret (results, fbs)
  | S todo' =>
      match steps scenario !! i, answers !! i with
      | Some step, Some (Some answer) =>
          pushed ← evaluate i step (trim answer);
          submit_loop todo' (S i) (results ++ [pushed.1]) (fbs ++ [pushed.2])
      | _, _ => Throw TypeError
      end
  end.

(** The lists handed to [setStepResults] and [setFeedbacks]. *)
Definition handleSubmitAll : io (list StepResult.t * list BlankFeedback.t) :=
  submit_loop (length (steps scenario)) 0 [] [].

End Submit.

(** * Vocabulary of the properties *)

(** ** Cutting a string at the matches of a pattern *)

(** One match together with the unmatched stretch in front of it. *)
Record chunk := { c_gap : jsstring; c_text : jsstring; c_group : jsstring }.

(** [quiet mt g A]: the pattern matches nowhere in [g ++ A] at a position
    inside [g]. *)
Definition quiet (mt : matcher) (g A : jsstring) : Prop :=
  forall g1 g2, g = g1 ++ g2 -> g2 <> [] -> mt (g2 ++ A) = None.

(** [silent mt s]: the pattern matches nowhere in [s]. *)
Definition silent (mt : matcher) (s : jsstring) : Prop :=
  forall s1 s2, s = s1 ++ s2 -> mt s2 = None.

(** [Parse mt s cs tl]: [s] is cut, from left to right, into the chunks [cs]
    followed by [tl]; every chunk ends with the first match found after
    the previous one, and [tl] holds no further match. *)
Inductive Parse (mt : matcher) : jsstring -> list chunk -> jsstring -> Prop :=
| Parse_nil tl :
    silent mt tl -> Parse mt tl [] tl
| Parse_cons gap w g rest cs tl :
    quiet mt gap (w ++ rest) ->
    mt (w ++ rest) = Some (length w, g) ->
    w <> [] ->
    Parse mt rest cs tl ->
    Parse mt (gap ++ w ++ rest)
          ({| c_gap := gap; c_text := w; c_group := g |} :: cs) tl.

(** The matches of a parse, located from position [pos] on. *)
Fixpoint located (pos : nat) (cs : list chunk) : list rmatch :=
  match cs with
  | [] => []
  | c :: cs' =>
      {| m_index := pos + length (c_gap c); m_text := c_text c;
         m_group := c_group c |}
        :: located (pos + length (c_gap c) + length (c_text c)) cs'
  end.

(** The string read back from a parse, each match displayed by [f]. *)
Fixpoint render (f : chunk -> jsstring) (cs : list chunk) (tl : jsstring) : jsstring :=
  match cs with
  | [] => tl
  | c :: cs' => c_gap c ++ f c ++ render f cs' tl
  end.

Definition as_match (c : chunk) : rmatch :=
  {| m_index := 0; m_text := c_text c; m_group := c_group c |}.

(** A matcher never reports an empty match nor one longer than its input. *)
Definition sound_matcher (mt : matcher) : Prop :=
  forall s len g, mt s = Some (len, g) -> 0 < len <= length s.

(** ** The shape of markers and references *)

(** [ci_word p w]: [w] is [p] up to the case of its ASCII letters. *)
Definition ci_word (p w : jsstring) : Prop :=
  Forall2 (fun a b => ci_eq a b = true) p w.

(** [stops cls r]: a run of [cls] cannot go on into [r]. *)
Definition stops (cls : N -> bool) (r : jsstring) : Prop :=
  match r with
  | [] => True
  | c :: _ => cls c = false
  end.

Definition digits (ds : jsstring) : Prop :=
  ds <> [] /\ Forall (fun c => is_digit c = true) ds.

(** The text of a marker with the given digits. *)
Definition marker_text (ds : jsstring) : jsstring :=
  BLANK_OPEN ++ ds ++ BLANK_CLOSE.

Definition OPEN4 : jsstring := [95; 95; 95; 66]%N.
Definition OPEN_REST : jsstring := [76; 65; 78; 75; 95]%N.

Definition spaces (ws : jsstring) : Prop :=
  ws <> [] /\ Forall (fun c => is_space c = true) ws.

(** The letters of the two reference patterns. *)
Definition is_A (c : N) : bool := ci_eq 65 c.
Definition is_T (c : N) : bool := ci_eq 116 c.

(** [at_blank_prefix h]: [h] reads "At", white space, "Blank", white space,
    in any letter case. *)
Definition at_blank_prefix (h : jsstring) : Prop :=
  exists a ws1 b ws2,
    h = a ++ ws1 ++ b ++ ws2
    /\ ci_word AT a /\ spaces ws1 /\ ci_word BLANK b /\ spaces ws2.

(** [reference ds w]: [w] is a reference to the blank written [ds]. *)
Definition reference (ds w : jsstring) : Prop :=
  exists h, at_blank_prefix h /\ w = h ++ ds.

(** [reference_free P s]: no substring of [s] is a reference to a blank whose
    digits satisfy [P]. *)
Definition reference_free (P : jsstring -> Prop) (s : jsstring) : Prop :=
  forall u w v ds, s = u ++ w ++ v -> P ds -> ~ reference ds w.

(** Does "at" (in any case) occur somewhere in a string? *)
Fixpoint has_at (l : jsstring) : bool :=
  match l with
  | [] => false
  | x :: l' =>
      is_A x && match l' with y :: _ => is_T y | [] => false end || has_at l'
  end.

(** ** Reading an assembled scenario *)

(** The chunks of a template after renumbering from [i + 1] on. *)
Fixpoint renumber (i : nat) (cs : list chunk) : list chunk :=
  match cs with
  | [] => []
  | c :: cs' =>
      {| c_gap := c_gap c; c_text := newMarker (i + 1); c_group := toString (i + 1) |}
        :: renumber (S i) cs'
  end.


Definition remap_chunk (idMap : gmap nat nat) (c : chunk) : chunk :=
  {| c_gap := c_gap c;
     c_text := contextCallback idMap (as_match c);
     c_group := match truthy (idMap !! parseInt (c_group c)) with
                | Some newId => toString newId
                | None => c_group c
                end |}.

(** The numbers that the references of a text name, from left to right. *)
Definition blankRefs (s : jsstring) : list nat :=
  (fun m => parseInt (m_group m)) <$> exec_all contextRegex s.

(** [t.replace(/___BLANK_(\d+)___/g, '')]: the template without its
    markers. *)
Definition stripMarkers (t : jsstring) : jsstring :=
  js_replace blank_regex (fun _ => []) t.


(** ** Scenarios in normal form *)

(** The markers read ___BLANK_1___, ___BLANK_2___, ... from left to right. *)
Definition canonical_markers (t : jsstring) : Prop :=
  marker <$> foundBlanks t = newMarker <$> seq 1 (length (foundBlanks t)).

(** The steps are labelled step_1, step_2, ..., step_n. *)
Definition canonical_steps (n : nat) (sts : list LogicStep) : Prop :=
  step_id <$> sts = stepId <$> seq 1 n.

(** Every reference of the context to one of the blanks 1..n is written
    "At Blank " followed by the number. *)
Definition plain_context (n : nat) (ctx : jsstring) : Prop :=
  Forall (fun m => 1 <= parseInt (m_group m) <= n ->
                   m_text m = atBlank (parseInt (m_group m)))
         (exec_all contextRegex ctx).

(** Every reference of a step to its own blank is written "At Blank "
    followed by the number. *)
Definition plain_instructions (sts : list LogicStep) : Prop :=
  forall i st, sts !! i = Some st ->
    Forall (fun m => m_text m = atBlank (i + 1))
           (exec_all (headerRegex (i + 1)) (instruction st)).

(** Wherever "At", white space, "Blank", white space can be read in [s], in
    any letter case, it is written "At Blank ". *)
Definition plain_heads (s : jsstring) : Prop :=
  forall u r n r', s = u ++ r -> at_blank_head r = Some (n, r') ->
    take n r = AT_BLANK_.

(** The same, as a check that runs. *)
Fixpoint plain_headsb (s : jsstring) : bool :=
  match at_blank_head s with
  | Some (n, _) => bool_decide (take n s = AT_BLANK_)
  | None => true
  end
  && match s with
     | [] => true
     | _ :: s' => plain_headsb s'
     end.

Definition normalized (sc : LogicScenario) : Prop :=
  canonical_markers (codeTemplate sc)
  /\ canonical_steps (length (foundBlanks (codeTemplate sc))) (steps sc)
  /\ plain_context (length (foundBlanks (codeTemplate sc))) (context sc)
  /\ plain_instructions (steps sc).

(** ** The claims read to the letter *)




(** [/Blank\s+<d>/i] and the rewrite of an instruction as the specification
    words it. *)
Definition worded_header_regex (d : nat) : matcher := fun s =>
  match strip_prefix_ci BLANK s with
  | None => None
  | Some r =>
      let ws := run is_space r in
      match ws with
      | [] => None
      | _ :: _ =>
          match strip_prefix (toString d) (drop (length ws) r) with
          | None => None
          | Some _ => Some (length BLANK + length ws + length (toString d), [])
          end
      end
  end.

Definition wordedInstruction (d c : nat) (ins : jsstring) : jsstring :=
  js_replace (worded_header_regex d) (fun _ => lit "Blank " ++ toString c) ins.

(** ** Example scenarios *)

Definition mkStep (i ins ans : string) : LogicStep :=
  {| step_id := lit i; instruction := lit ins; expectedAnswer := lit ans;
     outputSimulation := [] |}.

Definition mkScenario (ctx tpl : string) (sts : list LogicStep) : LogicScenario :=
  {| id := lit "s"; title := lit "t"; description := lit "d"; difficulty := Mid;
     environment := lit "e"; context := lit ctx; codeTemplate := lit tpl;
     steps := sts |}.

Definition swap_example : LogicScenario :=
  mkScenario "See Blank 1 and Blank 2." "A ___BLANK_2___ B ___BLANK_1___ C"
    [mkStep "step_1" "At Blank 1: first" "a1"; mkStep "step_2" "At Blank 2: second" "a2"].

Definition at_example : LogicScenario :=
  mkScenario "See At Blank 1 and at  blank 2, not At Blank 7."
    "A ___BLANK_2___ B ___BLANK_1___ C"
    [mkStep "step_1" "At Blank 1: first" "a1";
     mkStep "step_2" "at blank 2: second" "a2"].

Definition scrambled_example : LogicScenario :=
  mkScenario "Intro. At Blank 1: one. At Blank 2: two. At Blank 3: three."
    "a ___BLANK_3___ b ___BLANK_1___ c ___BLANK_2___ d"
    [mkStep "step_1" "At Blank 1: one" "a1";
     mkStep "step_2" "At Blank 2: two" "a2";
     mkStep "step_3" "At Blank 3: three" "a3"].

Definition short_example : LogicScenario :=
  mkScenario "Intro."
    "x ___BLANK_1___ y ___BLANK_2___ z ___BLANK_3___"
    [mkStep "step_1" "At Blank 1: one" "a1";
     mkStep "step_2" "At Blank 2: two" "a2"].


Definition plain_example : LogicScenario :=
  mkScenario "Intro." "___BLANK_2___ ___BLANK_1___"
    [mkStep "step_1" "Fill Blank 1 now" "a1";
     mkStep "step_2" "Fill Blank 2 now" "a2"].

(** A well-formed input whose only step is labelled "intro". *)
Definition named_example : LogicScenario :=
  mkScenario "At Blank 1: q" "x ___BLANK_1___ y" [mkStep "intro" "At Blank 1: q" "a"].

(** A well-formed input whose marker is written with a leading zero. *)
Definition padded_example : LogicScenario :=
  mkScenario "Intro." "x ___BLANK_01___ y" [mkStep "step_1" "At Blank 1: q" "a"].

(** A well-formed input whose context spells its reference in lower case. *)
Definition lower_example : LogicScenario :=
  mkScenario "see at blank 1" "x ___BLANK_1___ y" [mkStep "step_1" "At Blank 1: q" "a"].

(** A scenario whose template holds no marker. *)
Definition bare_example : LogicScenario :=
  mkScenario "Intro. At Blank 1: q" "x = 1" [mkStep "intro" "at blank 1: q" "a"].

(** A step that mentions another blank in lower case. *)
Definition twice_example : LogicScenario :=
  mkScenario "Intro." "___BLANK_2___ ___BLANK_1___"
    [mkStep "step_1" "x" "a1"; mkStep "step_2" "as at blank 1" "a2"].

(** ** Reading the code view *)

(** The blank parts, from left to right, and the text parts. *)
Definition blanks_of (ps : list part) : list (jsstring * Z) :=
  omap (fun p => match p with
                 | blank_part c i => Some (c, i)
                 | text_part _ => None
                 end) ps.


(** The element of [answers] that each input of the view edits, in display
    order. *)
Definition inputs (v : codeView) : list Z :=
  match v with
  | plain_list rows => (fun row => Z.of_nat row.1) <$> rows
  | unified parts => (blanks_of parts).*2
  end.

(** The parts that a parse of the template stands for: each match with the
    text in front of it, when there is some, and the text after the last
    match. *)
Definition parts_of_chunk (c : chunk) : list part :=
  match c_gap c with
  | [] => []
  | _ :: _ => [text_part (c_gap c)]
  end ++ [blank_part (c_text c) (Z.of_nat (parseInt (c_group c)) - 1)].

Definition parts_of (cs : list chunk) (tl : jsstring) : list part :=
  (cs ≫= parts_of_chunk)
  ++ match tl with
     | [] => []
     | _ :: _ => [text_part tl]
     end.

(** ** Reading the replies of the service *)

(** The continuation that ends a match. *)
Definition final : continuation := fun e _ => Some e.

(** No white space at either end. *)
Definition trimmed (s : jsstring) : Prop :=
  stops is_space s /\ stops is_space (reverse s).

(** [closes s]: [s] is white space followed by a fence and nothing else. *)
Definition closes (s : jsstring) : Prop :=
  drop (length (run is_space s)) s = FENCE.

(** What follows the language tag of an opening fence, if there is one. *)
Definition afterTag (r : jsstring) : jsstring :=
  match strip_prefix JSON r with
  | Some r' => r'
  | None => r
  end.

(** [holds answers strs]: the state [answers] starts with the strings
    [strs]. *)
Definition holds (answers : list (option jsstring)) (strs : list jsstring) : Prop :=
  take (length strs) answers = Some <$> strs.

(** The request that an answer causes, if any: a blank answer causes none. *)
Definition answerRequest (API_KEY : option jsstring) (scenario : LogicScenario)
    (sa : LogicStep * jsstring) : option request :=
  match trim sa.2 with
  | [] => None
  | _ :: _ => Some (validatorRequest API_KEY (trim sa.2) sa.1 scenario)
  end.

(** What the entry pushed for step [i] records. *)
Definition recorded (API_KEY : option jsstring) (perStep : spec_float) (i : nat)
    (step : LogicStep) (answer : jsstring) (r : StepResult.t) (fb : BlankFeedback.t)
    : Prop :=
  StepResult.stepIndex r = i
  /\ StepResult.instruction r = instruction step
  /\ StepResult.expectedAnswer r = expectedAnswer step
  /\ StepResult.timeTakenMs r = perStep
  /\ BlankFeedback.status fb = StepResult.status r
  /\ BlankFeedback.feedback fb = StepResult.feedback r
  /\ StepResult.correct r = is_string (lit "correct") (StepResult.status r)
  /\ match trim answer with
     | [] =>
         StepResult.userAnswer r = lit "(no answer)"
         /\ StepResult.status r = VStr (lit "incorrect")
         /\ StepResult.feedback r = VStr (lit "No answer provided.")
     | _ :: _ =>
         StepResult.userAnswer r = trim answer
         /\ (no_key API_KEY = true ->
             StepResult.status r = VStr (lit "incorrect")
             /\ StepResult.feedback r = VStr (lit "Error: API Key is missing."))
     end.

(** ** Example replies and configurations *)

Definition example_config : AIScenarioConfig :=
  {| cfg_id := lit "ai-docker";
     cfg_title := lit "Docker Basics";
     cfg_description := lit "Fill in a Dockerfile.";
     cfg_difficulty := Mid;
     cfg_environment := lit "Docker" |}.

(** The model output that [scrambled_example] is assembled from. *)
Definition scrambled_generated : Generated :=
  {| g_context := context scrambled_example;
     g_codeTemplate := Some (codeTemplate scrambled_example);
     g_steps :=
       (fun st => {| g_id := None;
                     g_instruction := instruction st;
                     g_expectedAnswer := expectedAnswer st;
                     g_outputSimulation := outputSimulation st |})
         <$> steps scrambled_example |}.

(** A model output whose template holds no marker. *)
Definition bare_generated : Generated :=
  {| g_context := lit "Intro. At Blank 1: q";
     g_codeTemplate := Some (lit "x = 1");
     g_steps :=
       [{| g_id := Some (lit "intro");
           g_instruction := lit "at blank 1: q";
           g_expectedAnswer := lit "a";
           g_outputSimulation := [] |}] |}.

Definition example_key : option jsstring := Some (lit "sk-or-test").

(** A reply of the completion service with one choice, whose message holds
    the text [content]. *)
Definition completion (content : jsstring) : jsval :=
  VObj [(lit "choices",
         VArr [VObj [(lit "message",
                      VObj [(lit "role", VStr (lit "assistant"));
                            (lit "content", VStr content)])]])].

Definition example_net : network := fun _ => json_body (completion (lit " ok ")).

(** A parser that knows one text. *)
Definition example_parse (s : jsstring) : option jsval :=
  if bool_decide (s = lit "ok")
  then Some (VObj [(lit "status", VStr (lit "correct"));
                   (lit "feedback", VStr (lit "Well done."))])
  else None.

Definition example_grade : ValidationResult.t :=
  {| ValidationResult.correct := true;
     ValidationResult.status := VStr (lit "correct");
     ValidationResult.feedback := VStr (lit "Well done.");
     ValidationResult.correctedCommand := VUndefined |}.

(** [at_example] with other answers and outputs. *)
Definition other_answers_example : LogicScenario :=
  mkScenario "Another context." "no template"
    [mkStep "s1" "At Blank 1: first" "b1"; mkStep "s2" "at blank 2: second" "b2"].

Definition example_answers : list jsstring := [lit "  "; lit " FROM node "].

(** Edits through the three inputs of the scenario with the markers 3, 1,
    2. *)
Definition example_edits : list (Z * jsstring) :=
  [(2, lit "c")%Z; (0, lit "a")%Z; (2, lit " ")%Z].

(** * Verification *)

Example ex_scan :
  (fun m => (m_index m, parseInt (m_group m))) <$>
    exec_all blank_regex (lit "A ___BLANK_2___ B ___BLANK_1___ C")
  = [(2, 2); (18, 1)].
Proof. vm_compute. reflexivity. Qed.

Example ex_replace :
  js_replace contextRegex (fun m => lit "<" ++ m_group m ++ lit ">")
    (lit "see at  blank 12, At Blank 3x and Blank 4")
  = lit "see <12>, <3>x and Blank 4".
Proof. vm_compute. reflexivity. Qed.

Example ex_swap :
  postProcess swap_example =
  mkScenario "See Blank 1 and Blank 2." "A ___BLANK_1___ B ___BLANK_2___ C"
    [mkStep "step_1" "At Blank 1: second" "a2"; mkStep "step_2" "At Blank 2: first" "a1"].
Proof. vm_compute. reflexivity. Qed.

Arguments toString : simpl never.
Arguments newMarker : simpl never.
Arguments atBlank : simpl never.
Arguments stepId : simpl never.

(** ** Leftmost, non-overlapping matches of a pattern *)

Lemma drop_past (t : jsstring) pos gap w rest :
  drop pos t = gap ++ w ++ rest -> drop (pos + length gap + length w) t = rest.
Proof.
  intros Hd. rewrite <- Nat.add_assoc, <- (drop_drop t (length gap + length w) pos), Hd.
  rewrite (assoc_L (++)). apply drop_app_length'. by rewrite length_app.
Qed.

Section Matches.
Variable mt : matcher.
Hypothesis mt_sound : sound_matcher mt.

Lemma quiet_nil A : quiet mt [] A.
Proof. intros g1 g2 H Hne. destruct g1, g2; naive_solver. Qed.

Lemma quiet_cons c g A :
  quiet mt (c :: g) A <-> mt (c :: g ++ A) = None /\ quiet mt g A.
Proof.
  split.
  - intros H. split.
    + apply (H [] (c :: g)); done.
    + intros g1 g2 -> Hne. apply (H (c :: g1) g2); done.
  - intros [H1 H2] g1 g2 Heq Hne. destruct g1 as [|c' g1]; simpl in Heq.
    + subst g2. exact H1.
    + injection Heq as -> ->. by apply (H2 g1 g2).
Qed.

Lemma silent_nil : silent mt [].
Proof.
  intros s1 s2 H. symmetry in H. apply app_eq_nil in H as [_ ->].
  destruct (mt []) as [[len g]|] eqn:E; [|done].
  apply mt_sound in E. simpl in E. lia.
Qed.

Lemma silent_cons c s :
  silent mt (c :: s) <-> mt (c :: s) = None /\ silent mt s.
Proof.
  split.
  - intros H. split; [by apply (H [] (c :: s))|].
    intros s1 s2 ->. by apply (H (c :: s1) s2).
  - intros [H1 H2] s1 s2 Heq. destruct s1 as [|c' s1]; simpl in Heq.
    + by subst s2.
    + injection Heq as -> ->. by apply (H2 s1 s2).
Qed.

Lemma search_None pos s : search mt pos s = None <-> silent mt s.
Proof.
  revert pos. induction s as [|c s IH]; intros pos; simpl.
  - split; [intros _; apply silent_nil|].
    intros H. by rewrite (H [] []).
  - rewrite silent_cons. destruct (mt (c :: s)) as [[len g]|] eqn:E.
    + split; [done|]. by intros [? _].
    + rewrite IH. tauto.
Qed.

Lemma search_found pos gap A len g :
  quiet mt gap A -> mt A = Some (len, g) ->
  search mt pos (gap ++ A)
  = Some {| m_index := pos + length gap; m_text := take len A; m_group := g |}.
Proof.
  revert pos. induction gap as [|c gap IH]; intros pos Hq HA; simpl.
  - destruct A; simpl; rewrite HA; do 2 f_equal; lia.
  - apply quiet_cons in Hq as [Hc Hq]. rewrite Hc.
    rewrite (IH (S pos) Hq HA). do 2 f_equal. lia.
Qed.

Lemma search_Some pos s m :
  search mt pos s = Some m ->
  exists gap A len,
    s = gap ++ A /\ quiet mt gap A /\ mt A = Some (len, m_group m)
    /\ m_index m = pos + length gap /\ m_text m = take len A.
Proof.
  revert pos. induction s as [|c s IH]; intros pos; simpl.
  - destruct (mt []) as [[len g]|] eqn:E; [|done].
    apply mt_sound in E. simpl in E. lia.
  - destruct (mt (c :: s)) as [[len g]|] eqn:E.
    + intros [= <-]. exists [], (c :: s), len. simpl.
      split_and!; auto using quiet_nil.
    + intros H. apply IH in H as (gap & A & len & -> & Hq & HA & Hi & Ht).
      exists (c :: gap), A, len. simpl. split_and!; auto.
      * apply quiet_cons. done.
      * lia.
Qed.

(** Every string has a parse. *)
Lemma Parse_total s : exists cs tl, Parse mt s cs tl.
Proof.
  remember (length s) as n eqn:Hn. revert s Hn.
  induction (lt_wf n) as [n _ IH]. intros s ->.
  destruct (search mt 0 s) as [m|] eqn:E.
  - apply search_Some in E as (gap & A & len & -> & Hq & HA & _ & _).
    pose proof (mt_sound _ _ _ HA) as Hlen.
    destruct (IH (length (drop len A))) with (s := drop len A)
      as (cs & tl & HP); [|done|].
    { rewrite length_app, length_drop. lia. }
    exists ({| c_gap := gap; c_text := take len A; c_group := m_group m |} :: cs), tl.
    rewrite <- (take_drop len A) at 1.
    constructor; auto.
    + by rewrite take_drop.
    + rewrite take_drop, length_take_le by lia. done.
    + intros Hnil. apply (f_equal length) in Hnil.
      rewrite length_take_le in Hnil by lia. simpl in Hnil. lia.
  - exists [], s. constructor. by apply search_None in E.
Qed.

Lemma Parse_render s cs tl : Parse mt s cs tl -> render c_text cs tl = s.
Proof. induction 1; simpl; congruence. Qed.

(** The [exec] loop finds exactly the matches of the parse. *)
Lemma exec_loop_Parse s cs tl :
  Parse mt s cs tl ->
  forall fuel t pos,
    drop pos t = s -> length s < fuel ->
    exec_loop mt fuel t pos = located pos cs.
Proof.
  induction 1 as [tl Hs|gap w g rest cs tl Hq Hw Hne HP IH];
    intros fuel t pos Hd Hf.
  - destruct fuel; [lia|]. simpl. unfold regex_exec. rewrite Hd.
    by apply (search_None pos) in Hs as ->.
  - destruct fuel; [lia|]. simpl. unfold regex_exec. rewrite Hd.
    rewrite (search_found pos _ _ _ _ Hq Hw). simpl.
    rewrite take_app_length. f_equal.
    rewrite !length_app in Hf.
    assert (0 < length w) by (destruct w; [done|simpl; lia]).
    apply IH; [|lia].
    by apply drop_past.
Qed.

Lemma exec_all_Parse t cs tl : Parse mt t cs tl -> exec_all mt t = located 0 cs.
Proof. intros H. by apply (exec_loop_Parse _ _ _ H); [rewrite drop_0|lia]. Qed.

(** More fuel than the length of the string never changes the result:
    the loop of the source always runs to its natural end. *)
Lemma exec_loop_enough fuel t :
  length t < fuel -> exec_loop mt fuel t 0 = exec_all mt t.
Proof.
  intros Hf. destruct (Parse_total t) as (cs & tl & HP).
  rewrite (exec_all_Parse _ _ _ HP).
  by apply (exec_loop_Parse _ _ _ HP); [rewrite drop_0|].
Qed.

Lemma splice_located f s cs tl :
  Parse mt s cs tl ->
  (forall m m', m_text m = m_text m' -> m_group m = m_group m' -> f m = f m') ->
  forall t pos,
    drop pos t = s ->
    splice t f (located pos cs) pos = render (fun c => f (as_match c)) cs tl.
Proof.
  intros HP Hf.
  induction HP as [tl Hs|gap w g rest cs tl Hq Hw Hne HP IH]; intros t pos Hd.
  - done.
  - simpl. unfold substring.
    replace (Nat.min pos (pos + length gap)) with pos by lia.
    replace (Nat.max pos (pos + length gap) - pos) with (length gap) by lia.
    rewrite Hd, take_app_length. f_equal. f_equal; [by apply Hf|].
    apply IH.
    by apply drop_past.
Qed.

(** [replace] rewrites the matches of the parse and copies the rest. *)
Lemma js_replace_Parse f t cs tl :
  Parse mt t cs tl ->
  (forall m m', m_text m = m_text m' -> m_group m = m_group m' -> f m = f m') ->
  js_replace mt f t = render (fun c => f (as_match c)) cs tl.
Proof.
  intros HP Hf. unfold js_replace. rewrite (exec_all_Parse _ _ _ HP).
  by apply (splice_located f t cs tl HP Hf); rewrite ?drop_0.
Qed.

Lemma Parse_functional s cs tl cs' tl' :
  Parse mt s cs tl -> Parse mt s cs' tl' -> cs = cs' /\ tl = tl'.
Proof.
  intros H H'.
  pose proof (exec_all_Parse _ _ _ H) as E.
  pose proof (Parse_render _ _ _ H) as R.
  pose proof (Parse_render _ _ _ H') as R'.
  rewrite (exec_all_Parse _ _ _ H') in E. clear H H'.
  assert (forall pos, located pos cs' = located pos cs ->
          forall a b, render c_text cs a = render c_text cs' b ->
          cs = cs' /\ a = b) as Hgen.
  { clear. revert cs'. induction cs as [|[g w x] cs IH];
      intros [|[g' w' x'] cs'] pos E a b R; simpl in *; try done.
    injection E as E1 E2 E3 E4. subst w' x'.
    assert (length g' = length g) as Hl by lia.
    apply app_inj_1 in R as [<- R]; [|done].
    apply app_inv_head in R.
    destruct (IH _ _ E4 _ _ R) as [-> ->]. done. }
  apply (Hgen 0); [done|]. congruence.
Qed.

End Matches.

(** ** Decimal numerals *)

Lemma uint_units_digits u : Forall (fun c => is_digit c = true) (uint_units u).
Proof. induction u; simpl; constructor; auto. Qed.

(** [parseInt] reads a numeral the way [Nat.of_uint] does. *)
Lemma parseInt_uint_acc u acc :
  foldl (fun acc c => 10 * acc + (N.to_nat c - 48)) acc (uint_units u)
  = Nat.of_uint_acc u acc.
Proof.
  revert acc.
  induction u as [|u IH|u IH|u IH|u IH|u IH|u IH|u IH|u IH|u IH|u IH];
    intros acc; [done|..];
    cbn [uint_units foldl Nat.of_uint_acc]; rewrite IH, Nat.tail_mul_spec;
    f_equal;
    match goal with
    | |- context [N.to_nat ?c - 48] =>
        let v := eval vm_compute in (N.to_nat c - 48) in
        change (N.to_nat c - 48) with v
    end; lia.
Qed.

Lemma parseInt_toString n : parseInt (toString n) = n.
Proof.
  unfold parseInt, toString. rewrite parseInt_uint_acc.
  apply DecimalNat.Unsigned.of_to.
Qed.

Lemma toString_digits n : Forall (fun c => is_digit c = true) (toString n).
Proof. apply uint_units_digits. Qed.

Lemma toString_nonempty n : toString n <> [].
Proof.
  unfold toString. intros H.
  assert (Nat.to_uint n = Nil) as Hn by (destruct (Nat.to_uint n); done).
  pose proof (DecimalNat.Unsigned.of_to n) as E. rewrite Hn in E.
  change (Nat.of_uint Nil) with 0 in E. subst n. done.
Qed.

Lemma toString_inj n n' : toString n = toString n' -> n = n'.
Proof. intros H. rewrite <- (parseInt_toString n), H. apply parseInt_toString. Qed.

(** ** The pattern pieces *)

Lemma strip_prefix_Some p s r : strip_prefix p s = Some r <-> s = p ++ r.
Proof.
  revert s. induction p as [|a p IH]; intros [|b s]; simpl; try done.
  - split; congruence.
  - split; congruence.
  - destruct (N.eqb_spec a b) as [->|Hne].
    + rewrite IH. split; congruence.
    + split; [done|congruence].
Qed.

Lemma strip_prefix_app p r : strip_prefix p (p ++ r) = Some r.
Proof. by apply strip_prefix_Some. Qed.

Lemma strip_prefix_ci_Some p s r :
  strip_prefix_ci p s = Some r <-> exists w, ci_word p w /\ s = w ++ r.
Proof.
  revert s. induction p as [|a p IH]; intros s; simpl.
  - split.
    + intros [= ->]. exists []. split; [constructor|done].
    + intros (w & Hw & ->). by inversion Hw.
  - destruct s as [|b s].
    + split; [done|]. intros (w & Hw & Hs). inversion Hw; subst. done.
    + destruct (ci_eq a b) eqn:E.
      * rewrite IH. split.
        -- intros (w & Hw & ->). exists (b :: w). split; [by constructor|done].
        -- intros (w & Hw & Hs). inversion Hw; subst. injection Hs as -> ->.
           eauto.
      * split; [done|]. intros (w & Hw & Hs). inversion Hw; subst.
        injection Hs as -> ->. congruence.
Qed.

Lemma ci_word_length p w : ci_word p w -> length w = length p.
Proof. intros H. symmetry. by eapply Forall2_length. Qed.

Lemma run_spec cls s :
  exists r, s = run cls s ++ r /\ Forall (fun c => cls c = true) (run cls s)
            /\ stops cls r.
Proof.
  induction s as [|c s (r & Hs & Hf & Hr)]; simpl.
  - exists []. by split_and!.
  - destruct (cls c) eqn:E.
    + exists r. split_and!; [simpl; by f_equal|by constructor|done].
    + exists (c :: s). by split_and!.
Qed.

Lemma run_app cls w r :
  Forall (fun c => cls c = true) w -> stops cls r -> run cls (w ++ r) = w.
Proof.
  induction 1 as [|c w Hc Hw IH]; intros Hr; simpl.
  - destruct r as [|c r]; [done|]. simpl in *. by rewrite Hr.
  - rewrite Hc. f_equal. by apply IH.
Qed.

Lemma run_drop cls s : s = run cls s ++ drop (length (run cls s)) s.
Proof.
  induction s as [|c s IH]; simpl; [done|].
  destruct (cls c); simpl; [by f_equal|done].
Qed.

Lemma run_stops cls s : stops cls (drop (length (run cls s)) s).
Proof.
  induction s as [|c s IH]; simpl; [done|].
  by destruct (cls c) eqn:E; simpl.
Qed.

Lemma run_Forall cls s : Forall (fun c => cls c = true) (run cls s).
Proof. by destruct (run_spec cls s) as (r & _ & Hf & _). Qed.

(** ** The blank marker pattern *)

Lemma toString_is_digits n : digits (toString n).
Proof. split; [apply toString_nonempty|apply toString_digits]. Qed.

Lemma newMarker_text n : newMarker n = marker_text (toString n).
Proof. done. Qed.

Lemma marker_text_length ds : length (marker_text ds) = 12 + length ds.
Proof. unfold marker_text. rewrite !length_app. simpl. lia. Qed.

Lemma blank_regex_Some s len ds :
  blank_regex s = Some (len, ds) ->
  digits ds /\ len = length (marker_text ds)
  /\ exists r, s = marker_text ds ++ r.
Proof.
  unfold blank_regex. destruct (strip_prefix BLANK_OPEN s) as [r1|] eqn:E1; [|done].
  apply strip_prefix_Some in E1 as ->.
  pose proof (run_Forall is_digit r1) as Hf.
  pose proof (run_drop is_digit r1) as Hd.
  destruct (run is_digit r1) as [|d ds'] eqn:Er; [done|].
  destruct (strip_prefix BLANK_CLOSE _) as [r2|] eqn:E2; [|done].
  apply strip_prefix_Some in E2. intros [= <- <-].
  split; [by split|]. split; [rewrite marker_text_length; simpl; lia|].
  exists r2. rewrite Hd at 1. rewrite E2. unfold marker_text.
  by rewrite <- !(assoc_L (++)).
Qed.

Lemma blank_regex_marker ds r :
  digits ds -> blank_regex (marker_text ds ++ r) = Some (length (marker_text ds), ds).
Proof.
  intros [Hne Hf]. unfold blank_regex, marker_text.
  rewrite <- !(assoc_L (++)), strip_prefix_app.
  rewrite (run_app is_digit ds (BLANK_CLOSE ++ r) Hf) by done.
  destruct ds as [|d ds]; [done|].
  rewrite drop_app_length, strip_prefix_app.
  by rewrite !length_app, (assoc_L Nat.add).
Qed.

Lemma blank_regex_sound : sound_matcher blank_regex.
Proof.
  intros s len ds H. apply blank_regex_Some in H as (_ & -> & r & ->).
  rewrite length_app, marker_text_length. lia.
Qed.

Lemma marker_text_split ds r :
  marker_text ds ++ r = OPEN4 ++ (OPEN_REST ++ ds ++ BLANK_CLOSE) ++ r.
Proof. unfold marker_text. by rewrite <- !(assoc_L (++)). Qed.

(** The letter B occurs in a marker at offset 3 only. *)
Lemma marker_no_inner_open ds g k :
  digits ds -> g <> [] -> marker_text ds <> g ++ OPEN4 ++ k.
Proof.
  intros [_ Hf] Hg Heq.
  assert (Forall (fun c => c <> 66%N) (OPEN_REST ++ ds ++ BLANK_CLOSE)) as HY.
  { rewrite !Forall_app. split_and!.
    - repeat constructor; done.
    - eapply Forall_impl; [exact Hf|]. by intros c Hc ->.
    - repeat constructor; done. }
  pose proof (marker_text_split ds []) as E. rewrite !app_nil_r in E.
  rewrite E in Heq. clear E.
  destruct g as [|c g]; [done|].
  assert ((OPEN4 ++ OPEN_REST ++ ds ++ BLANK_CLOSE) !! (4 + length g) = Some 66%N) as Hl.
  { rewrite Heq.
    change ((c :: g) ++ OPEN4 ++ k) with ((c :: g) ++ [95; 95; 95]%N ++ 66%N :: k).
    rewrite (assoc_L (++)). apply list_lookup_middle.
    rewrite length_app. simpl. lia. }
  rewrite lookup_app_r in Hl by (simpl; lia). simpl in Hl.
  rewrite Forall_lookup in HY. eapply HY; [exact Hl|done].
Qed.

(** Swapping what follows the first four characters of a marker cannot
    create a match that starts in front of the marker. *)
Lemma blank_quiet_transfer g x x' :
  quiet blank_regex g (OPEN4 ++ x) -> quiet blank_regex g (OPEN4 ++ x').
Proof.
  intros Hq g1 g2 -> Hne.
  destruct (blank_regex (g2 ++ OPEN4 ++ x')) as [[len ds]|] eqn:E; [|done].
  exfalso. apply blank_regex_Some in E as (Hds & _ & r & Heq).
  specialize (Hq g1 g2 eq_refl Hne).
  assert (forall y, g2 ++ OPEN4 ++ x <> marker_text ds ++ y) as Hno.
  { intros y Hy. rewrite Hy, blank_regex_marker in Hq; done. }
  apply app_eq_inv in Heq as [(k & Hg & Hr)|(k & HM & Hx)].
  - apply (Hno (k ++ OPEN4 ++ x)). by rewrite Hg, <- (assoc_L (++)).
  - destruct k as [|k1 [|k2 [|k3 [|k4 k]]]]; simpl in Hx.
    + apply (Hno (OPEN4 ++ x)). by rewrite HM, app_nil_r.
    + injection Hx as <- _. apply (Hno ([95; 95; 66]%N ++ x)).
      by rewrite HM, <- (assoc_L (++)).
    + injection Hx as <- <- _. apply (Hno ([95; 66]%N ++ x)).
      by rewrite HM, <- (assoc_L (++)).
    + injection Hx as <- <- <- _. apply (Hno ([66]%N ++ x)).
      by rewrite HM, <- (assoc_L (++)).
    + injection Hx as <- <- <- <- _.
      by apply (marker_no_inner_open ds g2 k).
Qed.

(** Scanning a rebuilt template finds the new markers, where the old ones
    were, and nothing else. *)
Lemma blank_rescan s cs tl :
  Parse blank_regex s cs tl ->
  forall i, Parse blank_regex (render c_text (renumber i cs) tl) (renumber i cs) tl.
Proof.
  induction 1 as [tl Hs|gap w g rest cs tl Hq Hw Hne HP IH]; intros i;
    cbn [render renumber c_gap c_text].
  - by constructor.
  - constructor; [| | |apply IH].
    + apply blank_regex_Some in Hw as (_ & _ & r & Hr).
      rewrite Hr, marker_text_split in Hq.
      rewrite newMarker_text, marker_text_split.
      eapply blank_quiet_transfer, Hq.
    + rewrite newMarker_text. apply blank_regex_marker, toString_is_digits.
    + rewrite newMarker_text. unfold marker_text. done.
Qed.

(** ** The blanks found in a template *)

Lemma located_index_ge pos cs m :
  m ∈ located pos cs -> pos <= m_index m.
Proof.
  revert pos. induction cs as [|c cs IH]; intros pos; simpl.
  - by intros ?%elem_of_nil.
  - intros [->|Hm%IH]%elem_of_cons; simpl; lia.
Qed.

Lemma insert_by_index_head b l :
  (forall x, x ∈ l -> index b <= index x) -> insert_by_index b l = b :: l.
Proof.
  destruct l as [|x l]; [done|]. intros H. simpl.
  destruct (Nat.leb_spec (index b) (index x)) as [_|Hlt]; [done|].
  specialize (H x (list_elem_of_here _ _)). lia.
Qed.

(** The scan already yields the blanks in ascending order of position, so
    sorting them changes nothing. *)
Lemma sort_located pos cs :
  sort_by_index (blank_of_match <$> located pos cs)
  = blank_of_match <$> located pos cs.
Proof.
  revert pos. induction cs as [|c cs IH]; intros pos; [done|].
  cbn [located fmap list_fmap sort_by_index foldr].
  fold (sort_by_index (blank_of_match <$>
          located (pos + length (c_gap c) + length (c_text c)) cs)).
  rewrite IH. apply insert_by_index_head.
  intros x (m & -> & Hm%located_index_ge)%list_elem_of_fmap. simpl. lia.
Qed.

Lemma foundBlanks_Parse t cs tl :
  Parse blank_regex t cs tl ->
  foundBlanks t = blank_of_match <$> located 0 cs.
Proof.
  intros HP. unfold foundBlanks, scanBlanks.
  rewrite (exec_all_Parse _ blank_regex_sound _ _ _ HP). apply sort_located.
Qed.

Lemma located_length pos cs : length (located pos cs) = length cs.
Proof.
  revert pos. induction cs as [|c cs IH]; intros pos; simpl; [done|].
  by rewrite IH.
Qed.

Lemma foundBlanks_length t cs tl :
  Parse blank_regex t cs tl -> length (foundBlanks t) = length cs.
Proof.
  intros HP.
  by rewrite (foundBlanks_Parse _ _ _ HP), length_fmap, located_length.
Qed.

Lemma rebuild_loop_Parse s cs tl :
  Parse blank_regex s cs tl ->
  forall t pos i rebuilt,
    drop pos t = s ->
    (let '(rebuilt', lastIdx) :=
       rebuild_loop t (blank_of_match <$> located pos cs) i rebuilt pos in
     rebuilt' ++ substring_from t lastIdx)
    = rebuilt ++ render c_text (renumber i cs) tl.
Proof.
  induction 1 as [tl Hs|gap w g rest cs tl Hq Hw Hne HP IH];
    intros t pos i rebuilt Hd.
  - simpl. unfold substring_from. by rewrite Hd.
  - cbn [located fmap list_fmap rebuild_loop blank_of_match index marker
         m_index m_text c_gap c_text renumber render].
    rewrite IH by (by apply drop_past).
    unfold substring.
    replace (Nat.min pos (pos + length gap)) with pos by lia.
    replace (Nat.max pos (pos + length gap) - pos) with (length gap) by lia.
    rewrite Hd, take_app_length. by rewrite <- !(assoc_L (++)).
Qed.

(** The rebuilt template is the old one with each marker text replaced. *)
Lemma rewriteTemplate_Parse t cs tl :
  Parse blank_regex t cs tl ->
  rewriteTemplate t (foundBlanks t) = render c_text (renumber 0 cs) tl.
Proof.
  intros HP. rewrite (foundBlanks_Parse _ _ _ HP). unfold rewriteTemplate.
  apply (rebuild_loop_Parse _ _ _ HP t 0 0 []). apply drop_0.
Qed.

(** ** Re-mapping the steps *)

Lemma fill_steps_spec sts bs i pre post :
  length pre = i -> length post = length bs ->
  fill_steps sts bs i (pre ++ post)
  = pre ++ imap (fun j b => Some (relocate sts b (i + j))) bs.
Proof.
  revert i pre post. induction bs as [|b bs IH]; intros i pre post Hpre Hpost.
  - destruct post; [|done]. done.
  - destruct post as [|p post]; [done|]. simpl in Hpost.
    cbn [fill_steps imap].
    replace (<[i:=Some (relocate sts b i)]> (pre ++ p :: post))
      with ((pre ++ [Some (relocate sts b i)]) ++ post).
    2:{ rewrite <- (assoc_L (++)). simpl. subst i.
        by rewrite insert_app_r_alt, Nat.sub_diag by lia. }
    rewrite IH; [|rewrite length_app; simpl; lia|lia].
    rewrite <- (assoc_L (++)). simpl. rewrite Nat.add_0_r. do 2 f_equal.
    apply imap_ext. intros j x _. simpl. do 2 f_equal. lia.
Qed.

Lemma omap_imap_Some {A B} (f : nat -> A -> B) (l : list A) :
  omap (fun s => s) (imap (fun j x => Some (f j x)) l) = imap f l.
Proof.
  revert f. induction l as [|x l IH]; intros f; [done|].
  cbn [imap omap list_omap]. f_equal. apply (IH (f ∘ S)).
Qed.

(** Every slot of [newSteps] gets filled, so the final [filter] keeps them
    all: the new list holds one step per blank, in the order of the blanks. *)
Lemma remapSteps_imap sts bs :
  remapSteps sts bs = imap (fun i b => relocate sts b i) bs.
Proof.
  unfold remapSteps.
  pose proof (fill_steps_spec sts bs 0 [] (replicate (length bs) None)
                eq_refl (length_replicate _ _)) as E.
  simpl in E. rewrite E. apply omap_imap_Some.
Qed.

Lemma remapSteps_length sts bs : length (remapSteps sts bs) = length bs.
Proof. by rewrite remapSteps_imap, length_imap. Qed.

Lemma remapSteps_lookup sts bs i b :
  bs !! i = Some b -> remapSteps sts bs !! i = Some (relocate sts b i).
Proof. intros H. by rewrite remapSteps_imap, list_lookup_imap, H. Qed.

(** ** The identifier map *)

Lemma set_ids_spec bs i idMap d c :
  set_ids bs i idMap !! d = Some c <->
  (exists k b, c = i + k + 1 /\ bs !! k = Some b /\ originalId b = d
     /\ forall j b', k < j -> bs !! j = Some b' -> originalId b' <> d)
  \/ (idMap !! d = Some c
      /\ forall j b', bs !! j = Some b' -> originalId b' <> d).
Proof.
  revert i idMap. induction bs as [|b bs IH]; intros i idMap.
  - simpl. split; [by right|]. intros [(k & b & _ & ? & _)|[? _]]; done.
  - cbn [set_ids]. rewrite IH. split.
    + intros [(k & b0 & -> & Hk & Hd & Hlater)|[Hm Hnone]].
      * left. exists (S k), b0. split_and!; [lia|done|done|].
        intros [|j] b' Hj Hb'; [lia|]. apply (Hlater j); [lia|done].
      * destruct (decide (originalId b = d)) as [Hd|Hd].
        -- rewrite Hd, lookup_insert_eq in Hm. injection Hm as <-.
           left. exists 0, b. split_and!; [lia|done|done|].
           intros [|j] b' Hj Hb'; [lia|]. by apply (Hnone j).
        -- rewrite lookup_insert_ne in Hm by done. right. split; [done|].
           intros [|j] b' Hb'; simpl in Hb'; [by injection Hb' as <-|].
           by apply (Hnone j).
    + intros [(k & b0 & -> & Hk & Hd & Hlater)|[Hm Hnone]].
      * destruct k as [|k]; simpl in Hk.
        -- injection Hk as <-. right. rewrite Hd, lookup_insert_eq.
           split; [f_equal; lia|].
           intros j b' Hb'. apply (Hlater (S j)); [lia|done].
        -- left. exists k, b0. split_and!; [lia|done|done|].
           intros j b' Hj Hb'. apply (Hlater (S j)); [lia|done].
      * right. pose proof (Hnone 0 b eq_refl) as Hb.
        rewrite lookup_insert_ne by done. split; [done|].
        intros j b' Hb'. by apply (Hnone (S j)).
Qed.

(** ** Characters *)

Lemma is_digit_range c : is_digit c = true <-> (48 <= c <= 57)%N.
Proof.
  unfold is_digit. rewrite andb_true_iff, !N.leb_le. done.
Qed.

Lemma ci_eq_letter p c :
  (65 <= to_upper p <= 90)%N ->
  ci_eq p c = true <-> c = to_upper p \/ c = (to_upper p + 32)%N.
Proof.
  unfold ci_eq. intros Hp. rewrite N.eqb_eq. generalize dependent (to_upper p).
  intros q Hq. unfold to_upper.
  destruct (N.leb_spec 97 c), (N.leb_spec c 122); simpl; lia.
Qed.

Lemma digit_cases c :
  is_digit c = true ->
  c ∈ [48; 49; 50; 51; 52; 53; 54; 55; 56; 57]%N.
Proof.
  intros [H1 H2]%is_digit_range. rewrite !elem_of_cons.
  assert (c = 48 \/ c = 49 \/ c = 50 \/ c = 51 \/ c = 52 \/ c = 53 \/ c = 54
          \/ c = 55 \/ c = 56 \/ c = 57)%N by lia.
  tauto.
Qed.

Lemma is_A_cases c : is_A c = true <-> c = 65%N \/ c = 97%N.
Proof. unfold is_A. by rewrite ci_eq_letter. Qed.

Lemma is_T_cases c : is_T c = true <-> c = 84%N \/ c = 116%N.
Proof. unfold is_T. by rewrite ci_eq_letter. Qed.

Lemma ci_word_AT a : ci_word AT a <-> exists x y, a = [x; y] /\ is_A x = true /\ is_T y = true.
Proof.
  unfold ci_word, AT. split.
  - intros H. inversion H as [|? x ? ? Hx H']; subst.
    inversion H' as [|? y ? ? Hy H'']; subst. inversion H''; subst.
    by exists x, y.
  - intros (x & y & -> & Hx & Hy). by repeat constructor.
Qed.

Lemma ci_word_BLANK b :
  ci_word BLANK b <->
  exists b1 b2 b3 b4 b5, b = [b1; b2; b3; b4; b5]
    /\ (b1 = 66 \/ b1 = 98)%N /\ (b2 = 76 \/ b2 = 108)%N /\ (b3 = 65 \/ b3 = 97)%N
    /\ (b4 = 78 \/ b4 = 110)%N /\ (b5 = 75 \/ b5 = 107)%N.
Proof.
  unfold ci_word, BLANK. split.
  - intros H.
    repeat match goal with
           | H : Forall2 _ (_ :: _) _ |- _ =>
               let c := fresh "c" in
               let Hc := fresh "Hc" in
               inversion H as [|? c ? ? Hc ?]; subst; clear H;
               apply ci_eq_letter in Hc; [|done]
           | H : Forall2 _ [] _ |- _ => inversion H; subst; clear H
           end.
    do 5 eexists. split; [done|]. tauto.
  - intros (b1 & b2 & b3 & b4 & b5 & -> & H1 & H2 & H3 & H4 & H5).
    repeat constructor; apply ci_eq_letter; done.
Qed.

Lemma stops_space_digits ds r : digits ds -> stops is_space (ds ++ r).
Proof.
  intros [Hne Hf]. destruct ds as [|d ds]; [done|]. simpl.
  inversion Hf as [|? ? Hd%digit_cases _]; subst.
  rewrite !elem_of_cons, elem_of_nil in Hd.
  destruct Hd as [->|[->|[->|[->|[->|[->|[->|[->|[->|[->|[]]]]]]]]]]]; done.
Qed.

Lemma stops_space_BLANK b r : ci_word BLANK b -> stops is_space (b ++ r).
Proof.
  intros (b1 & b2 & b3 & b4 & b5 & -> & [->| ->] & _)%ci_word_BLANK; done.
Qed.

Lemma stops_digit_A c r : is_A c = true -> stops is_digit (c :: r).
Proof. intros [->| ->]%is_A_cases; done. Qed.

Lemma at_blank_head_Some s n r :
  at_blank_head s = Some (n, r) ->
  exists h, at_blank_prefix h /\ s = h ++ r /\ n = length h /\ stops is_space r.
Proof.
  unfold at_blank_head.
  destruct (strip_prefix_ci AT s) as [r1|] eqn:E1; [|done].
  apply strip_prefix_ci_Some in E1 as (a & Ha & ->).
  pose proof (run_Forall is_space r1) as Hf1.
  pose proof (run_drop is_space r1) as Hd1.
  destruct (run is_space r1) as [|c1 ws1] eqn:Er1; [done|].
  destruct (strip_prefix_ci BLANK _) as [r2|] eqn:E2; [|done].
  apply strip_prefix_ci_Some in E2 as (b & Hb & E2).
  pose proof (run_Forall is_space r2) as Hf2.
  pose proof (run_drop is_space r2) as Hd2.
  pose proof (run_stops is_space r2) as Hs2.
  destruct (run is_space r2) as [|c2 ws2] eqn:Er2; [done|].
  intros [= <- <-].
  exists (a ++ (c1 :: ws1) ++ b ++ (c2 :: ws2)). split_and!.
  - exists a, (c1 :: ws1), b, (c2 :: ws2). by split_and!.
  - rewrite Hd1 at 1. rewrite E2. rewrite Hd2 at 1.
    by rewrite <- !(assoc_L (++)).
  - rewrite !length_app, (ci_word_length _ _ Ha), (ci_word_length _ _ Hb).
    simpl. lia.
  - done.
Qed.

Lemma strip_prefix_ci_app p w r : ci_word p w -> strip_prefix_ci p (w ++ r) = Some r.
Proof. intros H. apply strip_prefix_ci_Some. eauto. Qed.

Lemma at_blank_head_prefix h r :
  at_blank_prefix h -> stops is_space r ->
  at_blank_head (h ++ r) = Some (length h, r).
Proof.
  intros (a & ws1 & b & ws2 & -> & Ha & [Hn1 Hf1] & Hb & [Hn2 Hf2]) Hr.
  unfold at_blank_head. rewrite <- !(assoc_L (++)).
  rewrite (strip_prefix_ci_app _ _ _ Ha).
  rewrite (run_app is_space ws1 _ Hf1) by (by apply stops_space_BLANK).
  destruct ws1 as [|c1 ws1]; [done|].
  rewrite drop_app_length, (strip_prefix_ci_app _ _ _ Hb).
  rewrite (run_app is_space ws2 _ Hf2) by done.
  destruct ws2 as [|c2 ws2]; [done|].
  rewrite drop_app_length. do 2 f_equal.
  rewrite !length_app, (ci_word_length _ _ Ha), (ci_word_length _ _ Hb). lia.
Qed.

(** ** The reference patterns *)

Lemma contextRegex_Some s len ds :
  contextRegex s = Some (len, ds) ->
  digits ds /\
  exists h r, at_blank_prefix h /\ s = (h ++ ds) ++ r
              /\ len = length (h ++ ds) /\ stops is_digit r.
Proof.
  unfold contextRegex.
  destruct (at_blank_head s) as [[n r]|] eqn:E; [|done].
  apply at_blank_head_Some in E as (h & Hh & -> & -> & _).
  pose proof (run_Forall is_digit r) as Hf.
  pose proof (run_drop is_digit r) as Hd.
  pose proof (run_stops is_digit r) as Hs.
  destruct (run is_digit r) as [|d ds'] eqn:Er; [done|].
  intros [= <- <-]. split; [done|].
  exists h, (drop (length (d :: ds')) r). split_and!; [done| | |done].
  - rewrite <- (assoc_L (++)). by rewrite <- Hd.
  - by rewrite length_app.
Qed.

(** Whatever follows a reference, the pattern matches at its start. *)
Lemma contextRegex_prefix h ds y :
  at_blank_prefix h -> digits ds -> contextRegex ((h ++ ds) ++ y) <> None.
Proof.
  intros Hh Hds. unfold contextRegex. rewrite <- !(assoc_L (++)).
  rewrite (at_blank_head_prefix h _ Hh) by (by apply stops_space_digits).
  destruct Hds as [Hne Hf]. destruct ds as [|d ds]; [done|].
  inversion Hf as [|? ? Hd _]; subst. simpl. by rewrite Hd.
Qed.

Lemma contextRegex_reference h ds r :
  at_blank_prefix h -> digits ds -> stops is_digit r ->
  contextRegex ((h ++ ds) ++ r) = Some (length (h ++ ds), ds).
Proof.
  intros Hh Hds Hr. unfold contextRegex. rewrite <- !(assoc_L (++)).
  rewrite (at_blank_head_prefix h _ Hh) by (by apply stops_space_digits).
  destruct Hds as [Hne Hf]. rewrite (run_app is_digit ds r Hf Hr).
  destruct ds as [|d ds]; [done|]. by rewrite length_app.
Qed.

Lemma contextRegex_sound : sound_matcher contextRegex.
Proof.
  intros s len ds (Hds & h & r & Hh & -> & -> & _)%contextRegex_Some.
  destruct Hds as [Hne _]. rewrite !length_app.
  destruct ds; [done|]. simpl. lia.
Qed.

Lemma headerRegex_Some d s len g :
  headerRegex d s = Some (len, g) ->
  g = [] /\
  exists h r, at_blank_prefix h /\ s = (h ++ toString d) ++ r
              /\ len = length (h ++ toString d).
Proof.
  unfold headerRegex.
  destruct (at_blank_head s) as [[n r]|] eqn:E; [|done].
  apply at_blank_head_Some in E as (h & Hh & -> & -> & _).
  destruct (strip_prefix (toString d) r) as [r'|] eqn:E'; [|done].
  apply strip_prefix_Some in E' as ->. intros [= <- <-]. split; [done|].
  exists h, r'. split_and!; [done| |by rewrite length_app].
  by rewrite <- (assoc_L (++)).
Qed.

Lemma headerRegex_reference d h r :
  at_blank_prefix h ->
  headerRegex d ((h ++ toString d) ++ r) = Some (length (h ++ toString d), []).
Proof.
  intros Hh. unfold headerRegex. rewrite <- !(assoc_L (++)).
  rewrite (at_blank_head_prefix h _ Hh)
    by (apply stops_space_digits, toString_is_digits).
  by rewrite strip_prefix_app, length_app.
Qed.

Lemma headerRegex_sound d : sound_matcher (headerRegex d).
Proof.
  intros s len g (_ & h & r & Hh & -> & ->)%headerRegex_Some.
  pose proof (toString_nonempty d). rewrite !length_app.
  destruct (toString d); [done|]. simpl. lia.
Qed.

Lemma at_blank_prefix_AT_BLANK_ : at_blank_prefix AT_BLANK_.
Proof.
  exists AT, [32%N], BLANK, [32%N]. split_and!; try done.
  - by repeat constructor.
  - split; [done|]. by repeat constructor.
  - by repeat constructor.
  - split; [done|]. by repeat constructor.
Qed.

Lemma at_blank_prefix_head h :
  at_blank_prefix h ->
  exists x y k, h = x :: y :: k /\ is_A x = true /\ is_T y = true.
Proof.
  intros (a & ws1 & b & ws2 & -> & (x & y & -> & Hx & Hy)%ci_word_AT & _).
  by exists x, y, (ws1 ++ b ++ ws2).
Qed.

Lemma has_at_middle g x y k :
  is_A x = true -> is_T y = true -> has_at (g ++ x :: y :: k) = true.
Proof.
  intros Hx Hy. induction g as [|c g IH]; simpl.
  - by rewrite Hx, Hy.
  - rewrite IH. apply orb_true_r.
Qed.

Lemma has_at_skip u v :
  Forall (fun c => is_A c = false) u -> has_at (u ++ v) = has_at v.
Proof. induction 1 as [|c u Hc Hu IH]; simpl; [done|]. by rewrite Hc. Qed.

Lemma not_A_space ws :
  Forall (fun c => is_space c = true) ws -> Forall (fun c => is_A c = false) ws.
Proof.
  intros H. eapply Forall_impl; [exact H|].
  intros c Hc. destruct (is_A c) eqn:E; [|done].
  apply is_A_cases in E as [->| ->]; done.
Qed.

Lemma not_A_digit ds :
  Forall (fun c => is_digit c = true) ds -> Forall (fun c => is_A c = false) ds.
Proof.
  intros H. eapply Forall_impl; [exact H|].
  intros c Hc. destruct (is_A c) eqn:E; [|done].
  apply is_A_cases in E as [->| ->]; done.
Qed.

(** Inside a reference, "at" occurs at the very start only. *)
Lemma reference_no_inner_at h ds g x y k :
  at_blank_prefix h -> Forall (fun c => is_digit c = true) ds ->
  g <> [] -> is_A x = true -> is_T y = true ->
  h ++ ds <> g ++ x :: y :: k.
Proof.
  intros (a & ws1 & b & ws2 & -> & (x0 & y0 & -> & Hx0 & Hy0)%ci_word_AT
          & [_ Hf1] & Hb & [_ Hf2]) Hds Hg Hx Hy Heq.
  apply ci_word_BLANK in Hb as (b1 & b2 & b3 & b4 & b5 & -> & H1 & H2 & H3 & H4 & H5).
  destruct g as [|c g]; [done|]. simpl in Heq. injection Heq as _ Heq.
  pose proof (has_at_middle g x y k Hx Hy) as Hat. rewrite <- Heq in Hat.
  clear Heq.
  match type of Hat with
  | has_at ?l = _ =>
      assert (l = [y0] ++ ws1 ++ [b1; b2] ++ b3 :: b4 :: [b5] ++ ws2 ++ ds ++ [])
        as E; [|rewrite E in Hat; clear E]
  end.
  { rewrite app_nil_r. simpl. by rewrite <- !(assoc_L (++)). }
  rewrite (has_at_skip [y0]) in Hat.
  2:{ repeat constructor. apply is_T_cases in Hy0 as [->| ->]; done. }
  rewrite (has_at_skip ws1) in Hat by (by apply not_A_space).
  rewrite (has_at_skip [b1; b2]) in Hat.
  2:{ repeat constructor; [destruct H1 as [->| ->]|destruct H2 as [->| ->]]; done. }
  cbn [has_at] in Hat.
  assert (is_T b4 = false) as E by (destruct H4 as [->| ->]; done).
  rewrite E, andb_false_r, orb_false_l in Hat. clear E.
  assert (is_A b4 = false) as E by (destruct H4 as [->| ->]; done).
  rewrite E, andb_false_l, orb_false_l in Hat. clear E.
  rewrite (has_at_skip [b5]) in Hat.
  2:{ repeat constructor. destruct H5 as [->| ->]; done. }
  rewrite (has_at_skip ws2) in Hat by (by apply not_A_space).
  rewrite (has_at_skip ds) in Hat by (by apply not_A_digit).
  done.
Qed.

Lemma digits_last_not_A (h ds l : jsstring) x :
  digits ds -> is_A x = true -> h ++ ds <> l ++ [x].
Proof.
  intros [Hn Hf] Hx Heq. apply (f_equal last) in Heq.
  rewrite last_snoc, last_app in Heq.
  destruct (last ds) as [d|] eqn:El; [|by apply last_None in El].
  injection Heq as ->. apply last_Some_elem_of in El.
  rewrite Forall_forall in Hf. apply Hf in El.
  apply is_A_cases in Hx as [->| ->]; done.
Qed.

(** Swapping what follows the leading "At" of a reference cannot create a
    match that starts in front of it. The statement covers both reference
    patterns. *)
Lemma at_quiet_transfer (mt : matcher) :
  (forall s len g, mt s = Some (len, g) ->
     exists h ds r, at_blank_prefix h /\ digits ds /\ s = (h ++ ds) ++ r
                    /\ forall y, mt ((h ++ ds) ++ y) <> None) ->
  forall g x y k x' y' k',
    is_A x = true -> is_T y = true -> is_A x' = true -> is_T y' = true ->
    quiet mt g (x :: y :: k) -> quiet mt g (x' :: y' :: k').
Proof.
  intros Hmt g x y k x' y' k' Hx Hy Hx' Hy' Hq g1 g2 -> Hne.
  destruct (mt (g2 ++ x' :: y' :: k')) as [[len grp]|] eqn:E; [|done].
  exfalso. apply Hmt in E as (h & ds & r & Hh & Hds & Heq & Hpre).
  specialize (Hq g1 g2 eq_refl Hne).
  apply app_eq_inv in Heq as [(z & Hg & Hr)|(z & HM & Hz)].
  - apply (Hpre (z ++ x :: y :: k)). by rewrite (assoc_L (++)), <- Hg.
  - destruct z as [|z1 [|z2 z]]; simpl in Hz.
    + apply (Hpre (x :: y :: k)). by rewrite HM, app_nil_r.
    + injection Hz as <- _. by apply (digits_last_not_A h ds g2 x').
    + injection Hz as <- <- _.
      destruct Hds as [_ Hf].
      by apply (reference_no_inner_at h ds g2 x' y' z).
Qed.

Lemma contextRegex_shape s len g :
  contextRegex s = Some (len, g) ->
  exists h ds r, at_blank_prefix h /\ digits ds /\ s = (h ++ ds) ++ r
                 /\ forall y, contextRegex ((h ++ ds) ++ y) <> None.
Proof.
  intros (Hds & h & r & Hh & -> & _)%contextRegex_Some.
  exists h, g, r. split_and!; auto using contextRegex_prefix.
Qed.

Lemma headerRegex_shape d s len g :
  headerRegex d s = Some (len, g) ->
  exists h ds r, at_blank_prefix h /\ digits ds /\ s = (h ++ ds) ++ r
                 /\ forall y, headerRegex d ((h ++ ds) ++ y) <> None.
Proof.
  intros (_ & h & r & Hh & -> & _)%headerRegex_Some.
  exists h, (toString d), r. split_and!; auto using toString_is_digits.
  intros y. by rewrite headerRegex_reference.
Qed.

(** ** Re-numbering the references of the context *)

Lemma render_remap_chunk idMap cs tl :
  render c_text (remap_chunk idMap <$> cs) tl
  = render (fun c => contextCallback idMap (as_match c)) cs tl.
Proof.
  induction cs as [|c cs IH]; [done|].
  cbn [fmap list_fmap render remap_chunk c_gap c_text]. by rewrite <- IH.
Qed.

Lemma atBlank_head n : exists k, atBlank n = 65%N :: 116%N :: k.
Proof. unfold atBlank, AT_BLANK_. simpl. eauto. Qed.

Lemma remap_chunk_cases idMap gap w g :
  (exists n, truthy (idMap !! parseInt g) = Some n /\
     remap_chunk idMap {| c_gap := gap; c_text := w; c_group := g |}
     = {| c_gap := gap; c_text := atBlank n; c_group := toString n |})
  \/ (truthy (idMap !! parseInt g) = None /\
      remap_chunk idMap {| c_gap := gap; c_text := w; c_group := g |}
      = {| c_gap := gap; c_text := w; c_group := g |}).
Proof.
  unfold remap_chunk, contextCallback. simpl.
  destruct (truthy (idMap !! parseInt g)) as [n|]; eauto.
Qed.

Lemma remap_head_stops idMap s cs tl :
  Parse contextRegex s cs tl -> stops is_digit s ->
  stops is_digit (render c_text (remap_chunk idMap <$> cs) tl).
Proof.
  destruct 1 as [tl Hs|gap w g rest cs tl Hq Hw Hne HP]; [done|].
  cbn [fmap list_fmap].
  destruct (remap_chunk_cases idMap gap w g) as [(n & _ & ->)|[_ ->]];
    cbn [render c_gap c_text]; (destruct gap as [|c gap]; [|done]); simpl.
  - done.
  - destruct w; done.
Qed.

(** Scanning a rewritten context finds the rewritten references, where the
    old ones were, and nothing else. *)
Lemma context_rescan idMap s cs tl :
  Parse contextRegex s cs tl ->
  Parse contextRegex (render c_text (remap_chunk idMap <$> cs) tl)
                      (remap_chunk idMap <$> cs) tl.
Proof.
  induction 1 as [tl Hs|gap w g rest cs tl Hq Hw Hne HP IH].
  - by constructor.
  - pose proof Hw as (Hds & h & r & Hh & Heq & Hlen & Hr)%contextRegex_Some.
    apply app_inj_1 in Heq as [-> ->]; [|done].
    destruct (at_blank_prefix_head h Hh) as (x & y & k & Hhk & Hx & Hy).
    pose proof (remap_head_stops idMap _ _ _ HP Hr) as Hr'.
    cbn [fmap list_fmap].
    destruct (remap_chunk_cases idMap gap (h ++ g) g) as [(n & _ & ->)|[_ ->]];
      cbn [render c_gap c_text].
    + destruct (atBlank_head n) as (k' & Hk').
      constructor; [| | |done].
      * rewrite Hk'. rewrite Hhk in Hq. simpl in Hq |- *.
        by eapply (at_quiet_transfer _ contextRegex_shape); [..|exact Hq].
      * apply contextRegex_reference;
          auto using at_blank_prefix_AT_BLANK_, toString_is_digits.
      * by rewrite Hk'.
    + constructor; [| |done|done].
      * rewrite Hhk. rewrite Hhk in Hq. simpl in Hq |- *.
        by eapply (at_quiet_transfer _ contextRegex_shape); [..|exact Hq].
      * by apply contextRegex_reference.
Qed.

Lemma located_groups pos cs :
  m_group <$> located pos cs = c_group <$> cs.
Proof.
  revert pos. induction cs as [|c cs IH]; intros pos; simpl; [done|].
  by rewrite IH.
Qed.

Lemma blankRefs_Parse s cs tl :
  Parse contextRegex s cs tl ->
  blankRefs s = (fun c => parseInt (c_group c)) <$> cs.
Proof.
  intros HP. unfold blankRefs.
  rewrite (exec_all_Parse _ contextRegex_sound _ _ _ HP).
  rewrite (list_fmap_compose m_group parseInt), located_groups.
  by rewrite <- list_fmap_compose.
Qed.

Lemma rewriteContext_Parse idMap ctx cs tl :
  Parse contextRegex ctx cs tl ->
  rewriteContext idMap ctx = render c_text (remap_chunk idMap <$> cs) tl.
Proof.
  intros HP. rewrite render_remap_chunk. unfold rewriteContext.
  destruct ctx as [|c ctx].
  - inversion HP as [? ?|gap w g rest ? ? ? ? Hne ? Heq]; subst; [done|].
    by destruct gap, w.
  - apply (js_replace_Parse _ contextRegex_sound _ _ _ _ HP).
    intros m m' Ht Hg. unfold contextCallback. by rewrite Ht, Hg.
Qed.

(** ** The assembled scenario *)

Lemma postProcess_no_blanks sc :
  foundBlanks (codeTemplate sc) = [] -> postProcess sc = sc.
Proof.
  intros H. unfold postProcess. destruct (codeTemplate sc); [done|].
  by rewrite H.
Qed.

Lemma postProcess_blanks sc :
  foundBlanks (codeTemplate sc) <> [] ->
  postProcess sc
  = {| id := id sc; title := title sc; description := description sc;
       difficulty := difficulty sc; environment := environment sc;
       context := rewriteContext (build_idMap (foundBlanks (codeTemplate sc)))
                    (context sc);
       codeTemplate := rewriteTemplate (codeTemplate sc)
                         (foundBlanks (codeTemplate sc));
       steps := remapSteps (steps sc) (foundBlanks (codeTemplate sc)) |}.
Proof.
  intros H. unfold postProcess.
  destruct (codeTemplate sc) as [|c t] eqn:Et; [done|].
  destruct (foundBlanks (c :: t)); done.
Qed.


Lemma renumber_length i cs : length (renumber i cs) = length cs.
Proof. revert i. induction cs as [|c cs IH]; intros i; simpl; [done|]. by rewrite IH. Qed.

Lemma renumber_ids pos i cs :
  originalId <$> (blank_of_match <$> located pos (renumber i cs))
  = seq (i + 1) (length cs).
Proof.
  revert pos i. induction cs as [|c cs IH]; intros pos i; [done|].
  cbn [renumber located fmap list_fmap blank_of_match originalId m_group
       c_group length seq].
  f_equal; [apply parseInt_toString|].
  by rewrite IH.
Qed.

Lemma renumber_gaps i cs : c_gap <$> renumber i cs = c_gap <$> cs.
Proof.
  revert i. induction cs as [|c cs IH]; intros i; [done|].
  cbn [renumber fmap list_fmap c_gap]. f_equal. apply IH.
Qed.

Lemma render_nil_gaps cs cs' tl :
  c_gap <$> cs = c_gap <$> cs' ->
  render (fun _ => []) cs tl = render (fun _ => []) cs' tl.
Proof.
  revert cs'. induction cs as [|c cs IH]; intros [|c' cs'] H; try done.
  injection H as Hc H. simpl. rewrite Hc. f_equal. by apply IH.
Qed.

(** The blanks of the rebuilt template: the same number of them, numbered
    1, 2, 3, ... from left to right. *)
Lemma rewriteTemplate_rescan t :
  originalId <$> foundBlanks (rewriteTemplate t (foundBlanks t))
  = seq 1 (length (foundBlanks t)).
Proof.
  destruct (Parse_total _ blank_regex_sound t) as (cs & tl & HP).
  rewrite (rewriteTemplate_Parse _ _ _ HP), (foundBlanks_length _ _ _ HP).
  rewrite (foundBlanks_Parse _ _ _ (blank_rescan _ _ _ HP 0)).
  apply renumber_ids.
Qed.

Lemma stripMarkers_Parse t cs tl :
  Parse blank_regex t cs tl -> stripMarkers t = render (fun _ => []) cs tl.
Proof.
  intros HP. unfold stripMarkers.
  by rewrite (js_replace_Parse _ blank_regex_sound _ _ _ _ HP).
Qed.

(** The identifier map binds a declared index to the position (counted from
    1) of the last blank that carries it. *)
Lemma build_idMap_spec bs d c :
  build_idMap bs !! d = Some c <->
  exists i b, c = i + 1 /\ bs !! i = Some b /\ originalId b = d
    /\ forall j b', i < j -> bs !! j = Some b' -> originalId b' <> d.
Proof.
  unfold build_idMap. rewrite set_ids_spec. split.
  - intros [(k & b & -> & H)|[H _]]; [by exists k, b|].
    by rewrite lookup_empty in H.
  - intros (i & b & -> & H). left. by exists i, b.
Qed.

(** The values of the identifier map are positions counted from 1: the
    truthiness test of the callback only ever fails on [undefined]. *)
Lemma truthy_build_idMap bs d :
  truthy (build_idMap bs !! d) = build_idMap bs !! d.
Proof.
  destruct (build_idMap bs !! d) as [c|] eqn:E; [|done].
  apply build_idMap_spec in E as (i & b & -> & _). by rewrite Nat.add_1_r.
Qed.

(** ** Example scenarios *)

Example scrambled_result :
  postProcess scrambled_example =
  mkScenario "Intro. At Blank 2: one. At Blank 3: two. At Blank 1: three."
    "a ___BLANK_1___ b ___BLANK_2___ c ___BLANK_3___ d"
    [mkStep "step_1" "At Blank 1: three" "a3";
     mkStep "step_2" "At Blank 2: one" "a1";
     mkStep "step_3" "At Blank 3: two" "a2"].
Proof. vm_compute. reflexivity. Qed.

Example short_result :
  steps (postProcess short_example) =
  [mkStep "step_1" "At Blank 1: one" "a1";
   mkStep "step_2" "At Blank 2: two" "a2";
   mkStep "step_3" "Missing step definition." "???"].
Proof. vm_compute. reflexivity. Qed.


Lemma Parse_header_chunks d s cs tl :
  Parse (headerRegex d) s cs tl ->
  Forall (fun c => reference (toString d) (c_text c)) cs.
Proof.
  induction 1 as [tl Hs|gap w g rest cs tl Hq Hw Hne HP IH]; constructor; [|done].
  apply headerRegex_Some in Hw as (_ & h & r & Hh & Heq & Hlen).
  apply app_inj_1 in Heq as [-> _]; [|done]. simpl. by exists h.
Qed.

Lemma quiet_reference_free (mt : matcher) (P : jsstring -> Prop) gap A :
  (forall h ds y, at_blank_prefix h -> P ds -> mt ((h ++ ds) ++ y) <> None) ->
  quiet mt gap A -> reference_free P gap.
Proof.
  intros Hmt Hq u w v ds -> HP (h & Hh & ->).
  apply (Hmt h ds (v ++ A) Hh HP). rewrite (assoc_L (++)).
  apply (Hq u ((h ++ ds) ++ v)); [done|].
  destruct (at_blank_prefix_head h Hh) as (x & y & k & -> & _). done.
Qed.

Lemma silent_reference_free (mt : matcher) (P : jsstring -> Prop) tl :
  (forall h ds y, at_blank_prefix h -> P ds -> mt ((h ++ ds) ++ y) <> None) ->
  silent mt tl -> reference_free P tl.
Proof.
  intros Hmt Hs u w v ds -> HP (h & Hh & ->).
  apply (Hmt h ds v Hh HP). by apply (Hs u).
Qed.


(** Between the matches of a header pattern no reference to its number is
    left. *)
Lemma Parse_header_reference_free d s cs tl :
  Parse (headerRegex d) s cs tl ->
  Forall (fun c => reference_free (fun ds => ds = toString d) (c_gap c)) cs
  /\ reference_free (fun ds => ds = toString d) tl.
Proof.
  assert (forall h ds y, at_blank_prefix h -> ds = toString d ->
            headerRegex d ((h ++ ds) ++ y) <> None) as Hmt
    by (intros h ds y Hh ->; by rewrite headerRegex_reference).
  induction 1 as [tl Hs|gap w g rest cs tl Hq Hw Hne HP [IH1 IH2]].
  - split; [constructor|]. by eapply silent_reference_free.
  - split; [|done]. constructor; [|done]. by eapply quiet_reference_free.
Qed.

Lemma render_ext f f' cs tl :
  Forall (fun c => f c = f' c) cs -> render f cs tl = render f' cs tl.
Proof. induction 1 as [|c cs Hc _ IH]; simpl; [done|]. by rewrite Hc, IH. Qed.

Lemma rewriteInstruction_Parse d n ins cs tl :
  Parse (headerRegex d) ins cs tl ->
  rewriteInstruction d n ins = render (fun _ => atBlank n) cs tl.
Proof.
  intros HP. unfold rewriteInstruction.
  by rewrite (js_replace_Parse _ (headerRegex_sound d) _ _ _ _ HP).
Qed.


(** ** The references, as the source reads them *)

Example at_example_result :
  postProcess at_example =
  mkScenario "See At Blank 2 and At Blank 1, not At Blank 7."
    "A ___BLANK_1___ B ___BLANK_2___ C"
    [mkStep "step_1" "At Blank 1: second" "a2";
     mkStep "step_2" "At Blank 2: first" "a1"].
Proof. vm_compute. reflexivity. Qed.


(** ** Scenarios that are already in normal form *)

Lemma Parse_blank_chunks s cs tl :
  Parse blank_regex s cs tl ->
  Forall (fun c => digits (c_group c) /\ c_text c = marker_text (c_group c)) cs.
Proof.
  induction 1 as [tl Hs|gap w g rest cs tl Hq Hw Hne HP IH]; constructor; [|done].
  apply blank_regex_Some in Hw as (Hds & Hlen & r & Heq).
  apply app_inj_1 in Heq as [-> _]; done.
Qed.

Lemma located_texts pos cs : m_text <$> located pos cs = c_text <$> cs.
Proof.
  revert pos. induction cs as [|c cs IH]; intros pos; simpl; [done|].
  by rewrite IH.
Qed.

Lemma foundBlanks_markers t cs tl :
  Parse blank_regex t cs tl -> marker <$> foundBlanks t = c_text <$> cs.
Proof.
  intros HP. rewrite (foundBlanks_Parse _ _ _ HP), <- list_fmap_compose.
  rewrite <- (located_texts 0 cs). by apply list_fmap_ext.
Qed.

Lemma foundBlanks_ids t cs tl :
  Parse blank_regex t cs tl ->
  originalId <$> foundBlanks t = (fun c => parseInt (c_group c)) <$> cs.
Proof.
  intros HP. rewrite (foundBlanks_Parse _ _ _ HP), <- list_fmap_compose.
  rewrite (list_fmap_compose c_group parseInt), <- (located_groups 0 cs).
  rewrite <- list_fmap_compose. by apply list_fmap_ext.
Qed.

Lemma renumber_texts i cs :
  c_text <$> renumber i cs = newMarker <$> seq (i + 1) (length cs).
Proof.
  revert i. induction cs as [|c cs IH]; intros i; [done|].
  cbn [renumber fmap list_fmap c_text length seq]. f_equal. apply (IH (S i)).
Qed.

Lemma render_text_ext cs cs' tl :
  c_gap <$> cs = c_gap <$> cs' -> c_text <$> cs = c_text <$> cs' ->
  render c_text cs tl = render c_text cs' tl.
Proof.
  revert cs'. induction cs as [|c cs IH]; intros [|c' cs'] Hg Ht; try done.
  injection Hg as Hg1 Hg. injection Ht as Ht1 Ht. simpl.
  rewrite Hg1, Ht1. do 2 f_equal. by apply IH.
Qed.

Lemma marker_text_inj ds ds' : marker_text ds = marker_text ds' -> ds = ds'.
Proof.
  unfold marker_text. intros H. apply app_inv_head in H.
  by apply app_inv_tail in H.
Qed.

Lemma canonical_markers_ids t :
  canonical_markers t ->
  originalId <$> foundBlanks t = seq 1 (length (foundBlanks t)).
Proof.
  destruct (Parse_total _ blank_regex_sound t) as (cs & tl & HP).
  unfold canonical_markers.
  rewrite (foundBlanks_markers _ _ _ HP), (foundBlanks_ids _ _ _ HP),
    (foundBlanks_length _ _ _ HP).
  pose proof (Parse_blank_chunks _ _ _ HP) as Hch. clear HP.
  generalize 1. induction Hch as [|c cs [_ Hc] _ IH]; intros k; [done|].
  cbn [fmap list_fmap length seq]. intros [= Hk Hrest].
  f_equal; [|by apply IH].
  rewrite Hc, newMarker_text in Hk. apply marker_text_inj in Hk as ->.
  apply parseInt_toString.
Qed.

Lemma rewriteTemplate_canonical t :
  canonical_markers t -> rewriteTemplate t (foundBlanks t) = t.
Proof.
  destruct (Parse_total _ blank_regex_sound t) as (cs & tl & HP).
  unfold canonical_markers.
  rewrite (foundBlanks_markers _ _ _ HP), (foundBlanks_length _ _ _ HP).
  intros Hc. rewrite (rewriteTemplate_Parse _ _ _ HP).
  rewrite <- (Parse_render _ _ _ _ HP) at 1.
  apply render_text_ext; [apply renumber_gaps|].
  by rewrite renumber_texts.
Qed.

Lemma rewriteTemplate_is_canonical t :
  canonical_markers (rewriteTemplate t (foundBlanks t))
  /\ length (foundBlanks (rewriteTemplate t (foundBlanks t)))
     = length (foundBlanks t).
Proof.
  destruct (Parse_total _ blank_regex_sound t) as (cs & tl & HP).
  pose proof (blank_rescan _ _ _ HP 0) as HP'.
  unfold canonical_markers. rewrite (rewriteTemplate_Parse _ _ _ HP).
  rewrite (foundBlanks_markers _ _ _ HP'), (foundBlanks_length _ _ _ HP'),
    (foundBlanks_length _ _ _ HP), renumber_length.
  split; [apply renumber_texts|done].
Qed.

Lemma remapSteps_ids sts bs :
  step_id <$> remapSteps sts bs = stepId <$> seq 1 (length bs).
Proof.
  rewrite remapSteps_imap.
  assert (forall k, step_id <$> imap (fun i b => relocate sts b (k + i)) bs
                    = stepId <$> seq (k + 1) (length bs)) as H.
  { induction bs as [|b bs IH]; intros k; [done|].
    cbn [imap fmap list_fmap length seq]. f_equal.
    - unfold relocate. destruct (oldStep sts (originalId b)); simpl; f_equal; lia.
    - etrans; [|apply (IH (S k))]. f_equal. apply imap_ext. intros i x _.
      simpl. f_equal. lia. }
  apply (H 0).
Qed.

Lemma Forall_located (P : jsstring -> jsstring -> Prop) pos cs :
  Forall (fun m => P (m_text m) (m_group m)) (located pos cs)
  <-> Forall (fun c => P (c_text c) (c_group c)) cs.
Proof.
  revert pos. induction cs as [|c cs IH]; intros pos; simpl; [done|].
  rewrite !Forall_cons, IH. done.
Qed.

Lemma remapSteps_canonical_lookup sts bs i st :
  originalId <$> bs = seq 1 (length bs) ->
  length sts = length bs ->
  sts !! i = Some st ->
  remapSteps sts bs !! i
  = Some {| step_id := stepId (i + 1);
            instruction := rewriteInstruction (i + 1) (i + 1) (instruction st);
            expectedAnswer := expectedAnswer st;
            outputSimulation := outputSimulation st |}.
Proof.
  intros Hids Hlen Hst.
  pose proof (lookup_lt_Some _ _ _ Hst) as Hi. rewrite Hlen in Hi.
  destruct (lookup_lt_is_Some_2 bs i Hi) as [b Hb].
  rewrite (remapSteps_lookup _ _ _ _ Hb). unfold relocate.
  assert (originalId b = S i) as ->.
  { apply (f_equal (fun l => l !! i)) in Hids.
    rewrite list_lookup_fmap, Hb in Hids. simpl in Hids. symmetry in Hids.
    apply lookup_seq in Hids as [-> _]. lia. }
  cbn [oldStep]. rewrite Hst. by rewrite Nat.add_1_r.
Qed.

Lemma rewriteInstruction_plain d n ins :
  Forall (fun m => m_text m = atBlank n) (exec_all (headerRegex d) ins) ->
  rewriteInstruction d n ins = ins.
Proof.
  destruct (Parse_total _ (headerRegex_sound d) ins) as (cs & tl & HP).
  rewrite (exec_all_Parse _ (headerRegex_sound d) _ _ _ HP).
  intros Hpl. rewrite (rewriteInstruction_Parse _ _ _ _ _ HP).
  etrans; [|apply (Parse_render _ _ _ _ HP)]. apply render_ext.
  apply (Forall_fmap m_text (fun w => w = atBlank n)) in Hpl.
  rewrite located_texts in Hpl.
  apply (Forall_fmap c_text (fun w => w = atBlank n)) in Hpl.
  eapply Forall_impl; [exact Hpl|]. by intros c ->.
Qed.

Lemma build_idMap_canonical bs d c :
  originalId <$> bs = seq 1 (length bs) ->
  build_idMap bs !! d = Some c -> c = d /\ 1 <= d <= length bs.
Proof.
  intros Hids (i & b & -> & Hb & Hd & _)%build_idMap_spec.
  apply (f_equal (fun l => l !! i)) in Hids.
  rewrite list_lookup_fmap, Hb in Hids. simpl in Hids. symmetry in Hids.
  apply lookup_seq in Hids as [Hi Hlt]. lia.
Qed.

Lemma rewriteContext_plain bs ctx :
  originalId <$> bs = seq 1 (length bs) ->
  plain_context (length bs) ctx ->
  rewriteContext (build_idMap bs) ctx = ctx.
Proof.
  intros Hids. unfold plain_context.
  destruct (Parse_total _ contextRegex_sound ctx) as (cs & tl & HP).
  rewrite (exec_all_Parse _ contextRegex_sound _ _ _ HP). intros Hpl.
  rewrite (rewriteContext_Parse _ _ _ _ HP), render_remap_chunk.
  etrans; [|apply (Parse_render _ _ _ _ HP)]. apply render_ext.
  apply (Forall_located
           (fun w g => 1 <= parseInt g <= length bs -> w = atBlank (parseInt g)))
    in Hpl.
  eapply Forall_impl; [exact Hpl|]. intros c Hc. simpl in Hc.
  unfold contextCallback. cbn [as_match m_group m_text].
  rewrite truthy_build_idMap.
  destruct (build_idMap bs !! parseInt (c_group c)) as [n|] eqn:E; [|done].
  apply build_idMap_canonical in E as [-> Hrange]; [|done].
  symmetry. by apply Hc.
Qed.

(** A scenario in normal form goes through post-processing unchanged. *)
Lemma postProcess_normalized sc : normalized sc -> postProcess sc = sc.
Proof.
  intros (Hm & Hs & Hc & Hi).
  destruct (decide (foundBlanks (codeTemplate sc) = [])) as [Hnil|Hbs];
    [by apply postProcess_no_blanks|].
  rewrite (postProcess_blanks sc Hbs).
  pose proof (canonical_markers_ids _ Hm) as Hids.
  rewrite (rewriteTemplate_canonical _ Hm), (rewriteContext_plain _ _ Hids Hc).
  assert (remapSteps (steps sc) (foundBlanks (codeTemplate sc)) = steps sc) as ->;
    [|by destruct sc].
  assert (length (steps sc) = length (foundBlanks (codeTemplate sc))) as Hlen.
  { apply (f_equal length) in Hs. by rewrite !length_fmap, length_seq in Hs. }
  apply list_eq. intros i.
  destruct (steps sc !! i) as [st|] eqn:Hst.
  - rewrite (remapSteps_canonical_lookup _ _ _ _ Hids Hlen Hst).
    rewrite (rewriteInstruction_plain _ _ _ (Hi _ _ Hst)).
    apply (f_equal (fun l => l !! i)) in Hs.
    rewrite !list_lookup_fmap, Hst in Hs. simpl in Hs.
    destruct (seq 1 (length (foundBlanks (codeTemplate sc))) !! i) as [k|] eqn:Hk;
      [|done].
    apply lookup_seq in Hk as [-> _]. injection Hs as Hs.
    rewrite Nat.add_1_r, <- Hs. by destruct st.
  - apply lookup_ge_None. rewrite remapSteps_length, <- Hlen.
    by apply lookup_ge_None.
Qed.

(** What the first pass always achieves: canonical markers and labels. *)
Lemma postProcess_canonical sc :
  foundBlanks (codeTemplate sc) <> [] ->
  canonical_markers (codeTemplate (postProcess sc))
  /\ length (foundBlanks (codeTemplate (postProcess sc)))
     = length (foundBlanks (codeTemplate sc))
  /\ canonical_steps (length (foundBlanks (codeTemplate sc))) (steps (postProcess sc)).
Proof.
  intros Hbs. rewrite (postProcess_blanks sc Hbs). cbn [codeTemplate steps].
  destruct (rewriteTemplate_is_canonical (codeTemplate sc)) as [H1 H2].
  split_and!; [done|done|apply remapSteps_ids].
Qed.

(** Rewriting the context keeps its references to the blanks 1..n plain: a
    rewritten reference is plain, the others are copied. *)
Lemma plain_context_rewrite n idMap ctx :
  plain_context n ctx -> plain_context n (rewriteContext idMap ctx).
Proof.
  unfold plain_context.
  destruct (Parse_total _ contextRegex_sound ctx) as (cs & tl & HP).
  rewrite (exec_all_Parse _ contextRegex_sound _ _ _ HP).
  rewrite (rewriteContext_Parse idMap _ _ _ HP).
  rewrite (exec_all_Parse _ contextRegex_sound _ _ _ (context_rescan idMap _ _ _ HP)).
  intros Hpl.
  apply (Forall_located
           (fun w g => 1 <= parseInt g <= n -> w = atBlank (parseInt g))) in Hpl.
  apply (Forall_located
           (fun w g => 1 <= parseInt g <= n -> w = atBlank (parseInt g))).
  apply Forall_fmap. eapply Forall_impl; [exact Hpl|].
  intros [gap w g] Hc. simpl in Hc. unfold compose.
  destruct (remap_chunk_cases idMap gap w g) as [(k & _ & ->)|[_ ->]]; simpl.
  - intros _. by rewrite parseInt_toString.
  - done.
Qed.

Lemma second_pass_context sc :
  foundBlanks (codeTemplate sc) <> [] ->
  plain_context (length (foundBlanks (codeTemplate sc))) (context sc) ->
  context (postProcess (postProcess sc)) = context (postProcess sc).
Proof.
  intros Hbs Hpl. destruct (postProcess_canonical sc Hbs) as (Hm & Hn & Hs).
  assert (foundBlanks (codeTemplate (postProcess sc)) <> []) as Hbs1.
  { intros E. rewrite E in Hn. destruct (foundBlanks (codeTemplate sc)); done. }
  rewrite (postProcess_blanks _ Hbs1). cbn [context].
  apply rewriteContext_plain; [by apply canonical_markers_ids|].
  rewrite Hn, (postProcess_blanks sc Hbs). cbn [context].
  by apply plain_context_rewrite.
Qed.

Lemma second_pass_fields sc :
  foundBlanks (codeTemplate sc) <> [] ->
  codeTemplate (postProcess (postProcess sc)) = codeTemplate (postProcess sc)
  /\ step_id <$> steps (postProcess (postProcess sc))
     = step_id <$> steps (postProcess sc)
  /\ expectedAnswer <$> steps (postProcess (postProcess sc))
     = expectedAnswer <$> steps (postProcess sc)
  /\ outputSimulation <$> steps (postProcess (postProcess sc))
     = outputSimulation <$> steps (postProcess sc).
Proof.
  intros Hbs. destruct (postProcess_canonical sc Hbs) as (Hm & Hn & Hs).
  set (sc1 := postProcess sc) in *.
  assert (foundBlanks (codeTemplate sc1) <> []) as Hbs1.
  { intros E. rewrite E in Hn. destruct (foundBlanks (codeTemplate sc)); done. }
  pose proof (canonical_markers_ids _ Hm) as Hids.
  assert (length (steps sc1) = length (foundBlanks (codeTemplate sc1))) as Hlen.
  { apply (f_equal length) in Hs. rewrite !length_fmap, length_seq in Hs. lia. }
  rewrite (postProcess_blanks sc1 Hbs1). cbn [codeTemplate steps].
  split_and!.
  - by apply rewriteTemplate_canonical.
  - by rewrite remapSteps_ids, Hn, Hs.
  - apply list_eq. intros i. rewrite !list_lookup_fmap.
    destruct (steps sc1 !! i) as [st|] eqn:Hst.
    + by rewrite (remapSteps_canonical_lookup _ _ _ _ Hids Hlen Hst).
    + replace (remapSteps (steps sc1) (foundBlanks (codeTemplate sc1)) !! i)
        with (@None LogicStep); [done|].
      symmetry. apply lookup_ge_None. rewrite remapSteps_length, <- Hlen.
      by apply lookup_ge_None.
  - apply list_eq. intros i. rewrite !list_lookup_fmap.
    destruct (steps sc1 !! i) as [st|] eqn:Hst.
    + by rewrite (remapSteps_canonical_lookup _ _ _ _ Hids Hlen Hst).
    + replace (remapSteps (steps sc1) (foundBlanks (codeTemplate sc1)) !! i)
        with (@None LogicStep); [done|].
      symmetry. apply lookup_ge_None. rewrite remapSteps_length, <- Hlen.
      by apply lookup_ge_None.
Qed.

Example twice_example_passes :
  instruction <$> steps (postProcess twice_example) = [lit "as at blank 1"; lit "x"]
  /\ instruction <$> steps (postProcess (postProcess twice_example))
     = [lit "as At Blank 1"; lit "x"].
Proof. vm_compute. done. Qed.

(** ** Plainly written references *)

Lemma plain_heads_suffix u s : plain_heads (u ++ s) -> plain_heads s.
Proof.
  intros H v r n r' -> Hh. apply (H (u ++ v) r n r'); [|done].
  by rewrite <- (assoc_L (++)).
Qed.

Lemma at_blank_head_take r n r' :
  at_blank_head r = Some (n, r') ->
  at_blank_prefix (take n r) /\ r = take n r ++ r' /\ stops is_space r'.
Proof.
  intros (h & Hh & -> & -> & Hs)%at_blank_head_Some.
  by rewrite take_app_length.
Qed.

Lemma at_blank_prefix_last_space h l x :
  at_blank_prefix h -> h = l ++ [x] -> is_space x = true.
Proof.
  intros (a & ws1 & b & ws2 & -> & _ & _ & _ & [Hn Hf]) Heq.
  apply (f_equal last) in Heq. rewrite last_snoc, !last_app in Heq.
  destruct (last ws2) as [y|] eqn:El; [|by apply last_None in El].
  injection Heq as ->. apply last_Some_elem_of in El.
  rewrite Forall_forall in Hf. by apply Hf.
Qed.

Lemma at_blank_prefix_no_inner_at h g x y k :
  at_blank_prefix h -> g <> [] -> is_A x = true -> is_T y = true ->
  h <> g ++ x :: y :: k.
Proof.
  intros Hh Hg Hx Hy Heq.
  apply (reference_no_inner_at h [] g x y k); try done.
  by rewrite app_nil_r.
Qed.

(** A head that matches in front of a reference lies wholly in front of it. *)
Lemma head_before_reference k x y z h r0 :
  k <> [] -> is_A x = true -> is_T y = true ->
  at_blank_prefix h -> k ++ x :: y :: z = h ++ r0 ->
  exists k2, k = h ++ k2 /\ r0 = k2 ++ x :: y :: z.
Proof.
  intros Hk Hx Hy Hh Heq.
  apply app_eq_inv in Heq as [(k2 & -> & ->)|(k3 & -> & Hk3)]; [by exists k2|].
  destruct k3 as [|a [|b k3]]; simpl in Hk3.
  - exists []. by rewrite !app_nil_r.
  - injection Hk3 as <- _. exfalso.
    pose proof (at_blank_prefix_last_space _ _ _ Hh eq_refl) as Hsp.
    apply is_A_cases in Hx as [->| ->]; done.
  - injection Hk3 as <- <- _. exfalso.
    by apply (at_blank_prefix_no_inner_at _ k x y k3 Hh).
Qed.

Lemma stops_space_A x r : is_A x = true -> stops is_space (x :: r).
Proof. intros [->| ->]%is_A_cases; done. Qed.

Lemma stops_app_cons cls (k : jsstring) x r r' :
  stops cls (k ++ x :: r) -> cls x = false -> stops cls (k ++ x :: r').
Proof. destruct k; simpl; done. Qed.

(** Rewriting the header references of an instruction keeps every head
    plain. *)
Lemma plain_heads_render d c s cs tl :
  Parse (headerRegex d) s cs tl ->
  plain_heads s -> plain_heads (render (fun _ => atBlank c) cs tl).
Proof.
  induction 1 as [tl Hs|gap w g rest cs tl Hq Hw Hne HP IH]; [done|].
  intros Hpl. cbn [render c_gap].
  set (rest' := render (fun _ => atBlank c) cs tl) in *.
  assert (plain_heads rest') as Hrest.
  { apply IH. apply (plain_heads_suffix (gap ++ w)).
    by rewrite <- (assoc_L (++)). }
  apply headerRegex_Some in Hw as (_ & hw & rw & Hhw & Heqw & Hlenw).
  apply app_inj_1 in Heqw as [-> <-]; [|done].
  destruct (at_blank_prefix_head hw Hhw) as (xw & yw & kw & -> & Hxw & Hyw).
  destruct (atBlank_head c) as (zc & Hzc).
  assert (at_blank_head (atBlank c ++ rest') = Some (length AT_BLANK_, toString c ++ rest'))
    as Htok.
  { unfold atBlank. rewrite <- (assoc_L (++)).
    apply at_blank_head_prefix; [apply at_blank_prefix_AT_BLANK_|].
    apply stops_space_digits, toString_is_digits. }
  intros u r n r0 Heq Hh.
  pose proof (at_blank_head_take _ _ _ Hh) as (Hhd & Hr & Hstop).
  apply app_eq_inv in Heq as [(k & Hgap & Hrk)|(k & Hu & Hk)].
  - (* the head starts in the gap, or with the new reference *)
    destruct (decide (k = [])) as [->|Hkne].
    + rewrite app_nil_l in Hrk. subst r. rewrite Htok in Hh.
      injection Hh as <- _.
      unfold atBlank. rewrite <- (assoc_L (++)). by apply take_app_length'.
    + rewrite Hr, Hzc in Hrk. symmetry in Hrk. simpl in Hrk.
      destruct (head_before_reference k 65%N 116%N (zc ++ rest') (take n r) r0)
        as (k2 & Hk2 & Hr0); try done.
      assert (at_blank_head
                (take n r ++ k2 ++ ((xw :: yw :: kw) ++ toString d) ++ rest)
              = Some (length (take n r),
                      k2 ++ ((xw :: yw :: kw) ++ toString d) ++ rest))
        as Horig.
      { apply at_blank_head_prefix; [done|]. rewrite Hr0 in Hstop.
        destruct k2 as [|a k2]; [|done]. simpl.
        by apply (stops_space_A xw). }
      apply (Hpl u) in Horig.
      * rewrite take_app_length in Horig. done.
      * rewrite Hgap, Hk2. by rewrite <- !(assoc_L (++)).
  - (* the head starts in the new reference or after it *)
    symmetry in Hk.
    apply app_eq_inv in Hk as [(k4 & -> & Hrest4)|(k2 & Htk & Hrk2)].
    + by apply (Hrest k4 r n r0).
    + destruct k2 as [|x k2].
      * simpl in Hrk2. subst r. by apply (Hrest [] rest' n r0).
      * destruct (decide (k = [])) as [->|Hkne].
        -- rewrite app_nil_l in Htk. rewrite Hrk2, <- Htk in Hh.
           rewrite Htok in Hh.
           injection Hh as <- _. rewrite Hrk2, <- Htk.
           unfold atBlank. rewrite <- (assoc_L (++)). by apply take_app_length'.
        -- exfalso.
           destruct (at_blank_prefix_head _ Hhd) as (x' & y' & k' & Hk' & Hx' & Hy').
           rewrite Hr, Hk' in Hrk2. simpl in Hrk2. injection Hrk2 as <- Hrk2.
           destruct k2 as [|y k2].
           ++ apply (digits_last_not_A AT_BLANK_ (toString c) k x');
                [apply toString_is_digits|done|done].
           ++ simpl in Hrk2. injection Hrk2 as <- _.
              apply (reference_no_inner_at AT_BLANK_ (toString c) k x' y' k2);
                auto using at_blank_prefix_AT_BLANK_, toString_digits.
Qed.

Lemma plain_heads_rewriteInstruction d c ins :
  plain_heads ins -> plain_heads (rewriteInstruction d c ins).
Proof.
  destruct (Parse_total _ (headerRegex_sound d) ins) as (cs & tl & HP).
  rewrite (rewriteInstruction_Parse _ _ _ _ _ HP).
  by apply (plain_heads_render d c ins).
Qed.

(** In a text whose heads are plain, the header references are spelled
    "At Blank N". *)
Lemma plain_heads_header d ins :
  plain_heads ins ->
  Forall (fun m => m_text m = atBlank d) (exec_all (headerRegex d) ins).
Proof.
  destruct (Parse_total _ (headerRegex_sound d) ins) as (cs & tl & HP).
  rewrite (exec_all_Parse _ (headerRegex_sound d) _ _ _ HP). intros Hpl.
  apply (Forall_located (fun w _ => w = atBlank d)).
  induction HP as [tl Hs|gap w g rest cs tl Hq Hw Hne HP IH]; constructor.
  - simpl. apply headerRegex_Some in Hw as (_ & h & r & Hh & Heq & Hlen).
    apply app_inj_1 in Heq as [-> <-]; [|done].
    assert (at_blank_head ((h ++ toString d) ++ rest)
            = Some (length h, toString d ++ rest)) as Hhead.
    { rewrite <- (assoc_L (++)). apply at_blank_head_prefix; [done|].
      apply stops_space_digits, toString_is_digits. }
    apply (Hpl gap) in Hhead; [|done].
    rewrite <- (assoc_L (++)), take_app_length in Hhead. by rewrite Hhead.
  - apply IH. apply (plain_heads_suffix (gap ++ w)).
    by rewrite <- (assoc_L (++)).
Qed.

Lemma silent_plain_heads s : silent at_blank_head s -> plain_heads s.
Proof. intros Hs u r n r' -> Hh. by rewrite (Hs u r) in Hh. Qed.

Lemma plain_heads_missing n : plain_heads (instruction (missingStep n)).
Proof.
  apply silent_plain_heads. cbn [instruction missingStep].
  repeat (apply silent_cons; split; [reflexivity|]).
  intros s1 s2 H. symmetry in H. by apply app_eq_nil in H as [_ ->].
Qed.

Lemma plain_headsb_correct s : plain_headsb s = true -> plain_heads s.
Proof.
  induction s as [|c s IH]; intros H u r n r' Heq Hh.
  - symmetry in Heq. apply app_eq_nil in Heq as [_ ->]. done.
  - cbn [plain_headsb] in H. apply andb_true_iff in H as [H1 H2].
    destruct u as [|c' u]; simpl in Heq.
    + subst r. rewrite Hh in H1. by apply bool_decide_eq_true in H1.
    + injection Heq as _ Heq. by apply (IH H2 u r n r').
Qed.

(** A second pass changes nothing when the references of the input are
    written plainly. *)
Lemma second_pass_plain sc :
  foundBlanks (codeTemplate sc) <> [] ->
  plain_context (length (foundBlanks (codeTemplate sc))) (context sc) ->
  (forall st, st ∈ steps sc -> plain_heads (instruction st)) ->
  postProcess (postProcess sc) = postProcess sc.
Proof.
  intros Hbs Hctx Hins. apply postProcess_normalized.
  destruct (postProcess_canonical sc Hbs) as (Hm & Hn & Hs).
  split_and!; [done|by rewrite Hn| |].
  - rewrite Hn, (postProcess_blanks sc Hbs). cbn [context].
    by apply plain_context_rewrite.
  - rewrite (postProcess_blanks sc Hbs). cbn [steps]. intros i st'.
    rewrite remapSteps_imap, list_lookup_imap.
    destruct (foundBlanks (codeTemplate sc) !! i) as [b|]; [|done].
    intros [= <-]. apply plain_heads_header. unfold relocate.
    destruct (oldStep (steps sc) (originalId b)) as [st|] eqn:Hst.
    + cbn [instruction]. apply plain_heads_rewriteInstruction, Hins.
      destruct (originalId b) as [|k]; [done|]. simpl in Hst.
      by eapply list_elem_of_lookup_2.
    + apply plain_heads_missing.
Qed.

(** * The properties of the pipeline *)




(** C2. When the template holds at least one marker, the new step list has
    one element per marker, and the position of each marker (its canonical
    index minus one) holds the step that stood at the marker's declared
    index minus one, with its identifier rewritten to "step_" followed by
    the canonical index, its instruction passed through the reference
    rewriter, and its answer and output untouched. For the physical declared
    order 3, 1, 2 the positions 0, 1 and 2 hold the steps tagged 3, 1 and
    2. *)
Theorem C2_steps_follow_markers :
  (forall sc : LogicScenario,
     foundBlanks (codeTemplate sc) <> [] ->
     length (steps (postProcess sc)) = length (foundBlanks (codeTemplate sc))
     /\ forall i b st,
          foundBlanks (codeTemplate sc) !! i = Some b ->
          oldStep (steps sc) (originalId b) = Some st ->
          steps (postProcess sc) !! i
          = Some {| step_id := STEP_ ++ toString (i + 1);
                    instruction :=
                      rewriteInstruction (originalId b) (i + 1) (instruction st);
                    expectedAnswer := expectedAnswer st;
                    outputSimulation := outputSimulation st |})
  /\ (originalId <$> foundBlanks (codeTemplate scrambled_example) = [3; 1; 2]
      /\ expectedAnswer <$> steps scrambled_example = [lit "a1"; lit "a2"; lit "a3"]
      /\ expectedAnswer <$> steps (postProcess scrambled_example)
         = [lit "a3"; lit "a1"; lit "a2"]
      /\ step_id <$> steps (postProcess scrambled_example)
         = [lit "step_1"; lit "step_2"; lit "step_3"]).
Proof.
  split; [|vm_compute; done].
  intros sc Hbs. rewrite (postProcess_blanks sc Hbs). cbn [steps].
  split; [apply remapSteps_length|].
  intros i b st Hi Hst. rewrite (remapSteps_lookup _ _ _ _ Hi).
  unfold relocate. by rewrite Hst.
Qed.

(** The general statement on the scenario with declared order 3, 1, 2. *)
Lemma C2_steps_follow_markers_witness :
  foundBlanks (codeTemplate scrambled_example) <> []
  /\ length (steps (postProcess scrambled_example))
     = length (foundBlanks (codeTemplate scrambled_example))
  /\ forall i b st,
       foundBlanks (codeTemplate scrambled_example) !! i = Some b ->
       oldStep (steps scrambled_example) (originalId b) = Some st ->
       steps (postProcess scrambled_example) !! i
       = Some {| step_id := STEP_ ++ toString (i + 1);
                 instruction :=
                   rewriteInstruction (originalId b) (i + 1) (instruction st);
                 expectedAnswer := expectedAnswer st;
                 outputSimulation := outputSimulation st |}.
Proof.
  assert (foundBlanks (codeTemplate scrambled_example) <> []) as H
    by (vm_compute; discriminate).
  split; [exact H|].
  exact (proj1 C2_steps_follow_markers scrambled_example H).
Defined.




(** C4 as worded fails: the step relocated from declared index 2 to canonical
    index 1 keeps its instruction "Fill Blank 2 now", which the claim
    rewrites to "Fill Blank 1 now". *)
Lemma C4_counterexample :
  originalId <$> foundBlanks (codeTemplate plain_example) = [2; 1]
  /\ instruction <$> steps plain_example !! 1 = Some (lit "Fill Blank 2 now")
  /\ wordedInstruction 2 1 (lit "Fill Blank 2 now") = lit "Fill Blank 1 now"
  /\ instruction <$> steps (postProcess plain_example) !! 0
     = Some (lit "Fill Blank 2 now")
  /\ instruction <$> steps (postProcess plain_example) !! 0
     <> Some (wordedInstruction 2 1 (lit "Fill Blank 2 now")).
Proof. vm_compute. split_and!; done. Qed.

(** C4, as amended. For a step relocated from declared index d to canonical
    index c, the instruction is cut at the matches of "At", white space,
    "Blank", white space and the digits of d, in any letter case; each match
    is replaced by "At Blank " and c, and no other character changes. *)
Theorem C4_instruction_references_rewritten
    (sc : LogicScenario) (i : nat) (b : blank) (st : LogicStep) :
  foundBlanks (codeTemplate sc) !! i = Some b ->
  oldStep (steps sc) (originalId b) = Some st ->
  exists st' cs tl,
    steps (postProcess sc) !! i = Some st'
    /\ Parse (headerRegex (originalId b)) (instruction st) cs tl
    /\ Forall (fun c => reference (toString (originalId b)) (c_text c)) cs
    /\ Forall (fun c => reference_free (fun ds => ds = toString (originalId b))
                          (c_gap c)) cs
    /\ reference_free (fun ds => ds = toString (originalId b)) tl
    /\ instruction st = render c_text cs tl
    /\ instruction st' = render (fun _ => AT_BLANK_ ++ toString (i + 1)) cs tl.
Proof.
  intros Hi Hst.
  assert (foundBlanks (codeTemplate sc) <> []) as Hbs by (by intros E; rewrite E in Hi).
  rewrite (postProcess_blanks sc Hbs). cbn [steps].
  rewrite (remapSteps_lookup _ _ _ _ Hi). unfold relocate. rewrite Hst.
  destruct (Parse_total _ (headerRegex_sound (originalId b)) (instruction st))
    as (cs & tl & HP).
  destruct (Parse_header_reference_free _ _ _ _ HP) as [Hg Ht].
  eexists _, cs, tl.
  split_and!; [done|done|by eapply Parse_header_chunks|done|done| |].
  - symmetry. by eapply Parse_render.
  - cbn [instruction]. by apply rewriteInstruction_Parse.
Qed.

(** The statement on the step that moves from declared index 2 to the first
    position. *)
Lemma C4_instruction_references_rewritten_witness :
  exists st' cs tl,
    steps (postProcess at_example) !! 0 = Some st'
    /\ Parse (headerRegex 2) (lit "at blank 2: second") cs tl
    /\ Forall (fun c => reference (toString 2) (c_text c)) cs
    /\ Forall (fun c => reference_free (fun ds => ds = toString 2) (c_gap c)) cs
    /\ reference_free (fun ds => ds = toString 2) tl
    /\ lit "at blank 2: second" = render c_text cs tl
    /\ instruction st' = render (fun _ => AT_BLANK_ ++ toString (0 + 1)) cs tl.
Proof.
  apply (C4_instruction_references_rewritten at_example 0
           {| originalId := 2; index := 2; marker := lit "___BLANK_2___" |}
           (mkStep "step_2" "at blank 2: second" "a2"));
    vm_compute; reflexivity.
Defined.

(** C5. The template rewriter only touches the marker spans: the old and the
    new template are cut by their markers into the very same stretches of
    text (same gaps in front of the markers, same tail), so that stripping
    the markers from both gives the same string. *)
Theorem C5_template_text_preserved (sc : LogicScenario) :
  stripMarkers (codeTemplate (postProcess sc)) = stripMarkers (codeTemplate sc)
  /\ exists cs cs' tl,
       Parse blank_regex (codeTemplate sc) cs tl
       /\ Parse blank_regex (codeTemplate (postProcess sc)) cs' tl
       /\ c_gap <$> cs' = c_gap <$> cs.
Proof.
  destruct (Parse_total _ blank_regex_sound (codeTemplate sc)) as (cs & tl & HP).
  destruct (decide (foundBlanks (codeTemplate sc) = [])) as [Hnil|Hbs].
  - rewrite (postProcess_no_blanks sc Hnil). split; [done|]. by exists cs, cs, tl.
  - rewrite (postProcess_blanks sc Hbs). cbn [codeTemplate].
    rewrite (rewriteTemplate_Parse _ _ _ HP).
    pose proof (blank_rescan _ _ _ HP 0) as HP'.
    split.
    + rewrite (stripMarkers_Parse _ _ _ HP), (stripMarkers_Parse _ _ _ HP').
      apply render_nil_gaps, renumber_gaps.
    + exists cs, (renumber 0 cs), tl. split_and!; [done|done|].
      apply renumber_gaps.
Qed.

(** C6. When the declared index of a marker addresses no step, assembly goes
    on and the position of that marker holds the fixed placeholder step; the
    step list still has one element per marker. A template with three
    markers and two steps gives three steps, the third being the
    placeholder. *)
Theorem C6_missing_step_placeholder :
  (forall (sc : LogicScenario) (i : nat) (b : blank),
     foundBlanks (codeTemplate sc) !! i = Some b ->
     oldStep (steps sc) (originalId b) = None ->
     length (steps (postProcess sc)) = length (foundBlanks (codeTemplate sc))
     /\ steps (postProcess sc) !! i
        = Some {| step_id := STEP_ ++ toString (i + 1);
                  instruction := lit "Missing step definition.";
                  expectedAnswer := lit "???";
                  outputSimulation := [] |})
  /\ (length (foundBlanks (codeTemplate short_example)) = 3
      /\ length (steps short_example) = 2
      /\ length (steps (postProcess short_example)) = 3
      /\ steps (postProcess short_example) !! 2
         = Some (mkStep "step_3" "Missing step definition." "???")).
Proof.
  split; [|vm_compute; done].
  intros sc i b Hi Hst.
  assert (foundBlanks (codeTemplate sc) <> []) as Hbs by (by intros E; rewrite E in Hi).
  rewrite (postProcess_blanks sc Hbs). cbn [steps].
  split; [apply remapSteps_length|].
  rewrite (remapSteps_lookup _ _ _ _ Hi). unfold relocate. by rewrite Hst.
Qed.

(** The general statement on the third marker of a scenario with two
    steps. *)
Lemma C6_missing_step_placeholder_witness :
  length (steps (postProcess short_example))
  = length (foundBlanks (codeTemplate short_example))
  /\ steps (postProcess short_example) !! 2
     = Some {| step_id := STEP_ ++ toString (2 + 1);
               instruction := lit "Missing step definition.";
               expectedAnswer := lit "???";
               outputSimulation := [] |}.
Proof.
  apply (proj1 C6_missing_step_placeholder short_example 2
           {| originalId := 3; index := 34; marker := lit "___BLANK_3___" |});
    vm_compute; reflexivity.
Defined.

(** C7 as worded fails: inputs whose declared indices are 1, 2, ... in order
    are changed (another step label, a marker with a leading zero, a
    reference in lower case), and a second pass changes an assembled
    scenario whose step mentions another blank in lower case. *)
Lemma C7_counterexample :
  (* ascending, contiguous indices, yet the steps change *)
  (originalId <$> foundBlanks (codeTemplate named_example) = seq 1 1
   /\ steps (postProcess named_example) <> steps named_example)
  (* ascending, contiguous indices, yet the template changes *)
  /\ (originalId <$> foundBlanks (codeTemplate padded_example) = seq 1 1
      /\ codeTemplate (postProcess padded_example) <> codeTemplate padded_example)
  (* ascending, contiguous indices, yet the context changes *)
  /\ (originalId <$> foundBlanks (codeTemplate lower_example) = seq 1 1
      /\ context (postProcess lower_example) <> context lower_example)
  (* a second pass changes an assembled scenario *)
  /\ postProcess (postProcess twice_example) <> postProcess twice_example.
Proof. vm_compute. split_and!; (done || discriminate). Qed.

(** C7, as amended. A scenario without markers is returned unchanged. A
    scenario in normal form (markers written ___BLANK_1___ ... ___BLANK_n___
    in order, n steps labelled step_1 ... step_n, references of the context
    to the blanks 1..n and of each step to its own blank written
    "At Blank N") is returned unchanged. On any assembled scenario a second
    pass leaves the template, the step labels, the expected answers and the
    output simulations as they are. It leaves the context as it is when the
    references of the input context to the blanks 1..n were written
    "At Blank N", and the whole scenario as it is when, moreover, every
    "At Blank" of the input instructions was written so; more generally it
    leaves the whole scenario as it is when the references of the assembled
    context and instructions are written "At Blank N". *)
Theorem C7_identity_and_second_pass (sc : LogicScenario) :
  (foundBlanks (codeTemplate sc) = [] -> postProcess sc = sc)
  /\ (normalized sc -> postProcess sc = sc)
  /\ codeTemplate (postProcess (postProcess sc)) = codeTemplate (postProcess sc)
  /\ step_id <$> steps (postProcess (postProcess sc))
     = step_id <$> steps (postProcess sc)
  /\ expectedAnswer <$> steps (postProcess (postProcess sc))
     = expectedAnswer <$> steps (postProcess sc)
  /\ outputSimulation <$> steps (postProcess (postProcess sc))
     = outputSimulation <$> steps (postProcess sc)
  /\ (plain_context (length (foundBlanks (codeTemplate sc))) (context sc) ->
      context (postProcess (postProcess sc)) = context (postProcess sc))
  /\ (plain_context (length (foundBlanks (codeTemplate sc))) (context sc) ->
      (forall st, st ∈ steps sc -> plain_heads (instruction st)) ->
      postProcess (postProcess sc) = postProcess sc)
  /\ (plain_context (length (foundBlanks (codeTemplate (postProcess sc))))
        (context (postProcess sc)) ->
      plain_instructions (steps (postProcess sc)) ->
      postProcess (postProcess sc) = postProcess sc).
Proof.
  split; [apply postProcess_no_blanks|].
  split; [apply postProcess_normalized|].
  destruct (decide (foundBlanks (codeTemplate sc) = [])) as [Hnil|Hbs].
  - rewrite !(postProcess_no_blanks sc Hnil). by split_and!.
  - destruct (second_pass_fields sc Hbs) as (H1 & H2 & H3 & H4).
    split_and!; try done.
    + by apply second_pass_context.
    + by apply second_pass_plain.
    + intros Hc Hi. apply postProcess_normalized.
      destruct (postProcess_canonical sc Hbs) as (Hm & Hn & Hs).
      split_and!; [done| |done|done]. by rewrite Hn.
Qed.

(** Each premise of the statement on a scenario that meets it: a template
    without markers, an assembled scenario in normal form, and an input
    with scrambled markers whose references are written plainly. *)
Lemma C7_identity_and_second_pass_witness :
  (foundBlanks (codeTemplate bare_example) = []
   /\ postProcess bare_example = bare_example)
  /\ (normalized (postProcess at_example)
      /\ postProcess (postProcess at_example) = postProcess at_example)
  /\ ((plain_context (length (foundBlanks (codeTemplate scrambled_example)))
         (context scrambled_example)
       /\ forall st, st ∈ steps scrambled_example -> plain_heads (instruction st))
      /\ context (postProcess (postProcess scrambled_example))
         = context (postProcess scrambled_example)
      /\ postProcess (postProcess scrambled_example) = postProcess scrambled_example).
Proof.
  assert (foundBlanks (codeTemplate bare_example) = []) as H1
    by (vm_compute; reflexivity).
  assert (normalized (postProcess at_example)) as H2.
  { split_and!.
    - vm_compute. reflexivity.
    - vm_compute. reflexivity.
    - vm_compute. repeat constructor.
    - intros [|[|i]] st Hst; vm_compute in Hst; [| |discriminate];
        injection Hst as <-; vm_compute; repeat constructor. }
  assert (plain_context (length (foundBlanks (codeTemplate scrambled_example)))
            (context scrambled_example)) as H3
    by (vm_compute; repeat constructor).
  assert (forall st, st ∈ steps scrambled_example -> plain_heads (instruction st))
    as H4.
  { intros st Hst. apply plain_headsb_correct.
    cbn [steps scrambled_example mkScenario] in Hst.
    rewrite !elem_of_cons, elem_of_nil in Hst.
    destruct Hst as [->|[->|[->|[]]]]; vm_compute; reflexivity. }
  pose proof (C7_identity_and_second_pass bare_example) as (T1 & _).
  pose proof (C7_identity_and_second_pass (postProcess at_example)) as (_ & T2 & _).
  pose proof (C7_identity_and_second_pass scrambled_example)
    as (_ & _ & _ & _ & _ & _ & T7 & T8 & _).
  split; [split; [exact H1|exact (T1 H1)]|].
  split; [split; [exact H2|exact (T2 H2)]|].
  split; [split; [exact H3|exact H4]|].
  split; [exact (T7 H3)|exact (T8 H3 H4)].
Defined.



(** C10. Post-processing leaves the identifier, title, description,
    difficulty and environment of the scenario as they were assembled from
    the configuration. *)
Theorem C10_config_fields_untouched (config : AIScenarioConfig) (generated : Generated) :
  id (postProcess (assembleScenario config generated)) = cfg_id config
  /\ title (postProcess (assembleScenario config generated)) = cfg_title config
  /\ description (postProcess (assembleScenario config generated))
     = cfg_description config
  /\ difficulty (postProcess (assembleScenario config generated))
     = cfg_difficulty config
  /\ environment (postProcess (assembleScenario config generated))
     = cfg_environment config.
Proof.
  assert (forall s, id (postProcess s) = id s /\ title (postProcess s) = title s
            /\ description (postProcess s) = description s
            /\ difficulty (postProcess s) = difficulty s
            /\ environment (postProcess s) = environment s) as H.
  { intros s. unfold postProcess. destruct (codeTemplate s); [done|].
    destruct (foundBlanks _); done. }
  apply (H (assembleScenario config generated)).
Qed.

(** * Verification of the code around the pipeline *)

(** ** The parts of the code view *)

Lemma parts_loop_Parse s cs tl :
  Parse blank_regex s cs tl ->
  forall t pos parts,
    drop pos t = s ->
    parts_loop t (located pos cs) pos parts
    = (parts ++ (cs ≫= parts_of_chunk), pos + (length s - length tl)).
Proof.
  induction 1 as [tl Hs|gap w g rest cs tl Hq Hw Hne HP IH]; intros t pos parts Hd.
  - simpl. rewrite app_nil_r. f_equal. lia.
  - cbn [located parts_loop m_index m_text m_group c_gap c_text c_group].
    rewrite IH by (by apply drop_past).
    assert (length tl <= length rest) as Hle.
    { clear -HP. induction HP; [done|]. rewrite !length_app. lia. }
    f_equal.
    + cbn [mbind list_bind]. unfold parts_of_chunk at 2.
      cbn [c_gap c_text c_group].
      destruct gap as [|c gap].
      * rewrite Nat.add_0_r, Nat.ltb_irrefl. simpl. by rewrite <- !(assoc_L (++)).
      * assert ((pos <? pos + length (c :: gap)) = true) as -> by (apply Nat.ltb_lt; simpl; lia).
        unfold slice. rewrite Hd.
        replace (pos + length (c :: gap) - pos) with (length (c :: gap)) by lia.
        rewrite take_app_length. by rewrite <- !(assoc_L (++)).
    + rewrite !length_app. lia.
Qed.

Lemma Parse_tail_length (mt : matcher) s cs tl : Parse mt s cs tl -> length tl <= length s.
Proof. induction 1; [done|]. rewrite !length_app. lia. Qed.

Lemma Parse_tail_drop (mt : matcher) s cs tl :
  Parse mt s cs tl -> drop (length s - length tl) s = tl.
Proof.
  induction 1 as [tl Hs|gap w g rest cs tl Hq Hw Hne HP IH].
  - by rewrite Nat.sub_diag.
  - pose proof (Parse_tail_length _ _ _ _ HP).
    rewrite (assoc_L (++)).
    replace (length ((gap ++ w) ++ rest) - length tl)
      with (length (gap ++ w) + (length rest - length tl))
      by (rewrite !length_app; lia).
    by rewrite drop_app_add.
Qed.

Lemma templateParts_Parse t cs tl :
  Parse blank_regex t cs tl -> templateParts t = parts_of cs tl.
Proof.
  intros HP. unfold templateParts.
  rewrite (exec_all_Parse _ blank_regex_sound _ _ _ HP).
  rewrite (parts_loop_Parse _ _ _ HP t 0 []) by apply drop_0.
  pose proof (Parse_tail_length _ _ _ _ HP) as Hle.
  pose proof (Parse_tail_drop _ _ _ _ HP) as Hd.
  cbn [app]. unfold parts_of. destruct tl as [|c tl].
  - simpl in *. rewrite Nat.sub_0_r, Nat.ltb_irrefl. by rewrite app_nil_r.
  - assert ((0 + (length t - length (c :: tl)) <? length t) = true) as ->.
    { apply Nat.ltb_lt. simpl in *. lia. }
    by rewrite Nat.add_0_l, Hd.
Qed.


Lemma parts_of_blanks cs tl :
  blanks_of (parts_of cs tl)
  = (fun c => (c_text c, Z.of_nat (parseInt (c_group c)) - 1)%Z) <$> cs.
Proof.
  unfold parts_of, blanks_of. rewrite omap_app.
  assert (omap (fun p => match p with
                         | blank_part c i => Some (c, i)
                         | text_part _ => None
                         end)
            match tl with [] => [] | _ :: _ => [text_part tl] end = []) as ->
    by (by destruct tl).
  rewrite app_nil_r. induction cs as [|c cs IH]; [done|].
  cbn [mbind list_bind fmap list_fmap]. rewrite omap_app, IH.
  unfold parts_of_chunk. by destruct (c_gap c).
Qed.


Lemma templateParts_blanks t :
  blanks_of (templateParts t)
  = (fun b => (marker b, Z.of_nat (originalId b) - 1)%Z) <$> foundBlanks t.
Proof.
  destruct (Parse_total _ blank_regex_sound t) as (cs & tl & HP).
  rewrite (templateParts_Parse _ _ _ HP).
  rewrite parts_of_blanks, (foundBlanks_Parse _ _ _ HP).
  rewrite <- list_fmap_compose. clear HP. generalize 0.
  induction cs as [|c cs IH]; intros pos; [done|].
  cbn [located fmap list_fmap]. by rewrite <- IH.
Qed.

Lemma seq_pred n :
  (fun x => Z.of_nat x - 1)%Z <$> seq 1 n = Z.of_nat <$> seq 0 n.
Proof.
  generalize 0. induction n as [|n IH]; intros k; [done|].
  cbn [seq fmap list_fmap]. f_equal; [lia|]. apply IH.
Qed.

Lemma imap_fst {A B} (f : nat -> A -> B) (l : list A) k :
  (imap (fun i x => (k + i, f (k + i) x)) l).*1 = seq k (length l).
Proof.
  revert k. induction l as [|x l IH]; intros k; [done|].
  simpl. rewrite Nat.add_0_r. f_equal.
  rewrite <- (IH (S k)). f_equal. apply imap_ext. intros i y _. simpl.
  by replace (k + S i) with (S (k + i)) by lia.
Qed.

Lemma inputs_postProcess sc :
  codeTemplate (postProcess sc) = [] \/ foundBlanks (codeTemplate (postProcess sc)) <> [] ->
  inputs (renderUnifiedTemplate (postProcess sc))
  = Z.of_nat <$> seq 0 (length (steps (postProcess sc))).
Proof.
  intros H. unfold renderUnifiedTemplate.
  destruct (codeTemplate (postProcess sc)) as [|c t'] eqn:Et.
  - cbn [inputs]. etrans; [exact (list_fmap_compose fst Z.of_nat _)|]. f_equal.
    apply (imap_fst
             (fun idx step =>
                lit "Blank " ++ toString (idx + 1) ++ lit ": " ++ instruction step) _ 0).
  - destruct H as [?|Hne]; [done|].
    cbn [inputs]. rewrite <- Et in *. clear c t' Et.
    rewrite templateParts_blanks.
    rewrite <- list_fmap_compose.
    rewrite (list_fmap_compose originalId (fun x => Z.of_nat x - 1)%Z).
    destruct (decide (foundBlanks (codeTemplate sc) = [])) as [He|Hb].
    + rewrite (postProcess_no_blanks _ He) in Hne. done.
    + rewrite (postProcess_blanks _ Hb). cbn [codeTemplate steps].
      by rewrite rewriteTemplate_rescan, remapSteps_length, seq_pred.
Qed.

(** ** Backtracking *)

Lemma star_greedy cls (k : continuation) pos s e :
  k (pos + length (run cls s)) (drop (length (run cls s)) s) = Some e ->
  star cls k pos s = Some e.
Proof.
  revert pos. induction s as [|c s IH]; intros pos; simpl.
  - by rewrite Nat.add_0_r.
  - destruct (cls c) eqn:Hc; simpl.
    + rewrite <- Nat.add_succ_comm. intros H. by rewrite (IH _ H).
    + by rewrite Nat.add_0_r.
Qed.

Lemma star_longest cls (k : continuation) pos s :
  (forall p c t, cls c = true -> k p (c :: t) = None) ->
  star cls k pos s = k (pos + length (run cls s)) (drop (length (run cls s)) s).
Proof.
  intros Hk. revert pos. induction s as [|c s IH]; intros pos; simpl.
  - by rewrite Nat.add_0_r.
  - destruct (cls c) eqn:Hc; simpl.
    + rewrite IH, <- Nat.add_succ_comm.
      destruct (k _ _) eqn:E; [done|]. by apply Hk.
    + by rewrite Nat.add_0_r.
Qed.

Lemma re_search_found r pos s i e :
  (forall j, j < i -> re_match r final (pos + j) (drop j s) = None) ->
  re_match r final (pos + i) (drop i s) = Some e ->
  i <= length s ->
  re_search r pos s = Some (pos + i, e).
Proof.
  revert pos s. induction i as [|i IH]; intros pos s Hbefore Hat Hlen.
  - rewrite Nat.add_0_r, drop_0 in Hat. destruct s; simpl; fold final; by rewrite Hat, Nat.add_0_r.
  - destruct s as [|c s]; [simpl in Hlen; lia|].
    simpl. fold final.
    pose proof (Hbefore 0 ltac:(lia)) as H0. rewrite Nat.add_0_r, drop_0 in H0.
    rewrite H0. rewrite <- Nat.add_succ_comm. apply IH.
    + intros j Hj. specialize (Hbefore (S j) ltac:(lia)).
      by rewrite <- Nat.add_succ_comm in Hbefore.
    + by rewrite <- Nat.add_succ_comm in Hat.
    + simpl in Hlen. lia.
Qed.

Lemma re_search_Some r pos s p e :
  re_search r pos s = Some (p, e) ->
  exists i, p = pos + i /\ i <= length s
    /\ re_match r final (pos + i) (drop i s) = Some e
    /\ forall j, j < i -> re_match r final (pos + j) (drop j s) = None.
Proof.
  revert pos. induction s as [|c s IH]; intros pos; simpl; fold final.
  - destruct (re_match r final pos []) eqn:E; [|done].
    intros [= <- <-]. exists 0. rewrite Nat.add_0_r. split_and!; [done|done|done|lia].
  - destruct (re_match r final pos (c :: s)) eqn:E.
    + intros [= <- <-]. exists 0. rewrite Nat.add_0_r. split_and!; [done|lia|done|lia].
    + intros H. destruct (IH _ H) as (i & -> & Hi & Hat & Hbefore).
      exists (S i). split_and!; [lia|simpl; lia|by rewrite <- Nat.add_succ_comm| ].
      intros [|j] Hj; [by rewrite Nat.add_0_r|].
      rewrite <- Nat.add_succ_comm. apply Hbefore. lia.
Qed.

Lemma re_search_ext r r' :
  (forall pos s, re_match r final pos s = re_match r' final pos s) ->
  forall pos s, re_search r pos s = re_search r' pos s.
Proof.
  intros H pos s. revert pos. induction s as [|c s IH]; intros pos; simpl; fold final;
    rewrite H; [done|]. by rewrite IH.
Qed.

(** ** White space at the ends *)

Lemma trimStart_run s : trimStart s = drop (length (run is_space s)) s.
Proof. induction s as [|c s IH]; simpl; [done|]. by destruct (is_space c). Qed.

Lemma trimStart_stops s : stops is_space (trimStart s).
Proof. rewrite trimStart_run. apply run_stops. Qed.

Lemma trimStart_id s : stops is_space s -> trimStart s = s.
Proof. destruct s as [|c s]; simpl; [done|]. by intros ->. Qed.

Lemma trimStart_app ws s :
  Forall (fun c => is_space c = true) ws -> trimStart (ws ++ s) = trimStart s.
Proof. induction 1 as [|c ws Hc _ IH]; simpl; [done|]. by rewrite Hc. Qed.

Lemma trimStart_suffix s : exists ws, s = ws ++ trimStart s.
Proof. exists (run is_space s). rewrite trimStart_run. apply run_drop. Qed.

Lemma trimEnd_prefix s : exists ws, s = trimEnd s ++ ws.
Proof.
  destruct (trimStart_suffix (reverse s)) as [ws H].
  exists (reverse ws). unfold trimEnd.
  by rewrite <- reverse_app, <- H, reverse_involutive.
Qed.

Lemma trimEnd_id s : stops is_space (reverse s) -> trimEnd s = s.
Proof. intros H. unfold trimEnd. by rewrite (trimStart_id _ H), reverse_involutive. Qed.

Lemma stops_prefix (s w : jsstring) cls : stops cls (s ++ w) -> stops cls s.
Proof. by destruct s. Qed.

Lemma trim_trimmed s : trimmed (trim s).
Proof.
  unfold trim. split.
  - destruct (trimEnd_prefix (trimStart s)) as [ws H].
    pose proof (trimStart_stops s) as Hs. rewrite H in Hs. by eapply stops_prefix.
  - unfold trimEnd. rewrite reverse_involutive. apply trimStart_stops.
Qed.

Lemma trim_id s : trimmed s -> trim s = s.
Proof. intros [H1 H2]. unfold trim. by rewrite (trimStart_id _ H1), (trimEnd_id _ H2). Qed.

(** ** The fence patterns *)

Lemma space_not_tick c : is_space c = true -> (96 =? c)%N = false.
Proof. intros H. destruct (N.eqb_spec 96 c) as [<-|]; done. Qed.

Lemma closing_space p c t :
  is_space c = true -> re_match (re_seq (re_lit FENCE) re_eos) final p (c :: t) = None.
Proof.
  intros H. cbn [re_match]. unfold FENCE. cbn [strip_prefix].
  by rewrite (space_not_tick _ H).
Qed.

Lemma fenceClose_match pos s :
  re_match fenceClose final pos s
  = if bool_decide (closes s) then Some (pos + length s) else None.
Proof.
  unfold fenceClose. cbn [re_match].
  rewrite star_longest by apply closing_space.
  unfold closes. pose proof (run_drop is_space s) as Hs.
  set (w := run is_space s) in *. set (D := drop (length w) s) in *.
  cbn [re_match].
  destruct (strip_prefix FENCE D) as [s'|] eqn:E.
  - apply strip_prefix_Some in E. destruct s' as [|c s'].
    + rewrite app_nil_r in E. rewrite bool_decide_eq_true_2 by done.
      apply (f_equal length) in Hs. rewrite length_app, E in Hs.
      unfold final. f_equal. lia.
    + rewrite bool_decide_eq_false_2; [done|]. rewrite E. intros H.
      apply (f_equal length) in H. rewrite length_app in H. simpl in H. lia.
  - rewrite bool_decide_eq_false_2; [done|]. intros H. by rewrite H in E.
Qed.

Lemma fenceCloseLine_match pos s :
  re_match fenceCloseLine final pos s = re_match fenceClose final pos s.
Proof.
  unfold fenceCloseLine, fenceClose.
  cbn [re_match]. destruct s as [|c s]; [done|].
  cbn [strip_prefix LF]. destruct (N.eqb_spec 10 c) as [<-|Hne]; [|done].
  cbn [strip_prefix star]. change (is_space 10) with true. cbv iota.
  rewrite Nat.add_1_r.
  destruct (star is_space _ (S pos) s); [done|].
  symmetry. by apply closing_space.
Qed.

Lemma star_final pos s : star is_space final pos s = Some (pos + length (run is_space s)).
Proof. by apply star_greedy. Qed.

Lemma star_line pos s :
  star is_space (re_match (re_opt (re_lit LF)) final) pos s
  = Some (pos + length (run is_space s)).
Proof.
  apply star_greedy. cbn [re_match].
  pose proof (run_stops is_space s) as H.
  destruct (drop (length (run is_space s)) s) as [|c d]; [done|].
  simpl in H. cbn [strip_prefix LF].
  destruct (N.eqb_spec 10 c) as [<-|]; done.
Qed.

Lemma open_cut tl r :
  (forall pos s, re_match tl final pos s = Some (pos + length (run is_space s))) ->
  replace_first (re_seq re_bos (re_seq (re_lit FENCE) (re_seq (re_opt (re_lit JSON)) tl)))
    (FENCE ++ r)
  = trimStart (afterTag r).
Proof.
  intros Htl. unfold replace_first.
  set (re := re_seq _ _).
  assert (re_match re final 0 (FENCE ++ r)
          = Some (3 + (length r - length (trimStart (afterTag r))))) as Hm.
  { unfold re. cbn [re_match Nat.eqb]. rewrite strip_prefix_app. unfold afterTag.
    destruct (strip_prefix JSON r) as [r'|] eqn:E.
    - rewrite Htl. apply strip_prefix_Some in E. subst r.
      rewrite trimStart_run, length_app, length_drop.
      pose proof (f_equal length (run_drop is_space r')) as Hl.
      rewrite length_app, length_drop in Hl.
      f_equal. simpl. lia.
    - rewrite Htl. rewrite trimStart_run, length_drop.
      pose proof (f_equal length (run_drop is_space r)) as Hl.
      rewrite length_app, length_drop in Hl.
      f_equal. simpl. lia. }
  change (re_search re 0 (FENCE ++ r)) with
    (match re_match re final 0 (FENCE ++ r) with
     | Some e => Some (0, e)
     | None => re_search re 1 (drop 1 (FENCE ++ r))
     end).
  rewrite Hm. clear Hm.
  assert (exists u, r = u ++ trimStart (afterTag r)) as [u Hu].
  { destruct (trimStart_suffix (afterTag r)) as [ws Hws].
    unfold afterTag in *. destruct (strip_prefix JSON r) as [r'|] eqn:E.
    - apply strip_prefix_Some in E. exists (JSON ++ ws).
      rewrite <- (assoc_L (++)). by rewrite <- Hws.
    - by exists ws. }
  remember (trimStart (afterTag r)) as T eqn:HT. clear HT. subst r.
  rewrite length_app.
  replace (length u + length T - length T) with (length u) by lia.
  change (drop (3 + length u) (FENCE ++ u ++ T)) with (drop (length u) (u ++ T)).
  by rewrite drop_app_length.
Qed.

Lemma fenceOpen_cut r : replace_first fenceOpen (FENCE ++ r) = trimStart (afterTag r).
Proof. apply open_cut. intros pos s. apply star_final. Qed.

Lemma fenceOpenLine_cut r :
  replace_first fenceOpenLine (FENCE ++ r) = trimStart (afterTag r).
Proof. apply open_cut. intros pos s. apply star_line. Qed.

Lemma fenceCloseLine_cut t : replace_first fenceCloseLine t = replace_first fenceClose t.
Proof.
  unfold replace_first.
  by rewrite (re_search_ext _ _ fenceCloseLine_match).
Qed.

Lemma fenceClose_found t p :
  closes (drop p t) -> p <= length t ->
  (forall j, j < p -> ~ closes (drop j t)) ->
  replace_first fenceClose t = take p t.
Proof.
  intros Hp Hlen Hbefore. unfold replace_first.
  rewrite (re_search_found fenceClose 0 t p (p + length (drop p t))).
  - rewrite length_drop. replace (p + (length t - p)) with (length t) by lia.
    by rewrite drop_all, app_nil_r.
  - intros j Hj. rewrite fenceClose_match, bool_decide_eq_false_2; [done|by apply Hbefore].
  - by rewrite fenceClose_match, bool_decide_eq_true_2.
  - done.
Qed.

Lemma fenceClose_cases t :
  replace_first fenceClose t = t
  \/ exists p, p <= length t /\ replace_first fenceClose t = take p t
       /\ closes (drop p t) /\ forall j, j < p -> ~ closes (drop j t).
Proof.
  unfold replace_first. destruct (re_search fenceClose 0 t) as [[p e]|] eqn:E; [|by left].
  right. apply re_search_Some in E as (i & -> & Hi & Hat & Hbefore).
  rewrite fenceClose_match in Hat. case_bool_decide as Hc; [|done].
  injection Hat as <-. exists i. rewrite length_drop.
  replace (i + (length t - i)) with (length t) by lia.
  rewrite drop_all, app_nil_r. split_and!; [done|done|done|].
  intros j Hj Hcj. specialize (Hbefore j Hj).
  by rewrite fenceClose_match, bool_decide_eq_true_2 in Hbefore.
Qed.

Lemma closes_cons c s : is_space c = true -> closes s -> closes (c :: s).
Proof. unfold closes. simpl. by intros ->. Qed.

Lemma fenceClose_trimmed t : trimmed t -> trimmed (replace_first fenceClose t).
Proof.
  intros [H1 H2].
  destruct (fenceClose_cases t) as [->|(p & Hp & -> & Hc & Hbefore)]; [done|].
  split.
  - rewrite <- (take_drop p t) in H1. by eapply stops_prefix.
  - destruct p as [|p]; [done|].
    destruct (lookup_lt_is_Some_2 t p ltac:(lia)) as [c Hcp].
    rewrite (take_S_r _ _ _ Hcp), reverse_app. simpl.
    destruct (is_space c) eqn:Hs; [|done]. exfalso.
    apply (Hbefore p ltac:(lia)).
    rewrite (drop_S _ _ _ Hcp). by apply closes_cons.
Qed.

Lemma afterTag_suffix r : exists u, r = u ++ trimStart (afterTag r).
Proof.
  destruct (trimStart_suffix (afterTag r)) as [ws Hws].
  unfold afterTag in *. destruct (strip_prefix JSON r) as [r'|] eqn:E.
  - apply strip_prefix_Some in E. exists (JSON ++ ws).
    rewrite <- (assoc_L (++)). by rewrite <- Hws.
  - by exists ws.
Qed.

Lemma afterTag_split r :
  exists tag ws,
    (tag = [] \/ tag = JSON)
    /\ Forall (fun c => is_space c = true) ws
    /\ r = tag ++ ws ++ trimStart (afterTag r).
Proof.
  unfold afterTag. destruct (strip_prefix JSON r) as [r'|] eqn:E.
  - apply strip_prefix_Some in E. exists JSON, (run is_space r').
    split_and!; [by right|apply run_Forall|].
    rewrite trimStart_run, <- run_drop. done.
  - exists [], (run is_space r).
    split_and!; [by left|apply run_Forall|].
    rewrite trimStart_run. apply run_drop.
Qed.

Lemma startsWith_true p s : startsWith p s = true <-> exists r, s = p ++ r.
Proof.
  unfold startsWith. destruct (strip_prefix p s) as [r|] eqn:E.
  - apply strip_prefix_Some in E. naive_solver.
  - split; [done|]. intros [r ->]. by rewrite strip_prefix_app in E.
Qed.

(** The reply of [generateScenario] is cleaned like the one of
    [validateAnswer]: the optional line feeds of its patterns and its
    second [trim] change nothing. *)
Lemma cleanedScenario_cleanedAnswer content :
  cleanedScenario content = cleanedAnswer (trim content).
Proof.
  unfold cleanedScenario, cleanedAnswer.
  pose proof (trim_trimmed content) as Ht.
  destruct (startsWith FENCE (trim content)) eqn:E; [|by apply trim_id].
  apply startsWith_true in E as [r Hr]. rewrite Hr in *.
  rewrite fenceOpenLine_cut, fenceCloseLine_cut, fenceOpen_cut.
  apply trim_id, fenceClose_trimmed. split; [apply trimStart_stops|].
  destruct Ht as [_ Ht]. destruct (afterTag_suffix r) as [u Hu].
  rewrite Hu, (assoc_L (++)), reverse_app in Ht. by eapply stops_prefix.
Qed.

Lemma closes_shape s :
  closes s <-> exists w, Forall (fun c => is_space c = true) w /\ s = w ++ FENCE.
Proof.
  unfold closes. split.
  - intros H. exists (run is_space s). split; [apply run_Forall|].
    rewrite <- H. apply run_drop.
  - intros (w & Hw & ->). rewrite (run_app _ _ _ Hw) by done.
    by rewrite drop_app_length.
Qed.

Lemma trim_pad ws0 x ws3 :
  Forall (fun c => is_space c = true) ws0 ->
  Forall (fun c => is_space c = true) ws3 ->
  trimmed x -> x <> [] ->
  trim (ws0 ++ x ++ ws3) = x.
Proof.
  intros H0 H3 [Hx1 Hx2] Hne. unfold trim.
  rewrite (trimStart_app _ _ H0).
  rewrite trimStart_id by (destruct x; done).
  unfold trimEnd. rewrite reverse_app.
  rewrite trimStart_app by (by apply Forall_reverse).
  by rewrite (trimStart_id _ Hx2), reverse_involutive.
Qed.

Lemma fenced_cut ws1 body ws2 tag :
  Forall (fun c => is_space c = true) ws1 ->
  Forall (fun c => is_space c = true) ws2 ->
  trimmed body ->
  tag = JSON \/ tag = [] /\ ws1 <> [] ->
  cleanedAnswer (FENCE ++ tag ++ ws1 ++ body ++ ws2 ++ FENCE) = body.
Proof.
  intros H1 H2 [Hb1 Hb2] Htag. unfold cleanedAnswer.
  assert (startsWith FENCE (FENCE ++ tag ++ ws1 ++ body ++ ws2 ++ FENCE) = true) as ->
    by (apply startsWith_true; eauto).
  rewrite fenceOpen_cut.
  assert (afterTag (tag ++ ws1 ++ body ++ ws2 ++ FENCE) = ws1 ++ body ++ ws2 ++ FENCE) as ->.
  { unfold afterTag. destruct Htag as [->|[-> Hne]].
    - by rewrite strip_prefix_app.
    - destruct ws1 as [|c ws1]; [done|]. inversion H1 as [|? ? Hc _]; subst.
      cbn [app strip_prefix JSON].
      destruct (N.eqb_spec 106 c) as [<-|]; done. }
  rewrite (trimStart_app _ _ H1).
  destruct body as [|b body].
  - cbn [app]. rewrite (trimStart_app _ _ H2), (trimStart_id FENCE) by done.
    by rewrite (fenceClose_found FENCE 0) by (done || lia).
  - rewrite trimStart_id by done.
    rewrite (fenceClose_found _ (length (b :: body))).
    + by rewrite take_app_length.
    + rewrite drop_app_length. apply closes_shape. eauto.
    + rewrite length_app. lia.
    + intros j Hj (w & Hw & Hs)%closes_shape.
      rewrite drop_app_le in Hs by lia.
      assert (exists i l, b :: body = i ++ [l] /\ is_space l = false) as (i & l & Hi & Hl).
      { destruct (reverse (b :: body)) as [|l i'] eqn:E.
        - apply (f_equal length) in E. rewrite length_reverse in E. done.
        - exists (reverse i'), l. split; [|done].
          rewrite <- (reverse_involutive (b :: body)), E. by rewrite reverse_cons. }
      rewrite Hi in Hs, Hj. rewrite length_app in Hj. simpl in Hj.
      rewrite drop_app_le in Hs by lia.
      rewrite <- !(assoc_L (++)) in Hs.
      rewrite !(assoc_L (++) _ _ FENCE) in Hs.
      apply app_inv_tail in Hs. subst w.
      rewrite Forall_forall in Hw.
      assert (is_space l = true) as Hl'.
      { apply Hw. rewrite !elem_of_app, list_elem_of_singleton. tauto. }
      congruence.
Qed.

(** ** Running a computation *)

Lemma exec_bind {A B} net (f : A -> io B) (m : io A) sent :
  exec net sent (io_bind f m)
  = match exec net sent m with
    | (sent', inl e) => (sent', inl e)
    | (sent', inr x) => exec net sent' (f x)
    end.
Proof.
  revert sent. induction m as [r|e|req k IH]; intros sent; simpl; [done|done|].
  apply IH.
Qed.

Lemma exec_try_catch {R} net (p : io R) h sent :
  exec net sent (try_catch p h)
  = match exec net sent p with
    | (sent', inl e) => exec net sent' (h e)
    | (sent', inr x) => (sent', inr x)
    end.
Proof.
  revert sent. induction p as [r|e|req k IH]; intros sent; simpl; [done|done|].
  apply IH.
Qed.

Lemma exec_fetch_json net req sent :
  exec net sent (fetch_json req)
  = (sent ++ [req],
     match net (sent ++ [req]) with
     | rejected => inl FetchError
     | not_json => inl SyntaxError
     | json_body data => inr data
     end).
Proof. unfold fetch_json. simpl. by destruct (net _). Qed.

Lemma exec_of_result {R} net (x : result R) sent : exec net sent (of_result x) = (sent, x).
Proof. by destruct x. Qed.

(** A call to the service inside a [try] whose handler returns a value. *)
Lemma exec_guarded {R} net req (reply_of : jsval -> result R) (fallback : R) sent :
  exec net sent
    (try_catch (data ← fetch_json req; of_result (reply_of data))
       (fun _ => Ret fallback))
  = (sent ++ [req],
     inr match net (sent ++ [req]) with
         | json_body data =>
             match reply_of data with
             | inr r => r
             | inl _ => fallback
             end
         | _ => fallback
         end).
Proof.
  rewrite exec_try_catch. unfold mbind, io_mbind. rewrite exec_bind, exec_fetch_json.
  destruct (net _) as [| |data]; [done|done|].
  rewrite exec_of_result. by destruct (reply_of data).
Qed.

Section ServiceFacts.
Variable API_KEY : option jsstring.
Variable JSON_parse : jsstring -> option jsval.

Lemma exec_validateAnswer net sent userAnswer step scenario :
  exec net sent (validateAnswer API_KEY JSON_parse userAnswer step scenario)
  = if no_key API_KEY
    then (sent, inr (notValidated (lit "Error: API Key is missing.")))
    else
      (sent ++ [validatorRequest API_KEY userAnswer step scenario],
       inr match net (sent ++ [validatorRequest API_KEY userAnswer step scenario]) with
           | json_body data =>
               match validatorReply JSON_parse data with
               | inr r => r
               | inl _ => notValidated (lit "Could not validate your answer. Please try again.")
               end
           | _ => notValidated (lit "Could not validate your answer. Please try again.")
           end).
Proof.
  unfold validateAnswer. destruct (no_key API_KEY); [done|]. apply exec_guarded.
Qed.


(** The grade computed from a parsed reply. *)
Lemma gradeOf_correct parsed v :
  gradeOf parsed = inr v ->
  ValidationResult.correct v = is_string (lit "correct") (ValidationResult.status v).
Proof.
  unfold gradeOf. unfold mbind, result_bind, mret, result_ret.
  destruct (get parsed (lit "status")) as [|declared]; [done|].
  destruct (toBoolean declared).
  - destruct (get parsed (lit "feedback")); [done|].
    destruct (get parsed (lit "correctedAnswer")) as [|ca]; [done|].
    destruct (toBoolean ca); [by intros [= <-]|].
    destruct (get parsed (lit "correctedCommand")); [done|]. by intros [= <-].
  - destruct (get parsed (lit "correct")) as [|flag]; [done|].
    destruct (get parsed (lit "feedback")); [done|].
    destruct (get parsed (lit "correctedAnswer")) as [|ca]; [done|].
    destruct (toBoolean ca); [by intros [= <-]|].
    destruct (get parsed (lit "correctedCommand")); [done|]. by intros [= <-].
Qed.

Lemma validatorReply_correct data v :
  validatorReply JSON_parse data = inr v ->
  ValidationResult.correct v = is_string (lit "correct") (ValidationResult.status v).
Proof.
  unfold validatorReply. unfold mbind, result_bind, mret, result_ret.
  destruct (get data (lit "error")) as [|err]; [done|].
  destruct (toBoolean err); [by intros [= <-]|].
  destruct (get data (lit "choices")) as [|choices]; [done|].
  destruct (get_0 choices) as [|choice]; [done|].
  destruct (get choice (lit "message")) as [|message]; [done|].
  destruct (get message (lit "content")) as [|content]; [done|].
  destruct (call_trim content) as [|raw]; [done|].
  destruct (JSON_parse _) as [parsed|]; [|done].
  apply gradeOf_correct.
Qed.

End ServiceFacts.

(** ** The submission loop *)

Section SubmitFacts.
Variable API_KEY : option jsstring.
Variable JSON_parse : jsstring -> option jsval.
Variable scenario : LogicScenario.
Variable answers : list (option jsstring).
Variable strs : list jsstring.
Variable perStep : spec_float.
Variable net : network.
Hypothesis answers_hold : holds answers strs.

Lemma holds_lookup i : i < length strs -> answers !! i = Some <$> strs !! i.
Proof.
  intros Hi. rewrite <- list_lookup_fmap, <- answers_hold.
  by rewrite lookup_take_lt.
Qed.

Lemma exec_evaluate sent i step answer :
  exists r fb,
    exec net sent (evaluate API_KEY JSON_parse scenario perStep i step (trim answer))
    = (sent ++ (if no_key API_KEY then []
                else option_list (answerRequest API_KEY scenario (step, answer))),
       inr (r, fb))
    /\ recorded API_KEY perStep i step answer r fb.
Proof.
  unfold evaluate, answerRequest, recorded. cbn [fst snd].
  destruct (trim answer) as [|c ans] eqn:E.
  - eexists _, _. split.
    + simpl. destruct (no_key API_KEY); by rewrite app_nil_r.
    + by split_and!.
  - rewrite exec_try_catch. unfold mbind, io_mbind. rewrite exec_bind.
    rewrite exec_validateAnswer.
    destruct (no_key API_KEY).
    + eexists _, _. split; [simpl; by rewrite app_nil_r|]. by split_and!.
    + set (req := validatorRequest _ _ _ _).
      eexists _, _. split; [done|].
      cbn [StepResult.stepIndex StepResult.instruction StepResult.expectedAnswer
           StepResult.timeTakenMs StepResult.status StepResult.feedback
           StepResult.correct StepResult.userAnswer BlankFeedback.status
           BlankFeedback.feedback].
      split_and!; try done.
      destruct (net (sent ++ [req])) as [| |data]; [done|done|].
      destruct (validatorReply JSON_parse data) as [e|v] eqn:Ev; [done|].
      by eapply validatorReply_correct.
Qed.

Lemma exec_submit_loop todo : forall i results fbs sent,
  i + todo <= length (steps scenario) ->
  i + todo <= length strs ->
  exists rs fs,
    exec net sent (submit_loop API_KEY JSON_parse scenario answers perStep todo i results fbs)
    = (sent ++ (if no_key API_KEY then []
                else omap (answerRequest API_KEY scenario)
                       (take todo (drop i (zip (steps scenario) strs)))),
       inr (results ++ rs, fbs ++ fs))
    /\ length rs = todo /\ length fs = todo
    /\ forall j step answer,
         steps scenario !! (i + j) = Some step -> strs !! (i + j) = Some answer ->
         j < todo ->
         exists r fb, rs !! j = Some r /\ fs !! j = Some fb
                      /\ recorded API_KEY perStep (i + j) step answer r fb.
Proof.
  induction todo as [|todo IH]; intros i results fbs sent Hs Ha.
  - exists [], []. simpl. split; [|split_and!; [done|done|intros; lia]].
    rewrite !app_nil_r. by destruct (no_key API_KEY); rewrite ?app_nil_r.
  - cbn [submit_loop].
    destruct (lookup_lt_is_Some_2 (steps scenario) i ltac:(lia)) as [step Hstep].
    destruct (lookup_lt_is_Some_2 strs i ltac:(lia)) as [answer Hanswer].
    rewrite Hstep, (holds_lookup i) by lia. rewrite Hanswer. cbn [fmap option_fmap option_map].
    unfold mbind, io_mbind. rewrite exec_bind.
    destruct (exec_evaluate sent i step answer) as (r & fb & -> & Hrec).
    cbn [fst snd].
    destruct (IH (S i) (results ++ [r]) (fbs ++ [fb])
                (sent ++ (if no_key API_KEY then []
                          else option_list (answerRequest API_KEY scenario (step, answer))))
                ltac:(lia) ltac:(lia))
      as (rs & fs & -> & Hlr & Hlf & Hall).
    exists (r :: rs), (fb :: fs). split_and!.
    + f_equal; [|by rewrite <- !(assoc_L (++))].
      rewrite <- (assoc_L (++)). f_equal.
      destruct (no_key API_KEY); [done|].
      assert (drop i (zip (steps scenario) strs)
              = (step, answer) :: drop (S i) (zip (steps scenario) strs)) as ->.
      { apply drop_S. rewrite lookup_zip_with, Hstep. simpl. by rewrite Hanswer. }
      cbn [take omap list_omap]. by destruct (answerRequest _ _ _).
    + simpl. lia.
    + simpl. lia.
    + intros [|j] step' answer' Hs' Ha' Hj.
      * rewrite Nat.add_0_r in *. exists r, fb. simpl. split_and!; [done|done|].
        congruence.
      * rewrite <- Nat.add_succ_comm in *.
        destruct (Hall j step' answer' Hs' Ha' ltac:(lia)) as (r' & fb' & ? & ? & ?).
        by exists r', fb'.
Qed.

End SubmitFacts.

(** ** Editing the answers *)

Lemma updateAnswer_holds answers strs idx val i :
  holds answers strs -> length answers = length strs ->
  idx = Z.of_nat i -> i < length strs -> (Z.of_nat (length strs) <= 4294967295)%Z ->
  holds (updateAnswer answers idx val) (<[i := val]> strs)
  /\ length (updateAnswer answers idx val) = length (<[i := val]> strs).
Proof.
  intros Hh Hlen -> Hi Hmax. unfold updateAnswer, holds in *.
  assert ((Z.of_nat i <? 0)%Z = false) as -> by (apply Z.ltb_ge; lia).
  assert ((4294967295 <=? Z.of_nat i)%Z = false) as -> by (apply Z.leb_gt; lia).
  cbn [orb]. rewrite Nat2Z.id.
  assert ((i <? length answers) = true) as -> by (apply Nat.ltb_lt; lia).
  rewrite !length_insert. split; [|done].
  rewrite <- Hlen, firstn_all in Hh. rewrite <- Hlen, <- (length_insert answers i (Some val)).
  rewrite firstn_all, Hh. by rewrite list_fmap_insert.
Qed.

Lemma edits_hold answers strs n (edits : list (Z * jsstring)) :
  holds answers strs -> length answers = n -> length strs = n ->
  (Z.of_nat n <= 4294967295)%Z ->
  Forall (fun e => e.1 ∈ Z.of_nat <$> seq 0 n) edits ->
  exists strs',
    holds (foldl (fun a e => updateAnswer a e.1 e.2) answers edits) strs'
    /\ length (foldl (fun a e => updateAnswer a e.1 e.2) answers edits) = n
    /\ length strs' = n.
Proof.
  intros Hh Hla Hls Hmax Hall. revert answers strs Hh Hla Hls.
  induction Hall as [|[idx val] edits Hin _ IH]; intros answers strs Hh Hla Hls.
  - by exists strs.
  - cbn [foldl fst snd]. cbn [fst] in Hin.
    apply list_elem_of_fmap in Hin as (i & -> & Hi%elem_of_seq).
    destruct (updateAnswer_holds answers strs (Z.of_nat i) val i Hh ltac:(lia) eq_refl
                ltac:(lia) ltac:(lia)) as [Hh' Hl'].
    rewrite length_insert in Hl'.
    apply (IH _ (<[i := val]> strs) Hh'); [lia|by rewrite length_insert].
Qed.

(** ** The scan and the sort *)

Lemma scanBlanks_Parse t cs tl :
  Parse blank_regex t cs tl -> scanBlanks t = blank_of_match <$> located 0 cs.
Proof.
  intros HP. unfold scanBlanks. by rewrite (exec_all_Parse _ blank_regex_sound _ _ _ HP).
Qed.

(** ** The identifier map, continued *)






(** ** References that share a prefix *)





(** ** What the pipeline writes is read back *)

Lemma scan_newMarker n :
  scanBlanks (newMarker n)
  = [{| originalId := n; index := 0; marker := newMarker n |}].
Proof.
  assert (Parse blank_regex ([] ++ newMarker n ++ [])
            [{| c_gap := []; c_text := newMarker n; c_group := toString n |}] []) as HP.
  { constructor.
    - apply quiet_nil.
    - rewrite newMarker_text. apply blank_regex_marker, toString_is_digits.
    - unfold newMarker, BLANK_OPEN. done.
    - constructor. apply silent_nil, blank_regex_sound. }
  cbn [app] in HP. rewrite app_nil_r in HP.
  unfold scanBlanks. rewrite (exec_all_Parse _ blank_regex_sound _ _ _ HP).
  cbn [located fmap list_fmap]. unfold blank_of_match. cbn [m_group m_index m_text c_gap c_text c_group].
  by rewrite parseInt_toString.
Qed.

Lemma refs_atBlank n : blankRefs (atBlank n) = [n].
Proof.
  assert (Parse contextRegex ([] ++ atBlank n ++ [])
            [{| c_gap := []; c_text := atBlank n; c_group := toString n |}] []) as HP.
  { constructor.
    - apply quiet_nil.
    - rewrite app_nil_r.
      pose proof (contextRegex_reference AT_BLANK_ (toString n) []
                    at_blank_prefix_AT_BLANK_ (toString_is_digits n) I) as H.
      by rewrite app_nil_r in H.
    - done.
    - constructor. apply silent_nil, contextRegex_sound. }
  cbn [app] in HP. rewrite app_nil_r in HP.
  rewrite (blankRefs_Parse _ _ _ HP). cbn [fmap list_fmap c_group].
  by rewrite parseInt_toString.
Qed.

(** ** What [generateScenario] returns *)

Lemma rewriteContext_nonempty idMap ctx : ctx <> [] -> rewriteContext idMap ctx <> [].
Proof.
  intros Hne. destruct (Parse_total _ contextRegex_sound ctx) as (cs & tl & HP).
  rewrite (rewriteContext_Parse _ _ _ _ HP), render_remap_chunk.
  destruct HP as [tl Hs|gap w g rest cs tl Hq Hw Hw' HP]; [done|].
  cbn [render c_gap]. unfold contextCallback, as_match. cbn [m_group m_text c_text c_group].
  intros H. apply app_eq_nil in H as [_ H]. apply app_eq_nil in H as [H _].
  destruct (truthy _) as [k|]; [|done].
  destruct (atBlank_head k) as [? Hk]. by rewrite Hk in H.
Qed.

Lemma stepId_nonempty n : stepId n <> [].
Proof. done. Qed.

Lemma or_default_nonempty x fallback : fallback <> [] -> or_default x fallback <> [].
Proof. intros H. by destruct x as [[|c s]|]. Qed.

Lemma generateScenario_Some config generated sc :
  generateScenario config generated = Some sc ->
  g_context generated <> [] /\ g_steps generated <> []
  /\ sc = postProcess (assembleScenario config generated).
Proof.
  unfold generateScenario.
  destruct (g_context generated), (g_steps generated); try done.
  by intros [= <-].
Qed.

Lemma relocate_id sts b i : step_id (relocate sts b i) = stepId (i + 1).
Proof. unfold relocate. by destruct (oldStep sts (originalId b)). Qed.

Lemma assembled_steps_nonempty config generated :
  g_steps generated <> [] -> steps (assembleScenario config generated) <> [].
Proof.
  intros Hne. unfold assembleScenario. cbn [steps]. intros H%(f_equal length).
  rewrite length_imap in H. by destruct (g_steps generated).
Qed.

(** ** Grades and prompts *)

Lemma gradeOf_truthy parsed v :
  gradeOf parsed = inr v -> toBoolean (ValidationResult.status v) = true.
Proof.
  unfold gradeOf. unfold mbind, result_bind, mret, result_ret.
  destruct (get parsed (lit "status")) as [|declared]; [done|].
  destruct (toBoolean declared) eqn:Ed.
  - destruct (get parsed (lit "feedback")); [done|].
    destruct (get parsed (lit "correctedAnswer")) as [|ca]; [done|].
    destruct (toBoolean ca); [by intros [= <-]|].
    destruct (get parsed (lit "correctedCommand")); [done|]. by intros [= <-].
  - destruct (get parsed (lit "correct")) as [|flag]; [done|].
    destruct (get parsed (lit "feedback")); [done|].
    destruct (get parsed (lit "correctedAnswer")) as [|ca]; [done|].
    destruct (toBoolean ca).
    + intros [= <-]. by destruct (toBoolean flag).
    + destruct (get parsed (lit "correctedCommand")); [done|].
      intros [= <-]. by destruct (toBoolean flag).
Qed.

Lemma validatorReply_truthy JSON_parse data v :
  validatorReply JSON_parse data = inr v ->
  toBoolean (ValidationResult.status v) = true.
Proof.
  unfold validatorReply. unfold mbind, result_bind, mret, result_ret.
  destruct (get data (lit "error")) as [|err]; [done|].
  destruct (toBoolean err); [by intros [= <-]|].
  destruct (get data (lit "choices")) as [|choices]; [done|].
  destruct (get_0 choices) as [|choice]; [done|].
  destruct (get choice (lit "message")) as [|message]; [done|].
  destruct (get message (lit "content")) as [|content]; [done|].
  destruct (call_trim content) as [|raw]; [done|].
  destruct (JSON_parse _) as [parsed|]; [|done].
  apply gradeOf_truthy.
Qed.


Lemma header_match d :
  exec_all (headerRegex d) (atBlank d)
  = [{| m_index := 0; m_text := atBlank d; m_group := [] |}].
Proof.
  assert (Parse (headerRegex d) ([] ++ atBlank d ++ [])
            [{| c_gap := []; c_text := atBlank d; c_group := [] |}] []) as HP.
  { constructor.
    - apply quiet_nil.
    - apply (headerRegex_reference d AT_BLANK_ []), at_blank_prefix_AT_BLANK_.
    - done.
    - constructor. apply silent_nil, headerRegex_sound. }
  cbn [app] in HP. rewrite app_nil_r in HP.
  by rewrite (exec_all_Parse _ (headerRegex_sound d) _ _ _ HP).
Qed.

Lemma systemContent_instructions sc sc' i :
  title sc = title sc' -> environment sc = environment sc' ->
  instruction <$> steps sc = instruction <$> steps sc' ->
  systemContent sc i = systemContent sc' i.
Proof.
  intros Ht He Hs. unfold systemContent, interviewerPrompt. rewrite Ht, He.
  f_equal.
  pose proof (f_equal (fun l => l !! i) Hs) as Hi. simpl in Hi.
  rewrite !list_lookup_fmap in Hi.
  destruct (steps sc !! i), (steps sc' !! i); simpl in Hi; try done.
  by injection Hi as ->.
Qed.

Lemma validatorReply_completion JSON_parse content :
  validatorReply JSON_parse (completion content)
  = match JSON_parse (cleanedAnswer (trim content)) with
    | None => inl SyntaxError
    | Some parsed => gradeOf parsed
    end.
Proof. reflexivity. Qed.

(** * Further properties of the code *)


(** X2. For a scenario returned by [generateScenario] whose template is
    empty or holds a marker, the inputs of the code view edit
    [answers[0]], [answers[1]], ..., one for each step, in order: no input
    is out of range and no step is left without an input. *)
Theorem X2_inputs_cover_the_steps config generated sc :
  generateScenario config generated = Some sc ->
  codeTemplate sc = [] \/ foundBlanks (codeTemplate sc) <> [] ->
  inputs (renderUnifiedTemplate sc) = Z.of_nat <$> seq 0 (length (steps sc)).
Proof.
  intros (_ & _ & ->)%generateScenario_Some. apply inputs_postProcess.
Qed.

(** On the scenario with the markers 3, 1, 2. *)
Lemma X2_inputs_cover_the_steps_witness :
  generateScenario example_config scrambled_generated
  = Some (postProcess (assembleScenario example_config scrambled_generated))
  /\ inputs (renderUnifiedTemplate
               (postProcess (assembleScenario example_config scrambled_generated)))
     = [0; 1; 2]%Z.
Proof.
  split; [reflexivity|].
  apply (X2_inputs_cover_the_steps example_config scrambled_generated).
  - reflexivity.
  - right. vm_compute. discriminate.
Defined.

(** X3. [foundBlanks.sort((a, b) => a.index - b.index)] never changes the
    list: [regex.exec] already reports the markers from left to right. *)
Theorem X3_sort_changes_nothing t : foundBlanks t = scanBlanks t.
Proof.
  destruct (Parse_total _ blank_regex_sound t) as (cs & tl & HP).
  unfold foundBlanks. rewrite (scanBlanks_Parse _ _ _ HP). apply sort_located.
Qed.





(** X6. What the post-processing writes, its own patterns read back: the
    marker written for [n] is scanned as one marker with the declared
    index [n], and "At Blank n" is one reference to [n] for the pattern of
    the context and for the pattern of step [n]. *)
Theorem X6_written_tokens_are_read_back n :
  scanBlanks (newMarker n) = [{| originalId := n; index := 0; marker := newMarker n |}]
  /\ blankRefs (atBlank n) = [n]
  /\ exec_all (headerRegex n) (atBlank n)
     = [{| m_index := 0; m_text := atBlank n; m_group := [] |}].
Proof. split_and!; [apply scan_newMarker|apply refs_atBlank|apply header_match]. Qed.

(** X7. A scenario returned by [generateScenario] has a context that is
    not empty, at least one step, and no step without an identifier. *)
Theorem X7_generated_scenario_is_never_empty config generated sc :
  generateScenario config generated = Some sc ->
  context sc <> [] /\ steps sc <> []
  /\ Forall (fun st => step_id st <> []) (steps sc).
Proof.
  intros (Hctx & Hsts & ->)%generateScenario_Some.
  set (sc0 := assembleScenario config generated).
  assert (steps sc0 <> []) as Hsteps0 by (by apply assembled_steps_nonempty).
  assert (Forall (fun st => step_id st <> []) (steps sc0)) as Hids0.
  { unfold sc0, assembleScenario. cbn [steps]. apply Forall_forall.
    intros st (i & Hi)%list_elem_of_lookup_1.
    rewrite list_lookup_imap in Hi.
    destruct (g_steps generated !! i) as [s|]; [|done].
    injection Hi as <-. cbn [step_id]. apply or_default_nonempty, stepId_nonempty. }
  destruct (decide (foundBlanks (codeTemplate sc0) = [])) as [He|Hb].
  - rewrite (postProcess_no_blanks _ He). by split_and!.
  - rewrite (postProcess_blanks _ Hb). cbn [context steps]. split_and!.
    + by apply rewriteContext_nonempty.
    + intros H%(f_equal length). rewrite remapSteps_length in H.
      by destruct (foundBlanks (codeTemplate sc0)).
    + apply Forall_forall. intros st (i & Hi)%list_elem_of_lookup_1.
      pose proof (lookup_lt_Some _ _ _ Hi) as Hlt. rewrite remapSteps_length in Hlt.
      destruct (lookup_lt_is_Some_2 _ _ Hlt) as [b Hb'].
      rewrite (remapSteps_lookup _ _ _ _ Hb') in Hi. injection Hi as <-.
      rewrite relocate_id. apply stepId_nonempty.
Qed.

(** On the scenario with the markers 3, 1, 2. *)
Lemma X7_generated_scenario_is_never_empty_witness :
  context (postProcess (assembleScenario example_config scrambled_generated)) <> []
  /\ steps (postProcess (assembleScenario example_config scrambled_generated)) <> []
  /\ Forall (fun st => step_id st <> [])
       (steps (postProcess (assembleScenario example_config scrambled_generated))).
Proof.
  apply (X7_generated_scenario_is_never_empty example_config scrambled_generated).
  reflexivity.
Defined.

(** X8. A reply wrapped in a Markdown fence, with or without the "json"
    tag, with any white space around the fence and between the fence and
    the body, is cleaned to its body, by [validateAnswer] and by
    [generateScenario] alike. An untagged fence must be followed by white
    space. *)
Theorem X8_fenced_reply_is_unwrapped ws0 tag ws1 body ws2 ws3 :
  Forall (fun c => is_space c = true) ws0 ->
  Forall (fun c => is_space c = true) ws1 ->
  Forall (fun c => is_space c = true) ws2 ->
  Forall (fun c => is_space c = true) ws3 ->
  trimmed body ->
  tag = JSON \/ tag = [] /\ ws1 <> [] ->
  let content := ws0 ++ (FENCE ++ tag ++ ws1 ++ body ++ ws2 ++ FENCE) ++ ws3 in
  cleanedAnswer (trim content) = body /\ cleanedScenario content = body.
Proof.
  intros H0 H1 H2 H3 Hb Htag content.
  assert (cleanedAnswer (trim content) = body) as H.
  { unfold content. rewrite trim_pad; [by apply fenced_cut|done|done| |done].
    split; [done|]. by rewrite !reverse_app. }
  split; [done|]. by rewrite cleanedScenario_cleanedAnswer.
Qed.

(** A fenced "{ }" between line feeds. *)
Lemma X8_fenced_reply_is_unwrapped_witness :
  cleanedAnswer (trim (LF ++ (FENCE ++ JSON ++ LF ++ lit "{ }" ++ LF ++ FENCE) ++ LF))
  = lit "{ }"
  /\ cleanedScenario (LF ++ (FENCE ++ JSON ++ LF ++ lit "{ }" ++ LF ++ FENCE) ++ LF)
     = lit "{ }".
Proof.
  apply (X8_fenced_reply_is_unwrapped LF JSON LF (lit "{ }") LF LF);
    by repeat constructor.
Defined.

(** X9. [generateScenario] cleans a reply exactly as [validateAnswer]
    does: the optional line feeds in its two patterns and its second
    [trim] never change the result. *)
Theorem X9_both_replies_are_cleaned_alike content :
  cleanedScenario content = cleanedAnswer (trim content).
Proof. apply cleanedScenario_cleanedAnswer. Qed.

(** X10. [validateAnswer] never throws, whatever the service answers: it
    returns a result, having sent no request when the API key is missing
    and exactly one, carrying the answer of the user, otherwise. *)
Theorem X10_validateAnswer_always_returns API_KEY JSON_parse net sent
    userAnswer step scenario :
  exists v,
    exec net sent (validateAnswer API_KEY JSON_parse userAnswer step scenario)
    = (sent ++ (if no_key API_KEY then []
                else [validatorRequest API_KEY userAnswer step scenario]),
       inr v).
Proof.
  rewrite exec_validateAnswer. destruct (no_key API_KEY); [|by eexists].
  rewrite app_nil_r. by eexists.
Qed.

(** X11. In every result of [validateAnswer] the flag [correct] says
    whether [status] is the string "correct", and [status] is truthy. An
    answer is reported correct only if the key is set, the service replied
    with JSON and the reply was graded: a failure never passes an answer. *)
Theorem X11_correct_only_from_a_graded_reply API_KEY JSON_parse net sent
    userAnswer step scenario sent' v :
  exec net sent (validateAnswer API_KEY JSON_parse userAnswer step scenario)
  = (sent', inr v) ->
  ValidationResult.correct v = is_string (lit "correct") (ValidationResult.status v)
  /\ toBoolean (ValidationResult.status v) = true
  /\ (ValidationResult.correct v = true ->
      no_key API_KEY = false
      /\ exists data,
           net (sent ++ [validatorRequest API_KEY userAnswer step scenario])
           = json_body data
           /\ validatorReply JSON_parse data = inr v).
Proof.
  rewrite exec_validateAnswer. destruct (no_key API_KEY).
  - intros [= <- <-]. by split_and!.
  - intros [= <- <-].
    destruct (net _) as [| |data]; [by split_and!|by split_and!|].
    destruct (validatorReply JSON_parse data) as [e|r] eqn:Er; [by split_and!|].
    split_and!.
    + by eapply validatorReply_correct.
    + by eapply validatorReply_truthy.
    + intros _. split; [done|]. by exists data.
Qed.

(** A reply that grades the answer as correct. *)
Lemma X11_correct_only_from_a_graded_reply_witness :
  exec example_net []
    (validateAnswer example_key example_parse (lit "FROM node")
       (mkStep "step_1" "At Blank 1: first" "a1") at_example)
  = ([validatorRequest example_key (lit "FROM node")
        (mkStep "step_1" "At Blank 1: first" "a1") at_example],
     inr example_grade)
  /\ ValidationResult.correct example_grade
     = is_string (lit "correct") (ValidationResult.status example_grade)
  /\ toBoolean (ValidationResult.status example_grade) = true
  /\ (ValidationResult.correct example_grade = true ->
      no_key example_key = false
      /\ exists data,
           example_net ([] ++ [validatorRequest example_key (lit "FROM node")
                                 (mkStep "step_1" "At Blank 1: first" "a1") at_example])
           = json_body data
           /\ validatorReply example_parse data = inr example_grade).
Proof.
  assert (exec example_net []
            (validateAnswer example_key example_parse (lit "FROM node")
               (mkStep "step_1" "At Blank 1: first" "a1") at_example)
          = ([validatorRequest example_key (lit "FROM node")
                (mkStep "step_1" "At Blank 1: first" "a1") at_example],
             inr example_grade)) as H by (vm_compute; reflexivity).
  split; [exact H|].
  exact (X11_correct_only_from_a_graded_reply _ _ _ _ _ _ _ _ _ H).
Defined.

(** X12. The grade read from the parsed reply. [null] makes the grading
    throw. A value that is not an object is graded "incorrect" with an
    empty feedback. For an object, a truthy [status] is taken as it is and
    wins over the flag [correct]; without one the flag decides. *)
Theorem X12_grade_of_a_parsed_reply parsed :
  match parsed with
  | VUndefined | VNull => gradeOf parsed = inl TypeError
  | VObj props =>
      exists v,
        gradeOf parsed = inr v
        /\ ValidationResult.status v
           = (if toBoolean (own_property (lit "status") props)
              then own_property (lit "status") props
              else VStr (if toBoolean (own_property (lit "correct") props)
                         then lit "correct" else lit "incorrect"))
        /\ (ValidationResult.correct v = true <->
            is_string (lit "correct") (own_property (lit "status") props) = true
            \/ toBoolean (own_property (lit "status") props) = false
               /\ toBoolean (own_property (lit "correct") props) = true)
        /\ ValidationResult.feedback v = js_or (own_property (lit "feedback") props) (VStr [])
  | VBool _ | VNum _ | VStr _ | VArr _ =>
      gradeOf parsed = inr (notValidated [])
  end.
Proof.
  destruct parsed as [| |b|x|s|elems|props]; try done.
  unfold gradeOf. cbn [get]. unfold mbind, result_bind, mret, result_ret.
  set (st := own_property (lit "status") props).
  set (fl := own_property (lit "correct") props).
  destruct (toBoolean st) eqn:Est.
  - destruct (toBoolean (own_property (lit "correctedAnswer") props));
      eexists; (split; [reflexivity|]);
      cbn [ValidationResult.status ValidationResult.correct ValidationResult.feedback];
      (split_and!; [done| |done]); (split; [by left|]);
      (intros [?|[? _]]; [done|congruence]).
  - assert (is_string (lit "correct") st = false) as Hst.
    { destruct st as [| | | |[|? ?]| |]; try done. }
    destruct (toBoolean (own_property (lit "correctedAnswer") props));
      eexists; (split; [reflexivity|]);
      cbn [ValidationResult.status ValidationResult.correct ValidationResult.feedback];
      (split_and!; [done| |done]);
      destruct (toBoolean fl); split; try done; try (by right);
      intros [?|[_ ?]]; congruence.
Qed.


(** X14. What [sendMessageToAI] does depends on the scenario through its
    title, its environment and the instructions of its steps only: the
    expected answers and the simulated outputs are never sent to the
    interviewer model. *)
Theorem X14_interviewer_is_not_sent_the_answers API_KEY messages sc sc' i :
  title sc = title sc' -> environment sc = environment sc' ->
  instruction <$> steps sc = instruction <$> steps sc' ->
  sendMessageToAI API_KEY messages sc i = sendMessageToAI API_KEY messages sc' i.
Proof.
  intros Ht He Hs. unfold sendMessageToAI.
  by rewrite (systemContent_instructions sc sc' i Ht He Hs).
Qed.

(** Two scenarios that differ in their answers, context and template. *)
Lemma X14_interviewer_is_not_sent_the_answers_witness :
  sendMessageToAI example_key [] at_example 0
  = sendMessageToAI example_key [] other_answers_example 0.
Proof.
  apply (X14_interviewer_is_not_sent_the_answers example_key [] at_example
           other_answers_example 0); reflexivity.
Defined.

(** X15. When [answers] holds a string for every step, [handleSubmitAll] never throws
    and records one result and one feedback per step, in order: result [i]
    carries the index, the instruction and the expected answer of step
    [i], its flag [correct] agrees with its status, a blank answer is
    recorded as "(no answer)", "incorrect", "No answer provided.", and
    without an API key every other answer is recorded as "incorrect". *)
Theorem X15_submit_records_every_step API_KEY JSON_parse scenario answers strs
    perStep net sent :
  holds answers strs ->
  length strs = length (steps scenario) ->
  exists reqs results fbs,
    exec net sent (handleSubmitAll API_KEY JSON_parse scenario answers perStep)
    = (sent ++ reqs, inr (results, fbs))
    /\ length results = length (steps scenario)
    /\ length fbs = length (steps scenario)
    /\ forall i step answer,
         steps scenario !! i = Some step -> strs !! i = Some answer ->
         exists r fb, results !! i = Some r /\ fbs !! i = Some fb
                      /\ recorded API_KEY perStep i step answer r fb.
Proof.
  intros Hh Hlen. unfold handleSubmitAll.
  destruct (exec_submit_loop API_KEY JSON_parse scenario answers strs perStep net Hh
              (length (steps scenario)) 0 [] [] sent ltac:(lia) ltac:(lia))
    as (rs & fs & -> & Hr & Hf & Hall).
  eexists _, rs, fs. split_and!; [done|done|done|].
  intros i step answer Hs Ha.
  apply (Hall i step answer Hs Ha). by eapply lookup_lt_Some.
Qed.

(** Two steps, the first answer blank. *)
Lemma X15_submit_records_every_step_witness :
  exists reqs results fbs,
    exec example_net []
      (handleSubmitAll example_key example_parse at_example (Some <$> example_answers)
         (S754_zero false))
    = ([] ++ reqs, inr (results, fbs))
    /\ length results = length (steps at_example)
    /\ length fbs = length (steps at_example)
    /\ forall i step answer,
         steps at_example !! i = Some step -> example_answers !! i = Some answer ->
         exists r fb, results !! i = Some r /\ fbs !! i = Some fb
                      /\ recorded example_key (S754_zero false) i step answer r fb.
Proof.
  apply (X15_submit_records_every_step example_key example_parse at_example
           (Some <$> example_answers) example_answers (S754_zero false) example_net []);
    reflexivity.
Defined.

(** X16. [handleSubmitAll] sends one request for each answer that is not
    blank, in the order of the steps and with the answer trimmed, and none
    for a blank answer; without an API key it sends nothing. *)
Theorem X16_blank_answers_are_not_sent API_KEY JSON_parse scenario answers strs
    perStep net sent :
  holds answers strs ->
  length strs = length (steps scenario) ->
  (exec net sent (handleSubmitAll API_KEY JSON_parse scenario answers perStep)).1
  = sent ++ (if no_key API_KEY then []
             else omap (answerRequest API_KEY scenario) (zip (steps scenario) strs)).
Proof.
  intros Hh Hlen. unfold handleSubmitAll.
  destruct (exec_submit_loop API_KEY JSON_parse scenario answers strs perStep net Hh
              (length (steps scenario)) 0 [] [] sent ltac:(lia) ltac:(lia))
    as (rs & fs & -> & _). cbn [fst]. f_equal.
  destruct (no_key API_KEY); [done|]. f_equal. rewrite drop_0.
  apply take_ge. rewrite length_zip_with. lia.
Qed.

(** Two steps, the first answer blank. *)
Lemma X16_blank_answers_are_not_sent_witness :
  (exec example_net []
     (handleSubmitAll example_key example_parse at_example (Some <$> example_answers)
        (S754_zero false))).1
  = [] ++ (if no_key example_key then []
           else omap (answerRequest example_key at_example)
                  (zip (steps at_example) example_answers)).
Proof.
  apply (X16_blank_answers_are_not_sent example_key example_parse at_example
           (Some <$> example_answers) example_answers (S754_zero false) example_net []);
    reflexivity.
Defined.

(** X17. Cleaning a reply only cuts at its two ends: what is kept is one
    stretch of the reply, in front of it nothing or an opening fence with
    its tag and white space, behind it nothing or white space and a closing
    fence. A reply that does not start with a fence is kept whole. *)
Theorem X17_cleaning_cuts_only_at_the_ends raw :
  exists a b,
    raw = a ++ cleanedAnswer raw ++ b
    /\ (a = [] /\ b = []
        \/ (exists tag ws,
              (tag = [] \/ tag = JSON)
              /\ Forall (fun c => is_space c = true) ws
              /\ a = FENCE ++ tag ++ ws)
           /\ (b = [] \/ closes b)).
Proof.
  unfold cleanedAnswer. destruct (startsWith FENCE raw) eqn:E.
  - apply startsWith_true in E as [r ->]. rewrite fenceOpen_cut.
    destruct (afterTag_split r) as (tag & ws & Htag & Hws & Hr).
    destruct (fenceClose_cases (trimStart (afterTag r)))
      as [->|(p & Hp & -> & Hc & _)].
    + exists (FENCE ++ tag ++ ws), []. split.
      * rewrite app_nil_r, <- !(assoc_L (++)). by rewrite <- Hr.
      * right. split; [by exists tag, ws|by left].
    + exists (FENCE ++ tag ++ ws), (drop p (trimStart (afterTag r))). split.
      * rewrite take_drop, <- !(assoc_L (++)). by rewrite <- Hr.
      * right. split; [by exists tag, ws|by right].
  - exists [], []. split; [by rewrite app_nil_r|by left].
Qed.

(** X18. Nothing checks that the template returned by the model holds a
    marker: when [generateScenario] returns a scenario whose template is
    not empty and holds none, the code view shows no input at all, although
    the scenario has steps to answer. *)
Theorem X18_template_without_markers_has_no_input config generated sc :
  generateScenario config generated = Some sc ->
  codeTemplate sc <> [] ->
  foundBlanks (codeTemplate sc) = [] ->
  inputs (renderUnifiedTemplate sc) = [] /\ steps sc <> [].
Proof.
  intros (_ & Hsteps & ->)%generateScenario_Some Ht Hnone.
  set (sc0 := assembleScenario config generated) in *.
  destruct (decide (foundBlanks (codeTemplate sc0) = [])) as [He|Hb].
  - rewrite (postProcess_no_blanks _ He) in *. split.
    + unfold renderUnifiedTemplate. destruct (codeTemplate sc0) eqn:E; [done|].
      cbn [inputs]. by rewrite templateParts_blanks, Hnone.
    + by apply assembled_steps_nonempty.
  - exfalso. apply (f_equal (fmap originalId)) in Hnone.
    rewrite (postProcess_blanks _ Hb) in Hnone. cbn [codeTemplate] in Hnone.
    rewrite rewriteTemplate_rescan in Hnone.
    by destruct (foundBlanks (codeTemplate sc0)).
Qed.

(** A template that is plain text. *)
Lemma X18_template_without_markers_has_no_input_witness :
  inputs (renderUnifiedTemplate
            (postProcess (assembleScenario example_config bare_generated))) = []
  /\ steps (postProcess (assembleScenario example_config bare_generated)) <> [].
Proof.
  apply (X18_template_without_markers_has_no_input example_config bare_generated);
    [reflexivity|done|reflexivity].
Defined.

(** X19. For a scenario returned by [generateScenario] whose template is
    empty or holds a marker (and whose steps fit in an array), the answers
    stay one string per step whatever is typed into the inputs of the code
    view, in any order: no edit extends the array or leaves a hole, and so
    [handleSubmitAll] never throws. *)
Theorem X19_edits_keep_one_answer_per_step config generated sc edits
    API_KEY JSON_parse perStep net sent :
  generateScenario config generated = Some sc ->
  codeTemplate sc = [] \/ foundBlanks (codeTemplate sc) <> [] ->
  (Z.of_nat (length (steps sc)) <= 4294967295)%Z ->
  Forall (fun e => e.1 ∈ inputs (renderUnifiedTemplate sc)) edits ->
  let answers := foldl (fun a e => updateAnswer a e.1 e.2) (initialAnswers sc) edits in
  (exists strs, answers = Some <$> strs /\ length strs = length (steps sc))
  /\ exists reqs results fbs,
       exec net sent (handleSubmitAll API_KEY JSON_parse sc answers perStep)
       = (sent ++ reqs, inr (results, fbs))
       /\ length results = length (steps sc).
Proof.
  intros (_ & _ & ->)%generateScenario_Some Ht Hmax Hedits answers.
  rewrite (inputs_postProcess _ Ht) in Hedits.
  set (sc := postProcess (assembleScenario config generated)) in *.
  destruct (edits_hold (initialAnswers sc) (replicate (length (steps sc)) [])
              (length (steps sc)) edits) as (strs & Hh & Hla & Hls).
  - unfold holds, initialAnswers. rewrite length_replicate, fmap_replicate.
    apply take_ge. by rewrite length_replicate.
  - apply length_replicate.
  - apply length_replicate.
  - done.
  - done.
  - fold answers in Hh, Hla.
    assert (answers = Some <$> strs) as Heq.
    { unfold holds in Hh. rewrite <- Hh. symmetry. apply take_ge. lia. }
    split; [by exists strs|].
    unfold handleSubmitAll.
    destruct (exec_submit_loop API_KEY JSON_parse sc answers strs perStep net Hh
                (length (steps sc)) 0 [] [] sent ltac:(lia) ltac:(lia))
      as (rs & fs & -> & Hr & _).
    by eexists _, rs, fs.
Qed.

(** Three edits of the scenario with the markers 3, 1, 2. *)
Lemma X19_edits_keep_one_answer_per_step_witness :
  (exists strs,
     foldl (fun a e => updateAnswer a e.1 e.2)
       (initialAnswers (postProcess (assembleScenario example_config scrambled_generated)))
       example_edits
     = Some <$> strs
     /\ length strs
        = length (steps (postProcess (assembleScenario example_config scrambled_generated))))
  /\ exists reqs results fbs,
       exec example_net []
         (handleSubmitAll example_key example_parse
            (postProcess (assembleScenario example_config scrambled_generated))
            (foldl (fun a e => updateAnswer a e.1 e.2)
               (initialAnswers
                  (postProcess (assembleScenario example_config scrambled_generated)))
               example_edits)
            (S754_zero false))
       = ([] ++ reqs, inr (results, fbs))
       /\ length results
          = length (steps (postProcess (assembleScenario example_config scrambled_generated))).
Proof.
  apply (X19_edits_keep_one_answer_per_step example_config scrambled_generated _
           example_edits example_key example_parse (S754_zero false) example_net []).
  - reflexivity.
  - right. vm_compute. discriminate.
  - vm_compute. discriminate.
  - repeat constructor; vm_compute; repeat constructor.
Defined.

(** X20. The grade of a reply does not depend on the fence around it: a
    completion whose text is a fenced body is graded as [JSON.parse] and the
    grading make of the body alone, and so is the completion whose text is
    the bare body, when that does not itself start with a fence. *)
Theorem X20_fence_does_not_change_the_grade JSON_parse ws0 tag ws1 body ws2 ws3 :
  Forall (fun c => is_space c = true) ws0 ->
  Forall (fun c => is_space c = true) ws1 ->
  Forall (fun c => is_space c = true) ws2 ->
  Forall (fun c => is_space c = true) ws3 ->
  trimmed body ->
  tag = JSON \/ tag = [] /\ ws1 <> [] ->
  let graded :=
    match JSON_parse body with
    | None => inl SyntaxError
    | Some parsed => gradeOf parsed
    end in
  validatorReply JSON_parse
    (completion (ws0 ++ (FENCE ++ tag ++ ws1 ++ body ++ ws2 ++ FENCE) ++ ws3))
  = graded
  /\ (startsWith FENCE body = false ->
      validatorReply JSON_parse (completion (ws0 ++ body ++ ws3)) = graded).
Proof.
  intros H0 H1 H2 H3 Hb Htag graded. rewrite !validatorReply_completion. split.
  - rewrite trim_pad; [|done|done| |done].
    + by rewrite fenced_cut.
    + split; [done|]. by rewrite !reverse_app.
  - intros Hs. destruct body as [|c body]; [|rewrite trim_pad by done].
    + assert (trim (ws0 ++ [] ++ ws3) = []) as ->; [|done].
      unfold trim. cbn [app]. rewrite trimStart_app by done.
      assert (trimStart ws3 = []) as ->; [|done].
      clear -H3. induction H3 as [|c ws Hc _ IH]; simpl; [done|]. by rewrite Hc.
    + unfold cleanedAnswer. by rewrite Hs.
Qed.

(** A fenced "ok" between line feeds, for a parser that knows that text. *)
Lemma X20_fence_does_not_change_the_grade_witness :
  validatorReply example_parse
    (completion (LF ++ (FENCE ++ JSON ++ LF ++ lit "ok" ++ LF ++ FENCE) ++ LF))
  = match example_parse (lit "ok") with
    | None => inl SyntaxError
    | Some parsed => gradeOf parsed
    end
  /\ (startsWith FENCE (lit "ok") = false ->
      validatorReply example_parse (completion (LF ++ lit "ok" ++ LF))
      = match example_parse (lit "ok") with
        | None => inl SyntaxError
        | Some parsed => gradeOf parsed
        end).
Proof.
  apply (X20_fence_does_not_change_the_grade example_parse LF JSON LF (lit "ok") LF LF);
    by repeat constructor.
Defined.
